(** * Fretless / DeMIDI: a shallow embedding of the gesture-to-MIDI encoder
      (Fretless.c) and of the inbound MIDI decoder (DeMIDI.c), with the
      properties of the specification stated and settled against them.

    Conventions of the embedding.
    - A C [int] is a [Z]; the values that occur (finger, channel and note
      numbers, counters) stay far away from the 32-bit limits.
    - A C [float] is an IEEE-754 binary32 value and a [double] a binary64
      value, both written as [spec_float] in the canonical form of their
      format; every implicit conversion of the source (int to float, float to
      double, double to float, float to int) is written out.
    - The arrays of a context are maps from [Z]. An index outside the
      declared bounds, where the C program would read or write other memory,
      has a cell of its own in the map: a theorem stated without a range on
      an index holds in the model for every index, and speaks of the C
      program for the indices inside the bounds.
    - The injected callbacks (midiPutch, midiFlush, fail, logger, passed)
      return to the caller; each call is recorded, in order, in the [trace]
      of the context. *)

From Stdlib Require Import ZArith List String Bool Lia RelationClasses.
From Stdlib Require Import Floats.SpecFloat.
Import ListNotations.
Open Scope Z_scope.

(** ** C floating point *)

Module CFloat.

(** binary32 and binary64 arithmetic, round to nearest even. *)
Definition fadd := SFadd 24 128.
Definition fsub := SFsub 24 128.
Definition fmul := SFmul 24 128.
Definition fdiv := SFdiv 24 128.
Definition dadd := SFadd 53 1024.
Definition dmul := SFmul 53 1024.
Definition ddiv := SFdiv 53 1024.

(** [(float)n] and [(double)n] for an int [n]. *)
Definition float_of_int (n : Z) : spec_float := binary_normalize 24 128 n 0 false.
Definition double_of_int (n : Z) : spec_float := binary_normalize 53 1024 n 0 false.

(** Conversion between the two formats: the value is brought to the
    canonical form of the target format (exact from float to double,
    rounded from double to float). *)
Definition reformat (prec emax : Z) (x : spec_float) : spec_float :=
  match x with
  | S754_finite s m e => binary_normalize prec emax (cond_Zopp s (Zpos m)) e s
  | _ => x
  end.
Definition double_of_float : spec_float -> spec_float := reformat 53 1024.
Definition float_of_double : spec_float -> spec_float := reformat 24 128.

(** [(int)x]: truncation toward zero.  The conversion of a NaN or of an
    infinity is undefined in C; the model gives INT_MIN, the value the
    x86 and ARM conversions produce. *)
Definition INT_MIN : Z := -2147483648.
Definition int_of_fp (x : spec_float) : Z :=
  match x with
  | S754_zero _ => 0
  | S754_finite s m e =>
      cond_Zopp s (if 0 <=? e then Zpos m * 2 ^ e else Zpos m / 2 ^ (- e))
  | _ => INT_MIN
  end.

(** The double constants of the source. *)
Definition d_half : spec_float := binary_normalize 53 1024 1 (-1) false.      (* 0.5 *)
Definition d_minus_half : spec_float := binary_normalize 53 1024 (-1) (-1) false. (* -0.5 *)
Definition d_127_5 : spec_float := binary_normalize 53 1024 255 (-1) false.    (* 127.5 *)

Definition is_nan (x : spec_float) : bool :=
  match x with S754_nan => true | _ => false end.

End CFloat.
Import CFloat.

(** ** Constants *)

(** Modelled from the spec: FretlessCommon.h is not part of the sources; the
    spec gives FINGER_MAX = 16, and NOBODY is the NONE sentinel of the finger
    links, a value outside the finger ids (-1).  TRUE and FALSE are the usual
    1 and 0. *)
Definition FINGERMAX : Z := 16.
Definition NOBODY : Z := -1.
Definition TRUE : Z := 1.
Definition FALSE : Z := 0.

Definition CTXSTATE_INIT : Z := 0.
Definition CTXSTATE_BOOTED : Z := 1.
Definition CHANNELMAX : Z := 16.
Definition POLYMAX : Z := 16.
Definition NOTEMAX : Z := 128.
Definition MIDI_ON : Z := 0x90.
Definition MIDI_BEND : Z := 0xE0.
Definition BENDCENTER : Z := 8192.

(** ** Arrays *)

Definition upd {A : Type} (a : Z -> A) (i : Z) (v : A) : Z -> A :=
  fun j => if j =? i then v else a j.

(** The array after [for(i = 0; i < n; i++) a[i] = g(a[i])]. *)
Definition fillWith {A : Type} (n : Z) (g : A -> A) (a : Z -> A) : Z -> A :=
  fun j => if (0 <=? j) && (j <? n) then g (a j) else a j.

(** The indices [0, 1, ..., n-1] of a counting loop. *)
Definition upto (n : Z) : list Z := map Z.of_nat (seq 0 (Z.to_nat n)).

(** ** Data model (Fretless.c, structs) *)

Record Fretless_fingerState : Type := mkFinger {
  isOn : Z;
  isSupressed : Z;
  samplePhase : spec_float;
  channel : Z;
  note : Z;
  bend : Z;
  velocity : Z;
  polyGroup : Z;
  nextFingerInPolyGroup : Z;
  prevFingerInPolyGroup : Z;
  nextFingerInChannel : Z;
  prevFingerInChannel : Z;
  visitingPolyGroup : Z
}.

Record Fretless_channelState : Type := mkChannel {
  lastBend : Z;
  lastAftertouch : Z;
  currentFingerInChannel : Z;
  useCount : Z
}.

(** One call of an injected callback. [Putch] carries the byte that the
    [char] argument of midiPutch holds. *)
Inductive event : Type :=
| Putch (b : Z)
| Flush
| Fail (msg : string)
| Log (msg : string)
| Passed.

Record Fretless_context : Type := mkContext {
  fingers : Z -> Fretless_fingerState;
  channels : Z -> Fretless_channelState;
  polys : Z -> Z;                          (* currentFingerInPolyGroup *)
  ctxState : Z;
  lastAllocatedChannel : Z;
  fingersDownCount : Z;
  noteChannelDownCount : Z -> Z -> Z;
  noteChannelDownRawBalance : Z -> Z -> Z;
  channelBase : Z;
  channelSpan : Z;
  channelBendSemis : Z;
  supressBends : Z;
  trace : list event
}.

(** *** Field updates *)

Definition set_isOn v (f : Fretless_fingerState) :=
  mkFinger v (isSupressed f) (samplePhase f) (channel f) (note f) (bend f) (velocity f)
    (polyGroup f) (nextFingerInPolyGroup f) (prevFingerInPolyGroup f)
    (nextFingerInChannel f) (prevFingerInChannel f) (visitingPolyGroup f).
Definition set_isSupressed v (f : Fretless_fingerState) :=
  mkFinger (isOn f) v (samplePhase f) (channel f) (note f) (bend f) (velocity f)
    (polyGroup f) (nextFingerInPolyGroup f) (prevFingerInPolyGroup f)
    (nextFingerInChannel f) (prevFingerInChannel f) (visitingPolyGroup f).
Definition set_channel v (f : Fretless_fingerState) :=
  mkFinger (isOn f) (isSupressed f) (samplePhase f) v (note f) (bend f) (velocity f)
    (polyGroup f) (nextFingerInPolyGroup f) (prevFingerInPolyGroup f)
    (nextFingerInChannel f) (prevFingerInChannel f) (visitingPolyGroup f).
Definition set_note v (f : Fretless_fingerState) :=
  mkFinger (isOn f) (isSupressed f) (samplePhase f) (channel f) v (bend f) (velocity f)
    (polyGroup f) (nextFingerInPolyGroup f) (prevFingerInPolyGroup f)
    (nextFingerInChannel f) (prevFingerInChannel f) (visitingPolyGroup f).
Definition set_bend v (f : Fretless_fingerState) :=
  mkFinger (isOn f) (isSupressed f) (samplePhase f) (channel f) (note f) v (velocity f)
    (polyGroup f) (nextFingerInPolyGroup f) (prevFingerInPolyGroup f)
    (nextFingerInChannel f) (prevFingerInChannel f) (visitingPolyGroup f).
Definition set_velocity v (f : Fretless_fingerState) :=
  mkFinger (isOn f) (isSupressed f) (samplePhase f) (channel f) (note f) (bend f) v
    (polyGroup f) (nextFingerInPolyGroup f) (prevFingerInPolyGroup f)
    (nextFingerInChannel f) (prevFingerInChannel f) (visitingPolyGroup f).
Definition set_polyGroup v (f : Fretless_fingerState) :=
  mkFinger (isOn f) (isSupressed f) (samplePhase f) (channel f) (note f) (bend f) (velocity f)
    v (nextFingerInPolyGroup f) (prevFingerInPolyGroup f)
    (nextFingerInChannel f) (prevFingerInChannel f) (visitingPolyGroup f).
Definition set_nextFingerInPolyGroup v (f : Fretless_fingerState) :=
  mkFinger (isOn f) (isSupressed f) (samplePhase f) (channel f) (note f) (bend f) (velocity f)
    (polyGroup f) v (prevFingerInPolyGroup f)
    (nextFingerInChannel f) (prevFingerInChannel f) (visitingPolyGroup f).
Definition set_prevFingerInPolyGroup v (f : Fretless_fingerState) :=
  mkFinger (isOn f) (isSupressed f) (samplePhase f) (channel f) (note f) (bend f) (velocity f)
    (polyGroup f) (nextFingerInPolyGroup f) v
    (nextFingerInChannel f) (prevFingerInChannel f) (visitingPolyGroup f).
Definition set_nextFingerInChannel v (f : Fretless_fingerState) :=
  mkFinger (isOn f) (isSupressed f) (samplePhase f) (channel f) (note f) (bend f) (velocity f)
    (polyGroup f) (nextFingerInPolyGroup f) (prevFingerInPolyGroup f)
    v (prevFingerInChannel f) (visitingPolyGroup f).
Definition set_prevFingerInChannel v (f : Fretless_fingerState) :=
  mkFinger (isOn f) (isSupressed f) (samplePhase f) (channel f) (note f) (bend f) (velocity f)
    (polyGroup f) (nextFingerInPolyGroup f) (prevFingerInPolyGroup f)
    (nextFingerInChannel f) v (visitingPolyGroup f).
Definition set_visitingPolyGroup v (f : Fretless_fingerState) :=
  mkFinger (isOn f) (isSupressed f) (samplePhase f) (channel f) (note f) (bend f) (velocity f)
    (polyGroup f) (nextFingerInPolyGroup f) (prevFingerInPolyGroup f)
    (nextFingerInChannel f) (prevFingerInChannel f) v.

Definition set_lastBend v (c : Fretless_channelState) :=
  mkChannel v (lastAftertouch c) (currentFingerInChannel c) (useCount c).
Definition set_lastAftertouch v (c : Fretless_channelState) :=
  mkChannel (lastBend c) v (currentFingerInChannel c) (useCount c).
Definition set_currentFingerInChannel v (c : Fretless_channelState) :=
  mkChannel (lastBend c) (lastAftertouch c) v (useCount c).
Definition set_useCount v (c : Fretless_channelState) :=
  mkChannel (lastBend c) (lastAftertouch c) (currentFingerInChannel c) v.

Definition set_fingers v (c : Fretless_context) :=
  mkContext v (channels c) (polys c) (ctxState c) (lastAllocatedChannel c)
    (fingersDownCount c) (noteChannelDownCount c) (noteChannelDownRawBalance c)
    (channelBase c) (channelSpan c) (channelBendSemis c) (supressBends c) (trace c).
Definition set_channels v (c : Fretless_context) :=
  mkContext (fingers c) v (polys c) (ctxState c) (lastAllocatedChannel c)
    (fingersDownCount c) (noteChannelDownCount c) (noteChannelDownRawBalance c)
    (channelBase c) (channelSpan c) (channelBendSemis c) (supressBends c) (trace c).
Definition set_polys v (c : Fretless_context) :=
  mkContext (fingers c) (channels c) v (ctxState c) (lastAllocatedChannel c)
    (fingersDownCount c) (noteChannelDownCount c) (noteChannelDownRawBalance c)
    (channelBase c) (channelSpan c) (channelBendSemis c) (supressBends c) (trace c).
Definition set_ctxState v (c : Fretless_context) :=
  mkContext (fingers c) (channels c) (polys c) v (lastAllocatedChannel c)
    (fingersDownCount c) (noteChannelDownCount c) (noteChannelDownRawBalance c)
    (channelBase c) (channelSpan c) (channelBendSemis c) (supressBends c) (trace c).
Definition set_lastAllocatedChannel v (c : Fretless_context) :=
  mkContext (fingers c) (channels c) (polys c) (ctxState c) v
    (fingersDownCount c) (noteChannelDownCount c) (noteChannelDownRawBalance c)
    (channelBase c) (channelSpan c) (channelBendSemis c) (supressBends c) (trace c).
Definition set_fingersDownCount v (c : Fretless_context) :=
  mkContext (fingers c) (channels c) (polys c) (ctxState c) (lastAllocatedChannel c)
    v (noteChannelDownCount c) (noteChannelDownRawBalance c)
    (channelBase c) (channelSpan c) (channelBendSemis c) (supressBends c) (trace c).
Definition set_noteChannelDownCount v (c : Fretless_context) :=
  mkContext (fingers c) (channels c) (polys c) (ctxState c) (lastAllocatedChannel c)
    (fingersDownCount c) v (noteChannelDownRawBalance c)
    (channelBase c) (channelSpan c) (channelBendSemis c) (supressBends c) (trace c).
Definition set_noteChannelDownRawBalance v (c : Fretless_context) :=
  mkContext (fingers c) (channels c) (polys c) (ctxState c) (lastAllocatedChannel c)
    (fingersDownCount c) (noteChannelDownCount c) v
    (channelBase c) (channelSpan c) (channelBendSemis c) (supressBends c) (trace c).
Definition set_channelBase v (c : Fretless_context) :=
  mkContext (fingers c) (channels c) (polys c) (ctxState c) (lastAllocatedChannel c)
    (fingersDownCount c) (noteChannelDownCount c) (noteChannelDownRawBalance c)
    v (channelSpan c) (channelBendSemis c) (supressBends c) (trace c).
Definition set_channelSpan v (c : Fretless_context) :=
  mkContext (fingers c) (channels c) (polys c) (ctxState c) (lastAllocatedChannel c)
    (fingersDownCount c) (noteChannelDownCount c) (noteChannelDownRawBalance c)
    (channelBase c) v (channelBendSemis c) (supressBends c) (trace c).
Definition set_channelBendSemis v (c : Fretless_context) :=
  mkContext (fingers c) (channels c) (polys c) (ctxState c) (lastAllocatedChannel c)
    (fingersDownCount c) (noteChannelDownCount c) (noteChannelDownRawBalance c)
    (channelBase c) (channelSpan c) v (supressBends c) (trace c).
Definition set_supressBends v (c : Fretless_context) :=
  mkContext (fingers c) (channels c) (polys c) (ctxState c) (lastAllocatedChannel c)
    (fingersDownCount c) (noteChannelDownCount c) (noteChannelDownRawBalance c)
    (channelBase c) (channelSpan c) (channelBendSemis c) v (trace c).
Definition set_trace v (c : Fretless_context) :=
  mkContext (fingers c) (channels c) (polys c) (ctxState c) (lastAllocatedChannel c)
    (fingersDownCount c) (noteChannelDownCount c) (noteChannelDownRawBalance c)
    (channelBase c) (channelSpan c) (channelBendSemis c) (supressBends c) v.

(** [ctxp->fingers[i].field = ...], [ctxp->channels[i].field = ...] and the
    two ledgers. *)
Definition modFinger (i : Z) (g : Fretless_fingerState -> Fretless_fingerState)
    (c : Fretless_context) : Fretless_context :=
  set_fingers (upd (fingers c) i (g (fingers c i))) c.
Definition modChannel (i : Z) (g : Fretless_channelState -> Fretless_channelState)
    (c : Fretless_context) : Fretless_context :=
  set_channels (upd (channels c) i (g (channels c i))) c.
Definition setPoly (p v : Z) (c : Fretless_context) : Fretless_context :=
  set_polys (upd (polys c) p v) c.
Definition addDownCount (n ch d : Z) (c : Fretless_context) : Fretless_context :=
  set_noteChannelDownCount
    (upd (noteChannelDownCount c) n
       (upd (noteChannelDownCount c n) ch (noteChannelDownCount c n ch + d))) c.
Definition setRawBalance (n ch v : Z) (c : Fretless_context) : Fretless_context :=
  set_noteChannelDownRawBalance
    (upd (noteChannelDownRawBalance c) n (upd (noteChannelDownRawBalance c n) ch v)) c.
Definition addRawBalance (n ch d : Z) (c : Fretless_context) : Fretless_context :=
  setRawBalance n ch (noteChannelDownRawBalance c n ch + d) c.

(** *** The injected callbacks *)

Definition emit (e : event) (c : Fretless_context) : Fretless_context :=
  set_trace (trace c ++ [e]) c.
(** [midiPutch] takes a [char]: the int argument is reduced to one byte. *)
Definition midiPutch (v : Z) : Fretless_context -> Fretless_context := emit (Putch (v mod 256)).
Definition midiFlush : Fretless_context -> Fretless_context := emit Flush.
Definition fail (msg : string) : Fretless_context -> Fretless_context := emit (Fail msg).
Definition logger (msg : string) : Fretless_context -> Fretless_context := emit (Log msg).
Definition passed : Fretless_context -> Fretless_context := emit Passed.

(** Three bytes in a row. *)
Definition midiPutch3 (a b d : Z) (c : Fretless_context) : Fretless_context :=
  midiPutch d (midiPutch b (midiPutch a c)).

(** ** Sequencing

    [do x <- e ;; b] runs [b] with [x] standing for [e]: the statements of a
    C function body, one after the other, each on the context the previous
    one left. *)
Definition bind {A B : Type} (x : A) (f : A -> B) : B := f x.

Notation "'do' x <- e ;; b" := (bind e (fun x => b))
  (at level 10, x pattern, e at level 200, b at level 200,
   format "'[v' 'do'  x  <-  e  ;; '/' b ']'").

(** ** The encoder (Fretless.c) *)

(** *** The assertion macros *)

Definition STATECHECK (c : Fretless_context) : Fretless_context :=
  if negb (ctxState c =? CTXSTATE_BOOTED) then fail "context is not booted yet" c else c.

Definition FINGERCHECK (finger : Z) (c : Fretless_context) : Fretless_context :=
  if (finger <? 0) || (finger >=? FINGERMAX) then fail "finger out of range %d" c else c.

Definition POLYCHECK (polyGroup : Z) (c : Fretless_context) : Fretless_context :=
  if (polyGroup <? 0) || (polyGroup >=? POLYMAX) then fail "poly group out of range %d" c else c.

(** [fnote < -0.5 || fnote >= 127.5], compared as doubles. *)
Definition fnoteOutOfRange (fnote : spec_float) : bool :=
  SFltb (double_of_float fnote) d_minus_half || SFleb d_127_5 (double_of_float fnote).

Definition FNOTECHECK (fnote : spec_float) (c : Fretless_context) : Fretless_context :=
  if fnoteOutOfRange fnote then fail "fnote %d" c else c.

(** *** Construction and hints *)

(** [Fretless_init] receives the block that fretlessAlloc returned, with
    whatever it holds, and sets the state flag and the four hints. No
    callback has been called on the new context. *)
Definition Fretless_init (raw : Fretless_context) : Fretless_context :=
  do c <- set_ctxState CTXSTATE_INIT raw ;;
  do c <- set_channelSpan 8 c ;;
  do c <- set_channelBase 0 c ;;
  do c <- set_channelBendSemis 2 c ;;
  do c <- set_supressBends FALSE c ;;
  set_trace [] c.

Definition Fretless_reset_FingerState (f : Fretless_fingerState) : Fretless_fingerState :=
  let f := set_isOn FALSE f in
  let f := mkFinger (isOn f) (isSupressed f) (S754_zero false) (channel f) (note f) (bend f)
             (velocity f) (polyGroup f) (nextFingerInPolyGroup f) (prevFingerInPolyGroup f)
             (nextFingerInChannel f) (prevFingerInChannel f) (visitingPolyGroup f) in
  let f := set_channel 0 f in
  let f := set_note 0 f in
  let f := set_velocity 0 f in
  let f := set_bend BENDCENTER f in
  let f := set_nextFingerInPolyGroup NOBODY f in
  let f := set_prevFingerInPolyGroup NOBODY f in
  let f := set_nextFingerInChannel NOBODY f in
  let f := set_prevFingerInChannel NOBODY f in
  let f := set_isSupressed FALSE f in
  let f := set_visitingPolyGroup NOBODY f in
  set_polyGroup NOBODY f.

Definition Fretless_setMidiHintSupressBends (c : Fretless_context) (supress : Z) : Fretless_context :=
  set_supressBends supress c.

Definition Fretless_setMidiHintChannelBase (c : Fretless_context) (base : Z) : Fretless_context :=
  do c <- if (base <? 0) || (base >=? CHANNELMAX)
           then fail "%d: base > 0 || base >= CHANNELMAX" c else c ;;
  do c <- set_channelBase base c ;;
  if channelBase c + channelSpan c >? FINGERMAX
  then set_channelSpan (FINGERMAX - channelBase c) c
  else c.

Definition Fretless_getMidiHintChannelBase (c : Fretless_context) : Z := channelBase c.

Definition Fretless_setMidiHintChannelSpan (c : Fretless_context) (span : Z) : Fretless_context :=
  do c <- if (span <? 1) || (span >? CHANNELMAX)
           then fail "%d: span < 0 || span > CHANNELMAX" c else c ;;
  do c <- set_channelSpan span c ;;
  if channelBase c + channelSpan c >? FINGERMAX
  then set_channelSpan (FINGERMAX - channelBase c) c
  else c.

Definition Fretless_getMidiHintChannelSpan (c : Fretless_context) : Z := channelSpan c.

(** The body of the loop of [Fretless_setMidiHintChannelBendSemis]: the
    pitch-bend-range RPN on channel [channelBase + k]. *)
Definition bendRangeRPN (semitones : Z) (c : Fretless_context) (k : Z) : Fretless_context :=
  do ch <- channelBase c + k ;;
  do c <- midiPutch3 (0xB0 + ch) 101 0 c ;;
  do c <- midiPutch3 (0xB0 + ch) 100 0 c ;;
  do c <- midiPutch3 (0xB0 + ch) 6 semitones c ;;
  do c <- midiPutch3 (0xB0 + ch) 38 0 c ;;
  do c <- midiPutch3 (0xB0 + ch) 101 127 c ;;
  midiPutch3 (0xB0 + ch) 100 127 c.

Definition Fretless_setMidiHintChannelBendSemis (c : Fretless_context) (semitones : Z)
    : Fretless_context :=
  do c <- if (semitones <? 1) || (semitones >? 24)
           then fail "%d: semitones < 1 || semitones > 24 -- MIDI spec limits to 24" c else c ;;
  do c <- set_channelBendSemis semitones c ;;
  if ctxState c =? CTXSTATE_BOOTED
  then fold_left (bendRangeRPN semitones) (upto (channelSpan c)) c
  else c.

Definition Fretless_getMidiHintChannelBendSemis (c : Fretless_context) : Z := channelBendSemis c.

(** *** Boot *)

Definition bootChannel (cs : Fretless_channelState) : Fretless_channelState :=
  let cs := set_lastBend BENDCENTER cs in
  let cs := set_useCount 0 cs in
  let cs := set_currentFingerInChannel NOBODY cs in
  set_lastAftertouch 0 cs.

(** The ledger after the double loop that clears the cells [n][c],
    [c < CHANNELMAX], [n < NOTEMAX]. *)
Definition clearLedger (t : Z -> Z -> Z) : Z -> Z -> Z :=
  fillWith NOTEMAX (fillWith CHANNELMAX (fun _ => 0)) t.

Definition Fretless_boot (c : Fretless_context) : Fretless_context :=
  do c <- set_channels (fillWith CHANNELMAX bootChannel (channels c)) c ;;
  do c <- set_noteChannelDownCount (clearLedger (noteChannelDownCount c)) c ;;
  do c <- set_noteChannelDownRawBalance (clearLedger (noteChannelDownRawBalance c)) c ;;
  do c <- set_fingers (fillWith FINGERMAX Fretless_reset_FingerState (fingers c)) c ;;
  do c <- set_polys (fillWith POLYMAX (fun _ => NOBODY) (polys c)) c ;;
  do c <- set_fingersDownCount 0 c ;;
  do c <- set_lastAllocatedChannel 0 c ;;
  do c <- if channelSpan c =? 0 then fail "Fretless_state.channelSpan == 0" c else c ;;
  do c <- if channelBase c <? 0 then fail "%d: Fretless_state.channelBase < 0" c else c ;;
  do c <- if channelBase c >=? CHANNELMAX
           then fail "Fretless_state.channelBase >= CHANNELMAX" c else c ;;
  do c <- if channelSpan c + channelBase c >=? CHANNELMAX
           then fail "Fretless_state.channelSpan:%d + Fretless_state.channelBase:%d >= CHANNELMAX" c
           else c ;;
  do c <- set_ctxState CTXSTATE_BOOTED c ;;
  Fretless_setMidiHintChannelBendSemis c (channelBendSemis c).

(** *** Pitch to (note, bend) *)

Definition Fretless_limitVal (low val high : Z) : Z :=
  if val <? low then low else if val >? high then high else val.

(** [BENDCENTER + floatBend*BENDCENTER/channelBendSemis] with
    [floatBend = fnote - note], all in float, stored into an int. *)
Definition bendFrom (c : Fretless_context) (fnote : spec_float) (n : Z) : Z :=
  let floatBend := fsub fnote (float_of_int n) in
  int_of_fp
    (fadd (float_of_int BENDCENTER)
          (fdiv (fmul floatBend (float_of_int BENDCENTER))
                (float_of_int (channelBendSemis c)))).

(** [(int)(fnote + 0.5)], the sum taken in double. *)
Definition nearestNote (fnote : spec_float) : Z :=
  int_of_fp (dadd (double_of_float fnote) d_half).

Definition Fretless_fnoteToNoteBendPair (c : Fretless_context) (fnote : spec_float) : Z * Z :=
  let n := nearestNote fnote in
  (n, bendFrom c fnote n).

Definition Fretless_fnoteBendFromExisting (c : Fretless_context) (fnote : spec_float)
    (fs : Fretless_fingerState) : Z * Z :=
  let n := note fs in
  let b := bendFrom c fnote n in
  if (b <? 0) || (b >=? 2 * BENDCENTER)
  then Fretless_fnoteToNoteBendPair c fnote
  else (n, b).

(** [(lo, hi)] of [Fretless_numTo7BitNums]. *)
Definition Fretless_numTo7BitNums (n : Z) : Z * Z :=
  (Z.land n 0x7f, Z.land (Z.shiftr n 7) 0x7f).



(** *** Channel allocation *)

(** The channel looked at in step [s] of the inner loop. [%] is the C
    remainder, which takes the sign of the dividend. *)
Definition allocCandidate (c : Fretless_context) (s : Z) : Z :=
  let span := channelSpan c in
  let base := channelBase c in
  let last := lastAllocatedChannel c in
  let candidate := last + 1 + s in
  Z.rem (candidate - base) span + base.

(** What the body of the inner loop does on a hit. *)
Definition allocTake (c : Fretless_context) (finger ch : Z) : Fretless_context :=
  do c <- modChannel ch (fun cs => set_useCount (useCount cs + 1) cs) c ;;
  do cur <- currentFingerInChannel (channels c ch) ;;
  do c <-
    if negb (cur =? NOBODY) then
      do c <- if negb (nextFingerInChannel (fingers c cur) =? NOBODY)
               then fail "ctxp->fingers[currentFingerInChannel].nextFingerInChannel != NOBODY when allocating" c
               else c ;;
      do c <- modFinger cur (set_nextFingerInChannel finger) c ;;
      modFinger finger (set_prevFingerInChannel cur) c
    else c ;;
  do c <- modChannel ch (set_currentFingerInChannel finger) c ;;
  set_lastAllocatedChannel ch c.

(** One run of the inner loop over the remaining steps [ss]: [Some] when
    the body returned from the function, [None] when the loop ran out. *)
Fixpoint allocScan (c : Fretless_context) (finger lowUsedCount : Z) (ss : list Z)
    : option (Z * Fretless_context) :=
  match ss with
  | [] => None
  | s :: ss' =>
      do ch <- allocCandidate c s ;;
      if useCount (channels c ch) <? 0
      then Some (0, fail "Fretless_state.channels[channel].useCount < 0 on alloc" c)
      else if useCount (channels c ch) =? lowUsedCount
      then Some (ch, allocTake c finger ch)
      else allocScan c finger lowUsedCount ss'
  end.

(** The outer loop [for(lowUsedCount = 0; TRUE; lowUsedCount++)]. *)
Fixpoint allocLoop (fuel : nat) (c : Fretless_context) (finger lowUsedCount : Z)
    : option (Z * Fretless_context) :=
  match fuel with
  | O => None
  | S fuel' =>
      match allocScan c finger lowUsedCount (upto (channelSpan c)) with
      | Some r => Some r
      | None => allocLoop fuel' c finger (lowUsedCount + 1)
      end
  end.

(** [None] stands for the loop that never ends: with [channelSpan <= 0] the
    inner loop has no step and the outer one counts forever.  Otherwise the
    channel of step 0 stops the search at the latest when [lowUsedCount]
    reaches its use count, which bounds the number of rounds. *)
Definition Fretless_allocChannel (c : Fretless_context) (finger : Z)
    : option (Z * Fretless_context) :=
  if channelSpan c <=? 0 then None
  else allocLoop (S (Z.to_nat (useCount (channels c (allocCandidate c 0))))) c finger 0.

Definition Fretless_freeChannel (c : Fretless_context) (finger : Z) : Fretless_context :=
  do ch <- channel (fingers c finger) ;;
  do c <- modChannel ch (fun cs => set_useCount (useCount cs - 1) cs) c ;;
  do c <- if useCount (channels c ch) <? 0
           then fail "Fretless_state.channels[%d].useCount < 0 on free" c else c ;;
  do prevFinger <- prevFingerInChannel (fingers c finger) ;;
  do nextFinger <- nextFingerInChannel (fingers c finger) ;;
  do currentFinger <- currentFingerInChannel (channels c ch) ;;
  do c <- if negb (prevFinger =? NOBODY)
           then modFinger prevFinger (set_nextFingerInChannel nextFinger) c else c ;;
  do c <- if negb (nextFinger =? NOBODY)
           then modFinger nextFinger (set_prevFingerInChannel prevFinger) c else c ;;
  do c <- modFinger finger (set_prevFingerInChannel NOBODY) c ;;
  do c <- modFinger finger (set_nextFingerInChannel NOBODY) c ;;
  if currentFinger =? finger
  then modChannel ch (set_currentFingerInChannel prevFinger) c
  else c.

(** *** Emission helpers *)

(** [Fretless_noteTie], on the channel and note of a finger slot. *)
Definition Fretless_noteTie (c : Fretless_context) (fs : Fretless_fingerState) : Fretless_context :=
  do (lsb, msb) <- Fretless_numTo7BitNums 1223 ;;
  do ch <- channel fs ;;
  do n <- note fs ;;
  do c <- midiPutch3 (0xB0 + ch) 0x63 msb c ;;
  do c <- midiPutch3 (0xB0 + ch) 0x62 lsb c ;;
  midiPutch3 (0xB0 + ch) 0x06 n c.

Definition Fretless_setCurrentBend (c : Fretless_context) (finger : Z) : Fretless_context :=
  do fs <- fingers c finger ;;
  if negb (lastBend (channels c (channel fs)) =? bend fs)
     && (currentFingerInChannel (channels c (channel fs)) =? finger)
     && negb (isOn fs =? 0)
     && (supressBends c =? FALSE)
  then
    do c <- modChannel (channel fs) (set_lastBend (bend fs)) c ;;
    do c <- midiPutch (MIDI_BEND + channel fs) c ;;
    do (lo, hi) <- Fretless_numTo7BitNums (bend fs) ;;
    do c <- midiPutch lo c ;;
    midiPutch hi c
  else c.

(** [Fretless_limitVal(1, velocity*127.0, 127)]: the product is a double. *)
Definition aftertouchVelocity (v : spec_float) : Z :=
  Fretless_limitVal 1 (int_of_fp (dmul (double_of_float v) (double_of_int 127))) 127.

Definition Fretless_setCurrentAftertouch (c : Fretless_context) (finger : Z) (v : spec_float)
    : Fretless_context :=
  do c <- modFinger finger (set_velocity (aftertouchVelocity v)) c ;;
  do fs <- fingers c finger ;;
  if negb (lastAftertouch (channels c (channel fs)) =? velocity fs)
     && (currentFingerInChannel (channels c (channel fs)) =? finger)
     && negb (isOn fs =? 0)
     && (supressBends c =? FALSE)
  then
    do c <- modChannel (channel fs) (set_lastAftertouch (velocity fs)) c ;;
    do c <- midiPutch (0xD0 + channel fs) c ;;
    midiPutch (velocity fs) c
  else c.

(** *** Polyphony groups *)

Definition Fretless_link (c : Fretless_context) (finger : Z) : Z * Fretless_context :=
  do pg <- polyGroup (fingers c finger) ;;
  do fingerToTurnOff <- polys c pg ;;
  do c <-
    if negb (fingerToTurnOff =? NOBODY) then
      do c <- modFinger fingerToTurnOff (set_isSupressed TRUE) c ;;
      do c <- modFinger fingerToTurnOff (set_nextFingerInPolyGroup finger) c ;;
      modFinger finger (set_prevFingerInPolyGroup fingerToTurnOff) c
    else c ;;
  do c <- modFinger finger (set_polyGroup pg) c ;;
  do c <- setPoly pg finger c ;;
  (fingerToTurnOff, c).

Definition Fretless_unlink (c : Fretless_context) (finger : Z) : Z * Fretless_context :=
  do pg <- polyGroup (fingers c finger) ;;
  do currentFinger <- polys c pg ;;
  do prevFinger <- prevFingerInPolyGroup (fingers c finger) ;;
  do nextFinger <- nextFingerInPolyGroup (fingers c finger) ;;
  do c <- if negb (prevFinger =? NOBODY)
           then modFinger prevFinger (set_nextFingerInPolyGroup nextFinger) c else c ;;
  do c <- if negb (nextFinger =? NOBODY)
           then modFinger nextFinger (set_prevFingerInPolyGroup prevFinger) c else c ;;
  do (fingerToTurnOn, c) <-
    if finger =? currentFinger then
      do c <- setPoly pg prevFinger c ;;
      (prevFinger,
       if negb (prevFinger =? NOBODY)
       then modFinger prevFinger (set_isSupressed FALSE) c else c)
    else (NOBODY, c) ;;
  do c <- modFinger finger (set_prevFingerInPolyGroup NOBODY) c ;;
  do c <- modFinger finger (set_nextFingerInPolyGroup NOBODY) c ;;
  do c <- modFinger finger (set_polyGroup NOBODY) c ;;
  (fingerToTurnOn, c).

(** *** Self test *)

(** The state of [Fretless_selfTest]: the context and the local [passed]. *)
Definition testState : Type := (Fretless_context * bool)%type.

Definition failTest (msg : string) (st : testState) : testState :=
  (fail msg (fst st), false).

Definition selfTestNote (ch : Z) (st : testState) (n : Z) : testState :=
  do st <- if negb (noteChannelDownCount (fst st) n ch =? 0)
            then failTest "Fretless_state.noteChannelDownCount[0x%d][0x%d] == %d" st else st ;;
  if negb (noteChannelDownRawBalance (fst st) n ch =? 0) then
    if noteChannelDownRawBalance (fst st) n ch <? 0 then
      do c <- setRawBalance n ch 0 (fst st) ;;
      (logger "ctxp->noteChannelDownRawBalance[%2x][%2x] == %d" c, snd st)
    else failTest "Fretless_state.noteChannelDownRawBalance[0x%2x][0x%2x] == %d" st
  else st.

Definition selfTestChannel (st : testState) (ch : Z) : testState :=
  do st <- if negb (useCount (channels (fst st) ch) =? 0)
            then failTest "%d: Fretless_selfTest() Fretless_state.fingersDownCount==0 && useCount != 0" st
            else st ;;
  do st <- fold_left (selfTestNote ch) (upto NOTEMAX) st ;;
  if negb (currentFingerInChannel (channels (fst st) ch) =? NOBODY)
  then failTest "ctxp->channels[0x%2x].currentFingerInChannel != NOBODY" st
  else st.

Definition selfTestPoly (st : testState) (p : Z) : testState :=
  if negb (polys (fst st) p =? NOBODY)
  then failTest "poly group useCount is wrong" st else st.

Definition selfTestFinger (st : testState) (f : Z) : testState :=
  do st <- if negb (isOn (fingers (fst st) f) =? 0)
            then failTest "Fretless_selfTest() Fretless_state.fingers[%d].isOn" st else st ;;
  do st <- if negb (nextFingerInChannel (fingers (fst st) f) =? NOBODY)
            then failTest "ctxp->fingers[%d].nextFingerInChannel != NOBODY" st else st ;;
  if negb (prevFingerInChannel (fingers (fst st) f) =? NOBODY)
  then failTest "ctxp->fingers[%d].prevFingerInChannel != NOBODY" st else st.

Definition Fretless_flush (c : Fretless_context) : Fretless_context := midiFlush c.

(** The brute-force silence of the recovery path: every channel of note [n]
    is turned off, then a flush. *)
Definition silenceNote (c : Fretless_context) (n : Z) : Fretless_context :=
  Fretless_flush
    (fold_left (fun c ch => midiPutch3 (MIDI_ON + ch) n 0 c) (upto CHANNELMAX) c).

Definition Fretless_selfTest (c : Fretless_context) : Fretless_context :=
  do st <- ((c, true) : testState) ;;
  do st <-
    if fingersDownCount (fst st) =? 0 then
      do st <- fold_left selfTestChannel (upto CHANNELMAX) st ;;
      do st <- fold_left selfTestPoly (upto POLYMAX) st ;;
      fold_left selfTestFinger (upto FINGERMAX) st
    else st ;;
  do st <- if fingersDownCount (fst st) <? 0
            then failTest "less than zero fingers count!" st else st ;;
  if snd st then passed (fst st)
  else Fretless_boot (fold_left silenceNote (upto NOTEMAX) (fst st)).

(** *** The public gesture operations *)

(** [None]: the call does not return (see [Fretless_allocChannel]). *)
Definition Fretless_beginDown (c : Fretless_context) (finger : Z) : option Fretless_context :=
  do c <- STATECHECK c ;;
  do c <- FINGERCHECK finger c ;;
  do c <- if isOn (fingers c finger) =? TRUE
           then fail "finger %d: Fretless_down && fsPtr->isOn == TRUE" c else c ;;
  do c <- modFinger finger (set_isOn TRUE) c ;;
  match Fretless_allocChannel c finger with
  | Some (ch, c) => Some (modFinger finger (set_channel ch) c)
  | None => None
  end.

(** [Fretless_limitVal(1, velocity*127, 127)]: the product is a float. *)
Definition downVelocity (v : spec_float) : Z :=
  Fretless_limitVal 1 (int_of_fp (fmul v (float_of_int 127))) 127.

Definition Fretless_endDown (c : Fretless_context) (finger : Z) (fnote : spec_float)
    (pg : Z) (v : spec_float) (legato : Z) : Fretless_context :=
  do c <- STATECHECK c ;;
  do c <- FINGERCHECK finger c ;;
  do c <- POLYCHECK pg c ;;
  do c <- FNOTECHECK fnote c ;;
  do c <- if isOn (fingers c finger) =? FALSE
           then fail "finger %d: Fretless_down && fsPtr->isOn == FALSE" c else c ;;
  do c <- modFinger finger (set_velocity (downVelocity v)) c ;;
  do c <- modFinger finger (set_polyGroup pg) c ;;
  do (n, b) <- Fretless_fnoteToNoteBendPair c fnote ;;
  do c <- modFinger finger (set_note n) c ;;
  do c <- modFinger finger (set_bend b) c ;;
  do c <- set_fingersDownCount (fingersDownCount c + 1) c ;;
  do c <- addDownCount (note (fingers c finger)) (channel (fingers c finger)) 1 c ;;
  do c <-
    if isSupressed (fingers c finger) =? FALSE then
      if noteChannelDownCount c (note (fingers c finger)) (channel (fingers c finger)) >? 1 then
        do c <- midiPutch3 (MIDI_ON + channel (fingers c finger)) (note (fingers c finger)) 0 c ;;
        addRawBalance (note (fingers c finger)) (channel (fingers c finger)) (-1) c
      else c
    else c ;;
  do (fingerTurningOff, c) <- Fretless_link c finger ;;
  do c <- Fretless_setCurrentBend c finger ;;
  do c <- if negb (finger =? currentFingerInChannel (channels c (channel (fingers c finger))))
           then fail "finger %d should be current in channel because it's note down" c else c ;;
  do c <-
    if negb (fingerTurningOff =? NOBODY) then
      do c <- if isOn (fingers c fingerTurningOff) =? FALSE
               then fail "turningOffPtr->isOn should be on" c else c ;;
      do c <- if isSupressed (fingers c fingerTurningOff) =? FALSE
               then fail "turningOffPtr->isSupressed should be supressed" c else c ;;
      do c <- if legato =? 2 then Fretless_noteTie c (fingers c fingerTurningOff) else c ;;
      do c <- midiPutch3 (MIDI_ON + channel (fingers c fingerTurningOff))
                 (note (fingers c fingerTurningOff)) 0 c ;;
      addRawBalance (note (fingers c fingerTurningOff)) (channel (fingers c fingerTurningOff)) (-1) c
    else c ;;
  do c <- midiPutch3 (MIDI_ON + channel (fingers c finger)) (note (fingers c finger))
             (velocity (fingers c finger)) c ;;
  do c <- addRawBalance (note (fingers c finger)) (channel (fingers c finger)) 1 c ;;
  if noteChannelDownRawBalance c (note (fingers c finger)) (channel (fingers c finger)) >? 1
  then logger "we sent out a doubled note on down ch%d n%d" c
  else c.

Definition Fretless_up (c : Fretless_context) (finger : Z) (legato : Z) : Fretless_context :=
  do c <- FINGERCHECK finger c ;;
  do c <- if isOn (fingers c finger) =? FALSE
           then fail "finger %d: Fretless_up && fsPtr->isOn == FALSE" c else c ;;
  do oldVelocity <- velocity (fingers c finger) ;;
  do fingerWasSupressed <- isSupressed (fingers c finger) ;;
  do (fingerToTurnOn, c) <- Fretless_unlink c finger ;;
  do c <- addDownCount (note (fingers c finger)) (channel (fingers c finger)) (-1) c ;;
  do c <-
    if fingerWasSupressed =? FALSE then
      if noteChannelDownCount c (note (fingers c finger)) (channel (fingers c finger)) =? 0 then
        do c <- if negb (fingerToTurnOn =? NOBODY)
                 then if legato >? 0 then Fretless_noteTie c (fingers c finger) else c
                 else c ;;
        do c <- midiPutch3 (MIDI_ON + channel (fingers c finger)) (note (fingers c finger)) 0 c ;;
        addRawBalance (note (fingers c finger)) (channel (fingers c finger)) (-1) c
      else c
    else c ;;
  do c <-
    if negb (fingerToTurnOn =? NOBODY) then
      do c <- if isOn (fingers c fingerToTurnOn) =? FALSE
               then fail "turningOnPtr->isOn should be on" c else c ;;
      do c <- if isSupressed (fingers c fingerToTurnOn) =? TRUE
               then fail "turningOffPtr->isSupressed should not be supressed" c else c ;;
      do c <- modChannel (channel (fingers c fingerToTurnOn)) (set_lastBend (-1)) c ;;
      do c <- Fretless_setCurrentBend c fingerToTurnOn ;;
      do c <- modFinger fingerToTurnOn (set_velocity oldVelocity) c ;;
      do c <- midiPutch3 (MIDI_ON + channel (fingers c fingerToTurnOn))
                 (note (fingers c fingerToTurnOn)) (velocity (fingers c fingerToTurnOn)) c ;;
      do c <- addRawBalance (note (fingers c fingerToTurnOn))
                 (channel (fingers c fingerToTurnOn)) 1 c ;;
      if noteChannelDownRawBalance c (note (fingers c finger)) (channel (fingers c finger)) >? 1
      then logger "we sent out a doubled note on up ch%d n%d" c
      else c
    else c ;;
  do c <- if noteChannelDownCount c (note (fingers c finger)) (channel (fingers c finger)) <? 0
           then fail "Fretless_state.noteChannelDownCount[%d][%d]== %d" c else c ;;
  do c <- set_fingersDownCount (fingersDownCount c - 1) c ;;
  do c <- if fingersDownCount c <? 0
           then fail "Fretless_state.fingersDownCount == %d" c else c ;;
  do c <- modFinger finger (set_isOn FALSE) c ;;
  do c <- Fretless_freeChannel c finger ;;
  do c <- modFinger finger Fretless_reset_FingerState c ;;
  if fingersDownCount c <=? 0 then Fretless_selfTest c else c.

(** [key % 127] and [((int)(val*127)) % 127] are C remainders. *)
Definition Fretless_express (c : Fretless_context) (finger key : Z) (val : spec_float)
    : Fretless_context :=
  do c <- FINGERCHECK finger c ;;
  do c <- if isOn (fingers c finger) =? FALSE
           then fail "finger %d: Fretless_express && fsPtr->isOn == FALSE" c else c ;;
  midiPutch3 (0xB0 + channel (fingers c finger))
    (Z.rem key 127)
    (Z.rem (int_of_fp (fmul val (float_of_int 127))) 127) c.

(** The result is the returned float together with the context; [None]
    when the re-voicing [Fretless_beginDown] does not return. *)
Definition Fretless_move (c : Fretless_context) (finger : Z) (fnote v : spec_float) (pg : Z)
    : option (spec_float * Fretless_context) :=
  do c <- FINGERCHECK finger c ;;
  do c <- FNOTECHECK fnote c ;;
  do c <- if isOn (fingers c finger) =? FALSE
           then fail "finger %d: Fretless_move && fsPtr->isOn == FALSE" c else c ;;
  do (newNote, newBend) <- Fretless_fnoteBendFromExisting c fnote (fingers c finger) ;;
  do existingPolyGroup <- polyGroup (fingers c finger) ;;
  do c <- if (0 <=? pg) && (pg <? FINGERMAX)
           then modFinger finger (set_visitingPolyGroup pg) c else c ;;
  if newNote =? note (fingers c finger) then
    do c <- modFinger finger (set_bend newBend) c ;;
    do c <- Fretless_setCurrentAftertouch c finger v ;;
    do c <- Fretless_setCurrentBend c finger ;;
    Some (fnote, c)
  else
    do c <- Fretless_noteTie c (fingers c finger) ;;
    do c <- Fretless_up c finger TRUE ;;
    match Fretless_beginDown c finger with
    | Some c => Some (fnote, Fretless_endDown c finger fnote existingPolyGroup v TRUE)
    | None => None
    end.

(** ** The inbound decoder (DeMIDI.c) *)

Module DeMIDI.

(** One call of the engine callback [rawEngine]. *)
Record engineCall : Type := mkCall {
  callChannel : Z;
  callNoteAttack : Z;
  callPitch : spec_float;
  callVol : spec_float;
  callExprParm : Z;
  callExpr : Z
}.

(** The file-scope variables of DeMIDI.c, with the calls of [rawEngine]
    and the lines given to printf, in order. *)
Record state : Type := mkState {
  expectState : Z;
  midiStatus : Z;
  midiChannel : Z;
  expectDataBytes : Z;
  midiNote : Z -> Z;
  midiVol : Z -> Z;
  doNoteAttack : Z;
  midiExprParm : Z;
  midiExpr : Z;
  midiPitchBendSemis : Z;
  midiBend : Z -> Z;
  nrpnKeyLo : Z;
  nrpnKeyHi : Z;
  rpnKeyLo : Z;
  rpnKeyHi : Z;
  rpnVal : Z;
  expectNoteTie : Z;
  isRegistered : Z;
  engineCalls : list engineCall;
  printed : list string
}.

Definition set_expectState (v : Z) (s : state) : state :=
  mkState v (midiStatus s) (midiChannel s) (expectDataBytes s) (midiNote s) (midiVol s)
    (doNoteAttack s) (midiExprParm s) (midiExpr s) (midiPitchBendSemis s) (midiBend s)
    (nrpnKeyLo s) (nrpnKeyHi s) (rpnKeyLo s) (rpnKeyHi s) (rpnVal s) (expectNoteTie s)
    (isRegistered s) (engineCalls s) (printed s).
Definition set_midiStatus (v : Z) (s : state) : state :=
  mkState (expectState s) v (midiChannel s) (expectDataBytes s) (midiNote s) (midiVol s)
    (doNoteAttack s) (midiExprParm s) (midiExpr s) (midiPitchBendSemis s) (midiBend s)
    (nrpnKeyLo s) (nrpnKeyHi s) (rpnKeyLo s) (rpnKeyHi s) (rpnVal s) (expectNoteTie s)
    (isRegistered s) (engineCalls s) (printed s).
Definition set_midiChannel (v : Z) (s : state) : state :=
  mkState (expectState s) (midiStatus s) v (expectDataBytes s) (midiNote s) (midiVol s)
    (doNoteAttack s) (midiExprParm s) (midiExpr s) (midiPitchBendSemis s) (midiBend s)
    (nrpnKeyLo s) (nrpnKeyHi s) (rpnKeyLo s) (rpnKeyHi s) (rpnVal s) (expectNoteTie s)
    (isRegistered s) (engineCalls s) (printed s).
Definition set_midiNote (v : Z -> Z) (s : state) : state :=
  mkState (expectState s) (midiStatus s) (midiChannel s) (expectDataBytes s) v (midiVol s)
    (doNoteAttack s) (midiExprParm s) (midiExpr s) (midiPitchBendSemis s) (midiBend s)
    (nrpnKeyLo s) (nrpnKeyHi s) (rpnKeyLo s) (rpnKeyHi s) (rpnVal s) (expectNoteTie s)
    (isRegistered s) (engineCalls s) (printed s).
Definition set_midiVol (v : Z -> Z) (s : state) : state :=
  mkState (expectState s) (midiStatus s) (midiChannel s) (expectDataBytes s) (midiNote s) v
    (doNoteAttack s) (midiExprParm s) (midiExpr s) (midiPitchBendSemis s) (midiBend s)
    (nrpnKeyLo s) (nrpnKeyHi s) (rpnKeyLo s) (rpnKeyHi s) (rpnVal s) (expectNoteTie s)
    (isRegistered s) (engineCalls s) (printed s).
Definition set_midiExprParm (v : Z) (s : state) : state :=
  mkState (expectState s) (midiStatus s) (midiChannel s) (expectDataBytes s) (midiNote s)
    (midiVol s) (doNoteAttack s) v (midiExpr s) (midiPitchBendSemis s) (midiBend s) (nrpnKeyLo
    s) (nrpnKeyHi s) (rpnKeyLo s) (rpnKeyHi s) (rpnVal s) (expectNoteTie s) (isRegistered s)
    (engineCalls s) (printed s).
Definition set_midiExpr (v : Z) (s : state) : state :=
  mkState (expectState s) (midiStatus s) (midiChannel s) (expectDataBytes s) (midiNote s)
    (midiVol s) (doNoteAttack s) (midiExprParm s) v (midiPitchBendSemis s) (midiBend s)
    (nrpnKeyLo s) (nrpnKeyHi s) (rpnKeyLo s) (rpnKeyHi s) (rpnVal s) (expectNoteTie s)
    (isRegistered s) (engineCalls s) (printed s).
Definition set_midiPitchBendSemis (v : Z) (s : state) : state :=
  mkState (expectState s) (midiStatus s) (midiChannel s) (expectDataBytes s) (midiNote s)
    (midiVol s) (doNoteAttack s) (midiExprParm s) (midiExpr s) v (midiBend s) (nrpnKeyLo s)
    (nrpnKeyHi s) (rpnKeyLo s) (rpnKeyHi s) (rpnVal s) (expectNoteTie s) (isRegistered s)
    (engineCalls s) (printed s).
Definition set_midiBend (v : Z -> Z) (s : state) : state :=
  mkState (expectState s) (midiStatus s) (midiChannel s) (expectDataBytes s) (midiNote s)
    (midiVol s) (doNoteAttack s) (midiExprParm s) (midiExpr s) (midiPitchBendSemis s) v
    (nrpnKeyLo s) (nrpnKeyHi s) (rpnKeyLo s) (rpnKeyHi s) (rpnVal s) (expectNoteTie s)
    (isRegistered s) (engineCalls s) (printed s).
Definition set_nrpnKeyLo (v : Z) (s : state) : state :=
  mkState (expectState s) (midiStatus s) (midiChannel s) (expectDataBytes s) (midiNote s)
    (midiVol s) (doNoteAttack s) (midiExprParm s) (midiExpr s) (midiPitchBendSemis s) (midiBend
    s) v (nrpnKeyHi s) (rpnKeyLo s) (rpnKeyHi s) (rpnVal s) (expectNoteTie s) (isRegistered s)
    (engineCalls s) (printed s).
Definition set_nrpnKeyHi (v : Z) (s : state) : state :=
  mkState (expectState s) (midiStatus s) (midiChannel s) (expectDataBytes s) (midiNote s)
    (midiVol s) (doNoteAttack s) (midiExprParm s) (midiExpr s) (midiPitchBendSemis s) (midiBend
    s) (nrpnKeyLo s) v (rpnKeyLo s) (rpnKeyHi s) (rpnVal s) (expectNoteTie s) (isRegistered s)
    (engineCalls s) (printed s).
Definition set_rpnKeyLo (v : Z) (s : state) : state :=
  mkState (expectState s) (midiStatus s) (midiChannel s) (expectDataBytes s) (midiNote s)
    (midiVol s) (doNoteAttack s) (midiExprParm s) (midiExpr s) (midiPitchBendSemis s) (midiBend
    s) (nrpnKeyLo s) (nrpnKeyHi s) v (rpnKeyHi s) (rpnVal s) (expectNoteTie s) (isRegistered s)
    (engineCalls s) (printed s).
Definition set_rpnKeyHi (v : Z) (s : state) : state :=
  mkState (expectState s) (midiStatus s) (midiChannel s) (expectDataBytes s) (midiNote s)
    (midiVol s) (doNoteAttack s) (midiExprParm s) (midiExpr s) (midiPitchBendSemis s) (midiBend
    s) (nrpnKeyLo s) (nrpnKeyHi s) (rpnKeyLo s) v (rpnVal s) (expectNoteTie s) (isRegistered s)
    (engineCalls s) (printed s).
Definition set_rpnVal (v : Z) (s : state) : state :=
  mkState (expectState s) (midiStatus s) (midiChannel s) (expectDataBytes s) (midiNote s)
    (midiVol s) (doNoteAttack s) (midiExprParm s) (midiExpr s) (midiPitchBendSemis s) (midiBend
    s) (nrpnKeyLo s) (nrpnKeyHi s) (rpnKeyLo s) (rpnKeyHi s) v (expectNoteTie s) (isRegistered
    s) (engineCalls s) (printed s).
Definition set_isRegistered (v : Z) (s : state) : state :=
  mkState (expectState s) (midiStatus s) (midiChannel s) (expectDataBytes s) (midiNote s)
    (midiVol s) (doNoteAttack s) (midiExprParm s) (midiExpr s) (midiPitchBendSemis s) (midiBend
    s) (nrpnKeyLo s) (nrpnKeyHi s) (rpnKeyLo s) (rpnKeyHi s) (rpnVal s) (expectNoteTie s) v
    (engineCalls s) (printed s).
Definition set_engineCalls (v : list engineCall) (s : state) : state :=
  mkState (expectState s) (midiStatus s) (midiChannel s) (expectDataBytes s) (midiNote s)
    (midiVol s) (doNoteAttack s) (midiExprParm s) (midiExpr s) (midiPitchBendSemis s) (midiBend
    s) (nrpnKeyLo s) (nrpnKeyHi s) (rpnKeyLo s) (rpnKeyHi s) (rpnVal s) (expectNoteTie s)
    (isRegistered s) v (printed s).
Definition set_printed (v : list string) (s : state) : state :=
  mkState (expectState s) (midiStatus s) (midiChannel s) (expectDataBytes s) (midiNote s)
    (midiVol s) (doNoteAttack s) (midiExprParm s) (midiExpr s) (midiPitchBendSemis s) (midiBend
    s) (nrpnKeyLo s) (nrpnKeyHi s) (rpnKeyLo s) (rpnKeyHi s) (rpnVal s) (expectNoteTie s)
    (isRegistered s) (engineCalls s) v.


Definition S_EXPECT_STATUS : Z := 0.
Definition S_ON_BYTE_NOTE : Z := 1.
Definition S_ON_BYTE_VOL : Z := 2.
Definition S_OFF_BYTE_NOTE : Z := 3.
Definition S_OFF_BYTE_VOL : Z := 4.
Definition S_BEND_LO : Z := 5.
Definition S_BEND_HI : Z := 6.
Definition S_RPN_LO : Z := 7.
Definition S_RPN_HI : Z := 8.
Definition S_NRPN_LO_KEY : Z := 9.
Definition S_NRPN_HI_KEY : Z := 10.
Definition S_RPN_VAL : Z := 11.
Definition S_RPN_LO_KEY : Z := 12.
Definition S_RPN_HI_KEY : Z := 13.
Definition S_CH_PRESS : Z := 14.
Definition S_RPN_11 : Z := 15.

(** The variables as the program starts: statics are zero, but for the
    initialisers [expectState = S_EXPECT_STATUS] and
    [midiPitchBendSemis = 2]. *)
Definition initial : state :=
  mkState S_EXPECT_STATUS 0 0 0 (fun _ => 0) (fun _ => 0) 0 0 0 2 (fun _ => 0)
    0 0 0 0 0 0 0 [] [].

Definition rawEngine (ch attack : Z) (pitch vol : spec_float) (parm expr : Z) (s : state)
    : state :=
  set_engineCalls (engineCalls s ++ [mkCall ch attack pitch vol parm expr]) s.

Definition printf (line : string) (s : state) : state :=
  set_printed (printed s ++ [line]) s.

(** [1.0 * midiNote[channel] + (midiPitchBendSemis*(midiBend[channel] - 8192))/8192.0],
    computed in double and returned as a float. *)
Definition computePitch (s : state) (ch : Z) : spec_float :=
  float_of_double
    (dadd (dmul (double_of_int 1) (double_of_int (midiNote s ch)))
          (ddiv (double_of_int (midiPitchBendSemis s * (midiBend s ch - 8192)))
                (double_of_int 8192))).

(** [midiVol[channel] / 127.0], computed in double and returned as a float. *)
Definition computeVol (s : state) (ch : Z) : spec_float :=
  float_of_double (ddiv (double_of_int (midiVol s ch)) (double_of_int 127)).

(** [(int)(c & 0x7F)]. *)
Definition data7 (c : Z) : Z := Z.land c 0x7F.

(** The status half of [DeMIDI_putch]. *)
Definition putchStatus (c : Z) (s : state) : state :=
  let s := set_midiStatus (Z.shiftr (Z.land c 0x00F0) 4) s in
  let s := set_midiChannel (Z.land c 0x000F) s in
  if midiStatus s =? 0x08 then set_expectState S_OFF_BYTE_NOTE s
  else if midiStatus s =? 0x09 then set_expectState S_ON_BYTE_NOTE s
  else if midiStatus s =? 0x0B then set_expectState S_RPN_LO s
  else if midiStatus s =? 0x0D then set_expectState S_CH_PRESS s
  else if midiStatus s =? 0x0E then set_expectState S_BEND_LO s
  else printf "we don't recognize status byte %d yet." s.

(** The inner switch of the state [S_RPN_LO], on the controller number. *)
Definition putchController (c : Z) (s : state) : state :=
  if data7 c =? 0x63 then set_expectState S_NRPN_LO_KEY s
  else if data7 c =? 0x62 then set_expectState S_NRPN_HI_KEY s
  else if data7 c =? 101 then set_expectState S_RPN_LO_KEY s
  else if data7 c =? 100 then set_expectState S_RPN_HI_KEY s
  else if data7 c =? 0x06 then set_expectState S_RPN_VAL s
  else if data7 c =? 11 then set_expectState S_RPN_11 s
  else s.

(** The data half of [DeMIDI_putch]: the switch on [expectState]. *)
Definition putchData (c : Z) (s : state) : state :=
  let ch := midiChannel s in
  if expectState s =? S_ON_BYTE_NOTE then
    let s := set_midiNote (upd (midiNote s) ch (data7 c)) s in
    set_expectState S_ON_BYTE_VOL s
  else if expectState s =? S_ON_BYTE_VOL then
    let s := set_midiVol (upd (midiVol s) ch (data7 c)) s in
    let s := set_expectState S_ON_BYTE_NOTE s in
    rawEngine ch (doNoteAttack s) (computePitch s ch) (computeVol s ch)
      (midiExprParm s) (midiExpr s) s
  else if expectState s =? S_OFF_BYTE_NOTE then
    let s := set_midiNote (upd (midiNote s) ch (data7 c)) s in
    set_expectState S_OFF_BYTE_NOTE s
  else if expectState s =? S_OFF_BYTE_VOL then
    let s := set_midiVol (upd (midiVol s) ch 0) s in
    let s := set_expectState S_OFF_BYTE_NOTE s in
    rawEngine ch (doNoteAttack s) (computePitch s ch) (float_of_int 0)
      (midiExprParm s) (midiExpr s) s
  else if expectState s =? S_BEND_LO then
    let s := set_midiBend (upd (midiBend s) ch (data7 c)) s in
    set_expectState S_BEND_HI s
  else if expectState s =? S_BEND_HI then
    let s := set_midiBend (upd (midiBend s) ch (Z.shiftl (data7 c) 7 + midiBend s ch)) s in
    let s := set_expectState S_BEND_LO s in
    rawEngine ch (doNoteAttack s) (computePitch s ch) (computeVol s ch)
      (midiExprParm s) (midiExpr s) s
  else if expectState s =? S_RPN_LO then putchController c s
  else if expectState s =? S_NRPN_LO_KEY then
    set_nrpnKeyLo (data7 c) (set_isRegistered 0 s)
  else if expectState s =? S_NRPN_HI_KEY then
    set_nrpnKeyHi (data7 c) (set_isRegistered 0 s)
  else if expectState s =? S_RPN_VAL then
    let s := set_rpnVal (data7 c) s in
    if negb (isRegistered s =? 0) && (rpnKeyLo s =? 0) && (rpnKeyHi s =? 0)
    then set_midiPitchBendSemis (rpnVal s) s
    else if (isRegistered s =? 0) && (nrpnKeyLo s =? 9) && (nrpnKeyHi s =? 71)
    then rawEngine ch 1 (float_of_int 0) (float_of_int 0) 0 0 s
    else s
  else if expectState s =? S_CH_PRESS then
    if negb (midiVol s ch =? 0) then
      let s := set_midiVol (upd (midiVol s) ch (data7 c)) s in
      rawEngine ch 0 (computePitch s ch) (computeVol s ch) (midiExprParm s) (midiExpr s) s
    else s
  else if expectState s =? S_RPN_LO_KEY then
    set_rpnKeyLo (data7 c) (set_isRegistered 1 s)
  else if expectState s =? S_RPN_HI_KEY then
    set_rpnKeyHi (data7 c) (set_isRegistered 1 s)
  else if expectState s =? S_RPN_11 then
    set_midiExpr (data7 c) (set_midiExprParm 11 s)
  else if expectState s =? S_EXPECT_STATUS then
    printf "illegal state. we didn't start with status byte!" s
  else printf "skipping unrecognized data bytes in status %d" s.

(** [DeMIDI_putch]; [c] is the byte, and the masks of the source read the
    same bits of it whether [char] is signed or not. *)
Definition DeMIDI_putch (c : Z) (s : state) : state :=
  let s := if expectState s =? S_EXPECT_STATUS
           then set_midiBend (fillWith FINGERMAX (fun _ => 8192) (midiBend s)) s
           else s in
  if negb (Z.land c 0x80 =? 0) then putchStatus c s else putchData c s.

(** A byte sequence fed to the decoder, first byte first. *)
Definition feed (bytes : list Z) (s : state) : state :=
  fold_left (fun s c => DeMIDI_putch c s) bytes s.

End DeMIDI.

(** * Statements: what a run shows, and the inputs of the scenarios *)

(** The bytes given to midiPutch and the messages given to fail, in order. *)
Definition bytesOf (tr : list event) : list Z :=
  flat_map (fun e => match e with Putch b => [b] | _ => [] end) tr.
Definition failsOf (tr : list event) : list string :=
  flat_map (fun e => match e with Fail m => [m] | _ => [] end) tr.

(** The callback calls made between the states [c] and [c']. *)
Definition since (c c' : Fretless_context) : list event :=
  skipn (List.length (trace c)) (trace c').

(** A zero-filled block, as calloc would return it. *)
Definition zeroFinger : Fretless_fingerState :=
  mkFinger 0 0 (S754_zero false) 0 0 0 0 0 0 0 0 0 0.
Definition zeroMemory : Fretless_context :=
  mkContext (fun _ => zeroFinger) (fun _ => mkChannel 0 0 0 0) (fun _ => 0)
    0 0 0 (fun _ _ => 0) (fun _ _ => 0) 0 0 0 0 [].

(** A block that was used before: every int of it holds 1. *)
Definition usedMemory : Fretless_context :=
  mkContext (fun _ => mkFinger 1 1 (S754_zero false) 1 1 1 1 1 1 1 1 1 1)
    (fun _ => mkChannel 1 1 1 1) (fun _ => 1)
    1 1 1 (fun _ _ => 1) (fun _ _ => 1) 1 1 1 1 [].

(** A context with the given hints, set through the setters on a new
    context, and then booted. *)
Definition withHints (raw : Fretless_context) (base span semis supress : Z) : Fretless_context :=
  let c := Fretless_init raw in
  let c := Fretless_setMidiHintChannelBase c base in
  let c := Fretless_setMidiHintChannelSpan c span in
  let c := Fretless_setMidiHintChannelBendSemis c semis in
  Fretless_setMidiHintSupressBends c supress.
Definition bootedWith (raw : Fretless_context) (base span semis supress : Z) : Fretless_context :=
  Fretless_boot (withHints raw base span semis supress).

(** Float constants of the scenarios. *)
Definition f_60 : spec_float := float_of_int 60.     (* 60.0f *)
Definition f_62 : spec_float := float_of_int 62.     (* 62.0f *)
Definition f_1 : spec_float := float_of_int 1.       (* 1.0f *)
Definition f_60_5 : spec_float := S754_finite false 15859712 (-18).   (* 60.5f *)
Definition f_100_127 : spec_float :=                                  (* (float)(100/127.0) *)
  float_of_double (ddiv (double_of_int 100) (double_of_int 127)).

(** [beginDown(finger); endDown(finger, fnote, pg, v, legato)]. *)
Definition down (c : Fretless_context) (finger : Z) (fnote : spec_float) (pg : Z)
    (v : spec_float) (legato : Z) : option Fretless_context :=
  match Fretless_beginDown c finger with
  | Some c1 => Some (Fretless_endDown c1 finger fnote pg v legato)
  | None => None
  end.

(** ** Frame conditions

    A relation between the context before and after a piece of code, closed
    under the elementary writes that the piece performs, holds across the
    piece.  The classes list the elementary writes by the part of the
    encoder that uses them. *)

(** A finger update that leaves the fields (isOn, polyGroup, note, channel)
    alone. *)
Definition keyPreserving (g : Fretless_fingerState -> Fretless_fingerState) : Prop :=
  forall fs, isOn (g fs) = isOn fs /\ polyGroup (g fs) = polyGroup fs
             /\ note (g fs) = note fs /\ channel (g fs) = channel fs.

Class FrameEmit (R : Fretless_context -> Fretless_context -> Prop) : Prop := {
  fr_pre :: PreOrder R;
  fr_emit : forall e c, R c (emit e c);
  fr_setRawBalance : forall n ch v c, R c (setRawBalance n ch v c)
}.

Class Frame (R : Fretless_context -> Fretless_context -> Prop) : Prop := {
  fr_emitting :: FrameEmit R;
  fr_modFinger : forall i g c, keyPreserving g -> R c (modFinger i g c);
  fr_modChannel : forall i g c, R c (modChannel i g c);
  fr_setPoly : forall p v c, R c (setPoly p v c)
}.

Class FrameKeys (R : Fretless_context -> Fretless_context -> Prop) : Prop := {
  fr_modFingerAny : forall i g c, R c (modFinger i g c)
}.

Class FrameAlloc (R : Fretless_context -> Fretless_context -> Prop) : Prop := {
  fr_last : forall v c, R c (set_lastAllocatedChannel v c)
}.

Class FrameLedger (R : Fretless_context -> Fretless_context -> Prop) : Prop := {
  fr_addDownCount : forall n ch d c, R c (addDownCount n ch d c);
  fr_fingersDownCount : forall v c, R c (set_fingersDownCount v c)
}.

Class FrameBoot (R : Fretless_context -> Fretless_context -> Prop) : Prop :=
  fr_boot : forall c, R c (Fretless_boot c).

(** [holds R c c'] is [R c c'], with a head for the hints to find. *)
Definition holds {A : Type} (R : A -> A -> Prop) (x y : A) : Prop := R x y.

(** The context that a result carries: the result itself, the second
    component of a pair, or either of them under an option ([None]: the call
    did not return). *)
Definition outCtx (c : Fretless_context) : option Fretless_context := Some c.
Definition outPair {A : Type} (p : A * Fretless_context) : option Fretless_context :=
  Some (snd p).
Definition outOpt (o : option Fretless_context) : option Fretless_context := o.
Definition outOptPair {A : Type} (o : option (A * Fretless_context))
    : option Fretless_context := option_map snd o.

(** [after out R c t]: when [t] yields a context, it is [R]-related to [c]. *)
Definition after {T : Type} (out : T -> option Fretless_context)
    (R : Fretless_context -> Fretless_context -> Prop) (c : Fretless_context) (t : T) : Prop :=
  forall c', out t = Some c' -> R c c'.

(** The trace only grows. *)
Definition extends (c c' : Fretless_context) : Prop :=
  exists l, trace c' = trace c ++ l.

(** The hints stay. *)
Definition sameHints (c c' : Fretless_context) : Prop :=
  channelBase c' = channelBase c /\ channelSpan c' = channelSpan c
  /\ channelBendSemis c' = channelBendSemis c /\ supressBends c' = supressBends c.

(** The hints stay, and the rotation point stays or goes back to 0. *)
Definition sameRotation (c c' : Fretless_context) : Prop :=
  sameHints c c'
  /\ (lastAllocatedChannel c' = lastAllocatedChannel c \/ lastAllocatedChannel c' = 0).

(** Hints as the setters leave them: the span lies inside the sixteen
    channels. *)
Definition validHints (c : Fretless_context) : Prop :=
  0 <= channelBase c /\ 1 <= channelSpan c /\ channelBase c + channelSpan c <= CHANNELMAX.

(** ** Boot in closed form *)

(** The eighteen bytes of the pitch-bend-range RPN on channel [ch]. *)
Definition rpnBytes (ch semis : Z) : list Z :=
  [(0xB0 + ch) mod 256; 101; 0; (0xB0 + ch) mod 256; 100; 0;
   (0xB0 + ch) mod 256; 6; semis mod 256; (0xB0 + ch) mod 256; 38; 0;
   (0xB0 + ch) mod 256; 101; 127; (0xB0 + ch) mod 256; 100; 127].

(** The failures that boot reports on the hints of [c], in order. *)
Definition bootFails (c : Fretless_context) : list event :=
  (if channelSpan c =? 0 then [Fail "Fretless_state.channelSpan == 0"] else [])
  ++ (if channelBase c <? 0 then [Fail "%d: Fretless_state.channelBase < 0"] else [])
  ++ (if channelBase c >=? CHANNELMAX
      then [Fail "Fretless_state.channelBase >= CHANNELMAX"] else [])
  ++ (if channelSpan c + channelBase c >=? CHANNELMAX
      then [Fail "Fretless_state.channelSpan:%d + Fretless_state.channelBase:%d >= CHANNELMAX"]
      else [])
  ++ (if (channelBendSemis c <? 1) || (channelBendSemis c >? 24)
      then [Fail "%d: semitones < 1 || semitones > 24 -- MIDI spec limits to 24"] else []).

(** The context that boot leaves. *)
Definition bootState (c : Fretless_context) : Fretless_context :=
  mkContext
    (fillWith FINGERMAX Fretless_reset_FingerState (fingers c))
    (fillWith CHANNELMAX bootChannel (channels c))
    (fillWith POLYMAX (fun _ => NOBODY) (polys c))
    CTXSTATE_BOOTED 0 0
    (clearLedger (noteChannelDownCount c))
    (clearLedger (noteChannelDownRawBalance c))
    (channelBase c) (channelSpan c) (channelBendSemis c) (supressBends c)
    (trace c ++ bootFails c
     ++ map Putch (flat_map (fun k => rpnBytes (channelBase c + k) (channelBendSemis c))
                            (upto (channelSpan c)))).

(** ** Contexts of the scenarios *)

Definition orElse (o : option Fretless_context) (d : Fretless_context) : Fretless_context :=
  match o with Some c => c | None => d end.

(** Base 0, span 2, semis 2, bends sent; booted on a zero-filled block. *)
Definition S_booted : Fretless_context := bootedWith zeroMemory 0 2 2 FALSE.

(** Scenario S1 played: finger 0 down on note 60. *)
Definition S1_context : Fretless_context :=
  orElse (down S_booted 0 f_60 0 f_1 0) S_booted.

(** A new context, before boot. *)
Definition S_init : Fretless_context := Fretless_init zeroMemory.

(** ** Bends *)

(** A pitch-bend status byte, 0xE0 to 0xEF. *)
Definition isBendStatus (b : Z) : bool :=
  (MIDI_BEND <=? b) && (b <? MIDI_BEND + CHANNELMAX).

(** The test of [Fretless_setCurrentBend]: the bend of the finger is to be
    sent. *)
Definition bendDue (c : Fretless_context) (finger : Z) : bool :=
  negb (lastBend (channels c (channel (fingers c finger))) =? bend (fingers c finger))
  && (currentFingerInChannel (channels c (channel (fingers c finger))) =? finger)
  && negb (isOn (fingers c finger) =? 0)
  && (supressBends c =? FALSE).

(** What the bend test of a finger reads. *)
Definition bendView (c : Fretless_context) (finger : Z) : Z * Z * Z * Z * Z * Z :=
  (lastBend (channels c (channel (fingers c finger))),
   bend (fingers c finger),
   currentFingerInChannel (channels c (channel (fingers c finger))),
   isOn (fingers c finger),
   supressBends c,
   channel (fingers c finger)).

(** A finger is settled on a pitch: a move to that pitch keeps its note,
    and the bend that the move computes needs no sending. *)
Definition settled (c : Fretless_context) (finger : Z) (fnote : spec_float) : Prop :=
  fst (Fretless_fnoteBendFromExisting c fnote (fingers c finger)) = note (fingers c finger)
  /\ bendDue
       (modFinger finger
          (set_bend (snd (Fretless_fnoteBendFromExisting c fnote (fingers c finger)))) c)
       finger = false
  /\ 0 <= channel (fingers c finger) < CHANNELMAX.

(** Fingers, channels and hints stay: only the trace and the raw balance
    may differ. *)
Definition sameData (c c' : Fretless_context) : Prop :=
  fingers c' = fingers c /\ channels c' = channels c /\ sameHints c c'.

(** Nothing but failures and log lines is added to the trace. *)
Definition noBytes (c c' : Fretless_context) : Prop :=
  sameData c c' /\ exists l, trace c' = trace c ++ l /\ bytesOf l = [].

(** The hints stay, and so do note, bend, channel and isOn of one finger. *)
Definition sameVoice (finger : Z) (c c' : Fretless_context) : Prop :=
  sameHints c c'
  /\ note (fingers c' finger) = note (fingers c finger)
  /\ bend (fingers c' finger) = bend (fingers c finger)
  /\ channel (fingers c' finger) = channel (fingers c finger)
  /\ isOn (fingers c' finger) = isOn (fingers c finger).

(** ** A context at rest *)

(** A finger slot that holds no touch and is in no list. *)
Definition restingFinger (fs : Fretless_fingerState) : Prop :=
  isOn fs = FALSE /\ isSupressed fs = FALSE
  /\ nextFingerInPolyGroup fs = NOBODY /\ prevFingerInPolyGroup fs = NOBODY
  /\ nextFingerInChannel fs = NOBODY /\ prevFingerInChannel fs = NOBODY.

(** Nothing is in use and every finger slot is at rest. *)
Record clean (c : Fretless_context) : Prop := {
  clean_count : fingersDownCount c = 0;
  clean_channels : forall ch, 0 <= ch < CHANNELMAX ->
    useCount (channels c ch) = 0 /\ currentFingerInChannel (channels c ch) = NOBODY;
  clean_ledger : forall n ch, 0 <= n < NOTEMAX -> 0 <= ch < CHANNELMAX ->
    noteChannelDownCount c n ch = 0 /\ noteChannelDownRawBalance c n ch = 0;
  clean_polys : forall p, 0 <= p < POLYMAX -> polys c p = NOBODY;
  clean_fingers : forall f, 0 <= f < FINGERMAX -> restingFinger (fingers c f)
}.

(** Exactly what [Fretless_selfTest] checks when no finger is down. *)
Record tested (c : Fretless_context) : Prop := {
  tested_count : fingersDownCount c = 0;
  tested_channels : forall ch, 0 <= ch < CHANNELMAX ->
    useCount (channels c ch) = 0 /\ currentFingerInChannel (channels c ch) = NOBODY;
  tested_ledger : forall n ch, 0 <= n < NOTEMAX -> 0 <= ch < CHANNELMAX ->
    noteChannelDownCount c n ch = 0 /\ noteChannelDownRawBalance c n ch = 0;
  tested_polys : forall p, 0 <= p < POLYMAX -> polys c p = NOBODY;
  tested_fingers : forall f, 0 <= f < FINGERMAX ->
    isOn (fingers c f) = 0 /\ nextFingerInChannel (fingers c f) = NOBODY
    /\ prevFingerInChannel (fingers c f) = NOBODY
}.

(** Everything stays but the trace and the raw balance, and a raw balance
    of zero stays zero. *)
Definition sameButBalance (c c' : Fretless_context) : Prop :=
  fingers c' = fingers c /\ channels c' = channels c /\ polys c' = polys c
  /\ noteChannelDownCount c' = noteChannelDownCount c
  /\ fingersDownCount c' = fingersDownCount c
  /\ sameHints c c' /\ ctxState c' = ctxState c
  /\ lastAllocatedChannel c' = lastAllocatedChannel c
  /\ forall n ch, noteChannelDownRawBalance c n ch = 0 -> noteChannelDownRawBalance c' n ch = 0.

(** What the checks of one channel establish. *)
Definition channelTested (ch : Z) (c : Fretless_context) : Prop :=
  useCount (channels c ch) = 0 /\ currentFingerInChannel (channels c ch) = NOBODY
  /\ forall n, 0 <= n < NOTEMAX ->
       noteChannelDownCount c n ch = 0 /\ noteChannelDownRawBalance c n ch = 0.

(** A booted context with no finger down: the hints are valid, the
    rotation point is a channel, and nothing is in use. *)
Record idle (c : Fretless_context) : Prop := {
  idle_booted : ctxState c = CTXSTATE_BOOTED;
  idle_hints : validHints c;
  idle_last : 0 <= lastAllocatedChannel c < CHANNELMAX;
  idle_clean : clean c
}.

(** ** Reading the bytes as MIDI messages *)




(** ** One finger down and up again, in closed form *)






(** ** The decoder before it looks at a byte *)

(** The variables of the decoder before the byte is looked at: in the state
    [S_EXPECT_STATUS] every bend starts from the centre. *)
Definition rested (s : DeMIDI.state) : DeMIDI.state :=
  if DeMIDI.expectState s =? DeMIDI.S_EXPECT_STATUS
  then DeMIDI.set_midiBend (fillWith FINGERMAX (fun _ => 8192) (DeMIDI.midiBend s)) s
  else s.

(** * Proofs *)

(** ** Frames of the encoder functions *)

Create HintDb frame.

Section AfterRules.
Context {T : Type} (out : T -> option Fretless_context).
Context (R : Fretless_context -> Fretless_context -> Prop) {TR : Transitive R}.

Lemma after_step c x (t : T) : R c x -> after out R x t -> after out R c t.
Proof. intros H1 H2 c' Hc'. transitivity x; [ exact H1 | exact (H2 c' Hc') ]. Qed.

Lemma after_bind_state (e : Fretless_context) (b : Fretless_context -> T) c :
  R c e -> (forall x, after out R x (b x)) -> after out R c (bind e b).
Proof. intros H1 H2. unfold bind. eapply after_step; [ exact H1 | apply H2 ]. Qed.

Lemma after_bind_pair {A : Type} (e : A * Fretless_context)
    (b : A * Fretless_context -> T) c :
  R c (snd e) -> (forall a x, after out R x (b (a, x))) -> after out R c (bind e b).
Proof.
  intros H1 H2. unfold bind. destruct e as [a x].
  eapply after_step; [ exact H1 | apply H2 ].
Qed.

Lemma after_bind_value {A : Type} (e : A) (b : A -> T) c :
  (forall x, after out R c (b x)) -> after out R c (bind e b).
Proof. intros H. apply H. Qed.

End AfterRules.

Lemma some_inj {A : Type} (x y : A) : Some x = Some y -> x = y.
Proof. intros H. injection H as H. exact H. Qed.

Lemma none_not_some {A : Type} (y : A) : None = Some y -> False.
Proof. discriminate. Qed.

Lemma after_leaf_ctx (R : Fretless_context -> Fretless_context -> Prop) c e :
  R c e -> after outCtx R c e.
Proof. intros H c' E. apply some_inj in E. subst c'. exact H. Qed.
Lemma after_leaf_pair {A : Type} (R : Fretless_context -> Fretless_context -> Prop)
    c (a : A) e :
  R c e -> after outPair R c (a, e).
Proof. intros H c' E. apply some_inj in E. subst c'. exact H. Qed.
Lemma after_leaf_opt (R : Fretless_context -> Fretless_context -> Prop) c e :
  R c e -> after outOpt R c (Some e).
Proof. intros H c' E. apply some_inj in E. subst c'. exact H. Qed.
Lemma after_leaf_optPair {A : Type} (R : Fretless_context -> Fretless_context -> Prop)
    c (a : A) e :
  R c e -> after outOptPair R c (Some (a, e)).
Proof. intros H c' E. apply some_inj in E. subst c'. exact H. Qed.
Lemma after_leaf_none (R : Fretless_context -> Fretless_context -> Prop) c :
  after outOpt R c None.
Proof. intros c' E. destruct (none_not_some _ E). Qed.
Lemma after_leaf_nonePair {A : Type} (R : Fretless_context -> Fretless_context -> Prop) c :
  after (@outOptPair A) R c None.
Proof. intros c' E. destruct (none_not_some _ E). Qed.
Lemma after_opt_inv (R : Fretless_context -> Fretless_context -> Prop) c e :
  after outOpt R c (Some e) -> R c e.
Proof. intros H. apply H. reflexivity. Qed.
Lemma after_optPair_inv {A : Type} (R : Fretless_context -> Fretless_context -> Prop)
    c (a : A) e :
  after outOptPair R c (Some (a, e)) -> R c e.
Proof. intros H. apply H. reflexivity. Qed.

Lemma after_outCtx R c t : after outCtx R c t -> R c t.
Proof. intros H. apply H. reflexivity. Qed.
Lemma after_outPair {A : Type} R c (t : A * Fretless_context) :
  after outPair R c t -> R c (snd t).
Proof. intros H. apply H. reflexivity. Qed.

(** A leaf of the walk: a call with a frame lemma among the hints. *)
Ltac fr :=
  lazymatch goal with
  | |- after _ _ _ _ => solve [ auto with frame ]
  | |- ?R ?c ?t => change (holds R c t); solve [ auto with frame ]
  end.

(** [frame] walks down a body written with [do]: each step that yields a
    context is bridged by transitivity and then forgotten. *)
Ltac frame :=
  lazymatch goal with
  | |- after _ _ _ (bind ?e _) =>
      lazymatch type of e with
      | Fretless_context =>
          simple apply after_bind_state;
          [ typeclasses eauto | frameR | intro; cbv beta; frame ]
      | (_ * Fretless_context)%type =>
          simple apply after_bind_pair;
          [ typeclasses eauto | frameR | intros ? ?; cbv beta iota; frame ]
      | _ => simple apply after_bind_value; intro; cbv beta; frame
      end
  | |- after _ _ _ (if ?b then _ else _) => destruct b; frame
  | |- after _ ?R ?c (match ?e with Some _ => _ | None => _ end) => frame_option R c e
  | |- after _ _ _ (match ?p with (_, _) => _ end) => destruct p; frame
  | |- after _ _ _ _ => frame_leaf
  | |- ?R ?c ?t => frameR
  end
with frameR :=
  lazymatch goal with
  | |- ?R ?c ?c => reflexivity
  | |- ?R ?c (snd (_, _)) => cbn [snd]; frameR
  | |- ?R ?c (snd (bind _ _)) => simple apply after_outPair; frame
  | |- ?R ?c (snd (if _ then _ else _)) => simple apply after_outPair; frame
  | |- ?R ?c (bind _ _) => simple apply after_outCtx; frame
  | |- ?R ?c (if _ then _ else _) => simple apply after_outCtx; frame
  | |- ?R ?c ?t => first [ fr | idtac "frame: open leaf" R c t; fail 1 ]
  end
with frame_leaf :=
  first
    [ fr
    | lazymatch goal with
      | |- after outOpt _ _ None => simple apply after_leaf_none
      | |- after outOptPair _ _ None => simple apply after_leaf_nonePair
      | |- after outOptPair _ _ (Some (_, _)) => simple apply after_leaf_optPair; frameR
      | |- after outOpt _ _ (Some _) => simple apply after_leaf_opt; frameR
      | |- after outPair _ _ (_, _) => simple apply after_leaf_pair; frameR
      | |- after outCtx _ _ _ => simple apply after_leaf_ctx; frameR
      end ]
with frame_option R c e :=
  let He := fresh "He" in
  lazymatch type of e with
  | option Fretless_context =>
      assert (He : after outOpt R c e) by fr;
      destruct e as [?c'|];
      [ apply after_opt_inv in He; cbv beta iota;
        eapply after_step; [ typeclasses eauto | exact He | clear He; frame ]
      | clear He; frame ]
  | option (_ * Fretless_context)%type =>
      assert (He : after outOptPair R c e) by fr;
      destruct e as [[? ?c']|];
      [ apply after_optPair_inv in He; cbv beta iota;
        eapply after_step; [ typeclasses eauto | exact He | clear He; frame ]
      | clear He; frame ]
  end.

Lemma keyPreserving_isSupressed v : keyPreserving (set_isSupressed v).
Proof. intros fs. repeat split. Qed.
Lemma keyPreserving_bend v : keyPreserving (set_bend v).
Proof. intros fs. repeat split. Qed.
Lemma keyPreserving_velocity v : keyPreserving (set_velocity v).
Proof. intros fs. repeat split. Qed.
Lemma keyPreserving_nextFingerInPolyGroup v : keyPreserving (set_nextFingerInPolyGroup v).
Proof. intros fs. repeat split. Qed.
Lemma keyPreserving_prevFingerInPolyGroup v : keyPreserving (set_prevFingerInPolyGroup v).
Proof. intros fs. repeat split. Qed.
Lemma keyPreserving_nextFingerInChannel v : keyPreserving (set_nextFingerInChannel v).
Proof. intros fs. repeat split. Qed.
Lemma keyPreserving_prevFingerInChannel v : keyPreserving (set_prevFingerInChannel v).
Proof. intros fs. repeat split. Qed.
Lemma keyPreserving_visitingPolyGroup v : keyPreserving (set_visitingPolyGroup v).
Proof. intros fs. repeat split. Qed.

#[global] Hint Resolve keyPreserving_isSupressed keyPreserving_bend keyPreserving_velocity
  keyPreserving_nextFingerInPolyGroup keyPreserving_prevFingerInPolyGroup
  keyPreserving_nextFingerInChannel keyPreserving_prevFingerInChannel
  keyPreserving_visitingPolyGroup : frame.

#[global] Hint Extern 1 (holds _ _ (emit _ _)) =>
  unfold holds; simple apply fr_emit : frame.
#[global] Hint Extern 1 (holds _ _ (modFinger _ _ _)) =>
  unfold holds; simple apply fr_modFinger; solve [ auto with frame ] : frame.
#[global] Hint Extern 2 (holds _ _ (modFinger _ _ _)) =>
  unfold holds; simple apply fr_modFingerAny : frame.
#[global] Hint Extern 1 (holds _ _ (modChannel _ _ _)) =>
  unfold holds; simple apply fr_modChannel : frame.
#[global] Hint Extern 1 (holds _ _ (setPoly _ _ _)) =>
  unfold holds; simple apply fr_setPoly : frame.
#[global] Hint Extern 1 (holds _ _ (setRawBalance _ _ _ _)) =>
  unfold holds; simple apply fr_setRawBalance : frame.
#[global] Hint Extern 1 (holds _ _ (set_lastAllocatedChannel _ _)) =>
  unfold holds; simple apply fr_last : frame.
#[global] Hint Extern 1 (holds _ _ (addDownCount _ _ _ _)) =>
  unfold holds; simple apply fr_addDownCount : frame.
#[global] Hint Extern 1 (holds _ _ (set_fingersDownCount _ _)) =>
  unfold holds; simple apply fr_fingersDownCount : frame.
#[global] Hint Extern 1 (holds _ _ (Fretless_boot _)) =>
  unfold holds; simple apply fr_boot : frame.

Section FramesEmit.
Context {R : Fretless_context -> Fretless_context -> Prop} {FE : FrameEmit R}.

Lemma frame_midiPutch v c : R c (midiPutch v c).
Proof. apply fr_emit. Qed.
Lemma frame_fail m c : R c (fail m c).
Proof. apply fr_emit. Qed.
Lemma frame_logger m c : R c (logger m c).
Proof. apply fr_emit. Qed.
Lemma frame_passed c : R c (passed c).
Proof. apply fr_emit. Qed.
Lemma frame_flush c : R c (Fretless_flush c).
Proof. apply fr_emit. Qed.
Lemma frame_midiPutch3 a b d c : R c (midiPutch3 a b d c).
Proof.
  unfold midiPutch3.
  transitivity (midiPutch a c); [ apply frame_midiPutch | ].
  transitivity (midiPutch b (midiPutch a c)); apply frame_midiPutch.
Qed.
Lemma frame_addRawBalance n ch d c : R c (addRawBalance n ch d c).
Proof. apply fr_setRawBalance. Qed.

Hint Extern 1 (holds _ _ (midiPutch _ _)) => unfold holds; simple apply frame_midiPutch : frame.
Hint Extern 1 (holds _ _ (fail _ _)) => unfold holds; simple apply frame_fail : frame.
Hint Extern 1 (holds _ _ (logger _ _)) => unfold holds; simple apply frame_logger : frame.
Hint Extern 1 (holds _ _ (passed _)) => unfold holds; simple apply frame_passed : frame.
Hint Extern 1 (holds _ _ (Fretless_flush _)) => unfold holds; simple apply frame_flush : frame.
Hint Extern 1 (holds _ _ (midiPutch3 _ _ _ _)) =>
  unfold holds; simple apply frame_midiPutch3 : frame.
Hint Extern 1 (holds _ _ (addRawBalance _ _ _ _)) =>
  unfold holds; simple apply frame_addRawBalance : frame.

Lemma frame_STATECHECK c : R c (STATECHECK c).
Proof. cbv beta delta [STATECHECK]. frame. Qed.
Lemma frame_FINGERCHECK f c : R c (FINGERCHECK f c).
Proof. cbv beta delta [FINGERCHECK]. frame. Qed.
Lemma frame_POLYCHECK p c : R c (POLYCHECK p c).
Proof. cbv beta delta [POLYCHECK]. frame. Qed.
Lemma frame_FNOTECHECK x c : R c (FNOTECHECK x c).
Proof. cbv beta delta [FNOTECHECK]. frame. Qed.

Hint Extern 1 (holds _ _ (STATECHECK _)) => unfold holds; simple apply frame_STATECHECK : frame.
Hint Extern 1 (holds _ _ (FINGERCHECK _ _)) =>
  unfold holds; simple apply frame_FINGERCHECK : frame.
Hint Extern 1 (holds _ _ (POLYCHECK _ _)) => unfold holds; simple apply frame_POLYCHECK : frame.
Hint Extern 1 (holds _ _ (FNOTECHECK _ _)) => unfold holds; simple apply frame_FNOTECHECK : frame.

Lemma frame_noteTie c fs : R c (Fretless_noteTie c fs).
Proof. cbv beta delta [Fretless_noteTie]. frame. Qed.
Lemma frame_express c f k v : R c (Fretless_express c f k v).
Proof. cbv beta delta [Fretless_express]. frame. Qed.

Hint Extern 1 (holds _ _ (Fretless_noteTie _ _)) =>
  unfold holds; simple apply frame_noteTie : frame.

Lemma frame_fold {A : Type} (f : Fretless_context -> A -> Fretless_context) (l : list A) :
  (forall c x, R c (f c x)) -> forall c, R c (fold_left f l c).
Proof.
  intros Hf. induction l as [|x l IH]; intros c; cbn [fold_left].
  - reflexivity.
  - transitivity (f c x); [ apply Hf | apply IH ].
Qed.

Lemma frame_fold_test {A : Type} (f : testState -> A -> testState) (l : list A) :
  (forall st x, R (fst st) (fst (f st x))) ->
  forall st, R (fst st) (fst (fold_left f l st)).
Proof.
  intros Hf. induction l as [|x l IH]; intros st; cbn [fold_left].
  - reflexivity.
  - transitivity (fst (f st x)); [ apply Hf | apply IH ].
Qed.

Lemma frame_failTest m st : R (fst st) (fst (failTest m st)).
Proof. apply fr_emit. Qed.

Lemma frame_if_failTest (b : bool) m c0 st :
  R c0 (fst st) -> R c0 (fst (if b then failTest m st else st)).
Proof.
  intros H. destruct b; [ | exact H ].
  transitivity (fst st); [ exact H | apply frame_failTest ].
Qed.

Lemma frame_selfTestNote ch st n : R (fst st) (fst (selfTestNote ch st n)).
Proof.
  unfold selfTestNote, bind.
  set (st1 := if negb (noteChannelDownCount (fst st) n ch =? 0)
              then failTest "Fretless_state.noteChannelDownCount[0x%d][0x%d] == %d" st
              else st).
  assert (H1 : R (fst st) (fst st1)) by (apply frame_if_failTest; reflexivity).
  clearbody st1.
  destruct (negb _); [ | exact H1 ].
  destruct (_ <? 0).
  - cbn [fst]. transitivity (fst st1); [ exact H1 | ].
    transitivity (setRawBalance n ch 0 (fst st1));
      [ apply fr_setRawBalance | apply frame_logger ].
  - transitivity (fst st1); [ exact H1 | apply frame_failTest ].
Qed.

Lemma frame_selfTestChannel st ch : R (fst st) (fst (selfTestChannel st ch)).
Proof.
  unfold selfTestChannel, bind.
  apply frame_if_failTest.
  etransitivity; [ | apply frame_fold_test; intros; apply frame_selfTestNote ].
  apply frame_if_failTest. reflexivity.
Qed.

Lemma frame_selfTestPoly st p : R (fst st) (fst (selfTestPoly st p)).
Proof. unfold selfTestPoly. apply frame_if_failTest. reflexivity. Qed.

Lemma frame_selfTestFinger st f : R (fst st) (fst (selfTestFinger st f)).
Proof.
  unfold selfTestFinger, bind.
  apply frame_if_failTest. apply frame_if_failTest. apply frame_if_failTest. reflexivity.
Qed.

Lemma frame_silenceNote c n : R c (silenceNote c n).
Proof.
  unfold silenceNote.
  transitivity (fold_left (fun c ch => midiPutch3 (MIDI_ON + ch) n 0 c) (upto CHANNELMAX) c).
  - apply frame_fold. intros. apply frame_midiPutch3.
  - apply frame_flush.
Qed.

Lemma frame_selfTest `{!FrameBoot R} c : R c (Fretless_selfTest c).
Proof.
  unfold Fretless_selfTest, bind. cbn [fst].
  set (st1 := if fingersDownCount c =? 0
              then fold_left selfTestFinger (upto FINGERMAX)
                     (fold_left selfTestPoly (upto POLYMAX)
                        (fold_left selfTestChannel (upto CHANNELMAX) (c, true)))
              else (c, true)).
  assert (H1 : R c (fst st1)).
  { subst st1. destruct (fingersDownCount c =? 0); [ | reflexivity ].
    change c with (fst (c, true)) at 1.
    etransitivity; [ | apply frame_fold_test; intros; apply frame_selfTestFinger ].
    etransitivity; [ | apply frame_fold_test; intros; apply frame_selfTestPoly ].
    apply frame_fold_test; intros; apply frame_selfTestChannel. }
  clearbody st1.
  set (st2 := if fingersDownCount (fst st1) <? 0
              then failTest "less than zero fingers count!" st1 else st1).
  assert (H2 : R c (fst st2)) by (apply frame_if_failTest; exact H1).
  clearbody st2.
  transitivity (fst st2); [ exact H2 | ].
  destruct (snd st2).
  - apply frame_passed.
  - etransitivity; [ | apply fr_boot ].
    apply frame_fold. intros. apply frame_silenceNote.
Qed.

End FramesEmit.

#[global] Hint Extern 1 (holds _ _ (midiPutch _ _)) =>
  unfold holds; simple apply frame_midiPutch : frame.
#[global] Hint Extern 1 (holds _ _ (fail _ _)) => unfold holds; simple apply frame_fail : frame.
#[global] Hint Extern 1 (holds _ _ (logger _ _)) =>
  unfold holds; simple apply frame_logger : frame.
#[global] Hint Extern 1 (holds _ _ (passed _)) => unfold holds; simple apply frame_passed : frame.
#[global] Hint Extern 1 (holds _ _ (Fretless_flush _)) =>
  unfold holds; simple apply frame_flush : frame.
#[global] Hint Extern 1 (holds _ _ (midiPutch3 _ _ _ _)) =>
  unfold holds; simple apply frame_midiPutch3 : frame.
#[global] Hint Extern 1 (holds _ _ (addRawBalance _ _ _ _)) =>
  unfold holds; simple apply frame_addRawBalance : frame.
#[global] Hint Extern 1 (holds _ _ (STATECHECK _)) =>
  unfold holds; simple apply frame_STATECHECK : frame.
#[global] Hint Extern 1 (holds _ _ (FINGERCHECK _ _)) =>
  unfold holds; simple apply frame_FINGERCHECK : frame.
#[global] Hint Extern 1 (holds _ _ (POLYCHECK _ _)) =>
  unfold holds; simple apply frame_POLYCHECK : frame.
#[global] Hint Extern 1 (holds _ _ (FNOTECHECK _ _)) =>
  unfold holds; simple apply frame_FNOTECHECK : frame.
#[global] Hint Extern 1 (holds _ _ (Fretless_noteTie _ _)) =>
  unfold holds; simple apply frame_noteTie : frame.
#[global] Hint Extern 1 (holds _ _ (Fretless_express _ _ _ _)) =>
  unfold holds; simple apply frame_express : frame.
#[global] Hint Extern 1 (holds _ _ (Fretless_selfTest _)) =>
  unfold holds; simple apply frame_selfTest; solve [ auto with frame ] : frame.

Section Frames.
Context {R : Fretless_context -> Fretless_context -> Prop} {FR : Frame R}.

Lemma frame_setCurrentBend c f : R c (Fretless_setCurrentBend c f).
Proof. cbv beta delta [Fretless_setCurrentBend]. frame. Qed.
Lemma frame_setCurrentAftertouch c f v : R c (Fretless_setCurrentAftertouch c f v).
Proof. cbv beta delta [Fretless_setCurrentAftertouch]. frame. Qed.
Lemma frame_freeChannel c f : R c (Fretless_freeChannel c f).
Proof. cbv beta delta [Fretless_freeChannel]. frame. Qed.

Hint Extern 1 (holds _ _ (Fretless_setCurrentBend _ _)) =>
  unfold holds; simple apply frame_setCurrentBend : frame.
Hint Extern 1 (holds _ _ (Fretless_setCurrentAftertouch _ _ _)) =>
  unfold holds; simple apply frame_setCurrentAftertouch : frame.
Hint Extern 1 (holds _ _ (Fretless_freeChannel _ _)) =>
  unfold holds; simple apply frame_freeChannel : frame.

Lemma frame_link `{!FrameKeys R} c f : R c (snd (Fretless_link c f)).
Proof. cbv beta delta [Fretless_link]. frame. Qed.
Lemma frame_unlink `{!FrameKeys R} c f : R c (snd (Fretless_unlink c f)).
Proof. cbv beta delta [Fretless_unlink]. frame. Qed.

Hint Extern 1 (holds _ _ (snd (Fretless_link _ _))) =>
  unfold holds; simple apply frame_link; solve [ auto with frame ] : frame.
Hint Extern 1 (holds _ _ (snd (Fretless_unlink _ _))) =>
  unfold holds; simple apply frame_unlink; solve [ auto with frame ] : frame.

Lemma frame_allocTake `{!FrameAlloc R} c f ch : R c (allocTake c f ch).
Proof. cbv beta delta [allocTake]. frame. Qed.

Lemma frame_allocScan `{!FrameAlloc R} c f low ss :
  after outOptPair R c (allocScan c f low ss).
Proof.
  induction ss as [|s ss IH]; cbn [allocScan]; [ discriminate | ].
  unfold bind.
  destruct (_ <? 0).
  - intros c' H. apply some_inj in H. subst c'. apply frame_fail.
  - destruct (_ =? low); [ | exact IH ].
    intros c' H. apply some_inj in H. subst c'. apply frame_allocTake.
Qed.

Lemma frame_allocLoop `{!FrameAlloc R} fuel c f low :
  after outOptPair R c (allocLoop fuel c f low).
Proof.
  revert low. induction fuel as [|fuel IH]; intros low; cbn [allocLoop]; [ discriminate | ].
  pose proof (frame_allocScan c f low (upto (channelSpan c))) as Hs.
  destruct (allocScan c f low (upto (channelSpan c))) as [r'|].
  - exact Hs.
  - apply IH.
Qed.

Lemma frame_allocChannel `{!FrameAlloc R} c f :
  after outOptPair R c (Fretless_allocChannel c f).
Proof.
  unfold Fretless_allocChannel. destruct (channelSpan c <=? 0); [ discriminate | ].
  apply frame_allocLoop.
Qed.

Hint Extern 1 (after _ _ _ (Fretless_allocChannel _ _)) =>
  simple apply frame_allocChannel; solve [ auto with frame ] : frame.

Lemma frame_beginDown `{!FrameKeys R} `{!FrameAlloc R} c f :
  after outOpt R c (Fretless_beginDown c f).
Proof. cbv beta delta [Fretless_beginDown]. frame. Qed.

Lemma frame_endDown `{!FrameKeys R} `{!FrameLedger R} c f fnote pg v l :
  R c (Fretless_endDown c f fnote pg v l).
Proof. cbv beta delta [Fretless_endDown]. frame. Qed.

Lemma frame_up `{!FrameKeys R} `{!FrameLedger R} `{!FrameBoot R} c f l :
  R c (Fretless_up c f l).
Proof. cbv beta delta [Fretless_up]. frame. Qed.

Hint Extern 1 (after _ _ _ (Fretless_beginDown _ _)) =>
  simple apply frame_beginDown; solve [ auto with frame ] : frame.
Hint Extern 1 (holds _ _ (Fretless_endDown _ _ _ _ _ _)) =>
  unfold holds; simple apply frame_endDown; solve [ auto with frame ] : frame.
Hint Extern 1 (holds _ _ (Fretless_up _ _ _)) =>
  unfold holds; simple apply frame_up; solve [ auto with frame ] : frame.

Lemma frame_move `{!FrameKeys R} `{!FrameAlloc R} `{!FrameLedger R} `{!FrameBoot R}
    c f fnote v pg :
  after outOptPair R c (Fretless_move c f fnote v pg).
Proof. cbv beta delta [Fretless_move]. frame. Qed.

End Frames.

#[global] Hint Extern 1 (holds _ _ (Fretless_setCurrentBend _ _)) =>
  unfold holds; simple apply frame_setCurrentBend : frame.
#[global] Hint Extern 1 (holds _ _ (Fretless_setCurrentAftertouch _ _ _)) =>
  unfold holds; simple apply frame_setCurrentAftertouch : frame.
#[global] Hint Extern 1 (holds _ _ (Fretless_freeChannel _ _)) =>
  unfold holds; simple apply frame_freeChannel : frame.
#[global] Hint Extern 1 (holds _ _ (snd (Fretless_link _ _))) =>
  unfold holds; simple apply frame_link; solve [ auto with frame ] : frame.
#[global] Hint Extern 1 (holds _ _ (snd (Fretless_unlink _ _))) =>
  unfold holds; simple apply frame_unlink; solve [ auto with frame ] : frame.
#[global] Hint Extern 1 (holds _ _ (allocTake _ _ _)) =>
  unfold holds; simple apply frame_allocTake; solve [ auto with frame ] : frame.
#[global] Hint Extern 1 (after _ _ _ (Fretless_allocChannel _ _)) =>
  simple apply frame_allocChannel; solve [ auto with frame ] : frame.
#[global] Hint Extern 1 (after _ _ _ (Fretless_beginDown _ _)) =>
  simple apply frame_beginDown; solve [ auto with frame ] : frame.
#[global] Hint Extern 1 (holds _ _ (Fretless_endDown _ _ _ _ _ _)) =>
  unfold holds; simple apply frame_endDown; solve [ auto with frame ] : frame.
#[global] Hint Extern 1 (holds _ _ (Fretless_up _ _ _)) =>
  unfold holds; simple apply frame_up; solve [ auto with frame ] : frame.
#[global] Hint Extern 1 (after _ _ _ (Fretless_move _ _ _ _ _)) =>
  simple apply frame_move; solve [ auto with frame ] : frame.

(** ** Three frames: the trace, the hints, the rotation point *)

Lemma extends_same_trace c c' : trace c' = trace c -> extends c c'.
Proof. intros H. exists []. rewrite H. symmetry. apply app_nil_r. Qed.

#[global] Instance extends_PreOrder : PreOrder extends.
Proof.
  split.
  - intros c. now apply extends_same_trace.
  - intros a b c [l1 H1] [l2 H2]. exists (l1 ++ l2). now rewrite H2, H1, app_assoc.
Qed.

#[global] Instance extends_FrameEmit : FrameEmit extends.
Proof.
  split; [ exact extends_PreOrder | | ]; try (intros; now apply extends_same_trace).
  intros e c. exists [e]. reflexivity.
Qed.
#[global] Instance extends_Frame : Frame extends.
Proof. split; [ exact extends_FrameEmit | .. ]; intros; now apply extends_same_trace. Qed.
#[global] Instance extends_FrameKeys : FrameKeys extends.
Proof. split; intros; now apply extends_same_trace. Qed.
#[global] Instance extends_FrameAlloc : FrameAlloc extends.
Proof. split; intros; now apply extends_same_trace. Qed.
#[global] Instance extends_FrameLedger : FrameLedger extends.
Proof. split; intros; now apply extends_same_trace. Qed.

Lemma sameHints_refl c c' :
  channelBase c' = channelBase c -> channelSpan c' = channelSpan c ->
  channelBendSemis c' = channelBendSemis c -> supressBends c' = supressBends c ->
  sameHints c c'.
Proof. intros. repeat split; assumption. Qed.

#[global] Instance sameHints_PreOrder : PreOrder sameHints.
Proof.
  split.
  - intros c. repeat split.
  - intros a b c (H1 & H2 & H3 & H4) (H5 & H6 & H7 & H8).
    repeat split; congruence.
Qed.

#[global] Instance sameHints_FrameEmit : FrameEmit sameHints.
Proof. split; [ exact sameHints_PreOrder | .. ]; intros; repeat split. Qed.
#[global] Instance sameHints_Frame : Frame sameHints.
Proof. split; [ exact sameHints_FrameEmit | .. ]; intros; repeat split. Qed.
#[global] Instance sameHints_FrameKeys : FrameKeys sameHints.
Proof. split; intros; repeat split. Qed.
#[global] Instance sameHints_FrameAlloc : FrameAlloc sameHints.
Proof. split; intros; repeat split. Qed.
#[global] Instance sameHints_FrameLedger : FrameLedger sameHints.
Proof. split; intros; repeat split. Qed.

#[global] Instance sameRotation_PreOrder : PreOrder sameRotation.
Proof.
  split.
  - intros c. split; [ reflexivity | left; reflexivity ].
  - intros a b c [H1 H2] [H3 H4]. split; [ transitivity b; assumption | ].
    destruct H4 as [H4|H4]; [ rewrite H4; exact H2 | right; exact H4 ].
Qed.

#[global] Instance sameRotation_FrameEmit : FrameEmit sameRotation.
Proof.
  split; [ exact sameRotation_PreOrder | .. ];
    intros; (split; [ repeat split | left; reflexivity ]).
Qed.
#[global] Instance sameRotation_Frame : Frame sameRotation.
Proof.
  split; [ exact sameRotation_FrameEmit | .. ];
    intros; (split; [ repeat split | left; reflexivity ]).
Qed.
#[global] Instance sameRotation_FrameKeys : FrameKeys sameRotation.
Proof. split; intros; (split; [ repeat split | left; reflexivity ]). Qed.
#[global] Instance sameRotation_FrameLedger : FrameLedger sameRotation.
Proof. split; intros; (split; [ repeat split | left; reflexivity ]). Qed.

(** ** Boot in closed form *)

Ltac simpl_ctx :=
  cbn [fingers channels polys ctxState lastAllocatedChannel fingersDownCount
       noteChannelDownCount noteChannelDownRawBalance channelBase channelSpan
       channelBendSemis supressBends trace
       set_fingers set_channels set_polys set_ctxState set_lastAllocatedChannel
       set_fingersDownCount set_noteChannelDownCount set_noteChannelDownRawBalance
       set_channelBase set_channelSpan set_channelBendSemis set_supressBends set_trace].

Lemma set_trace_same c : set_trace (trace c) c = c.
Proof. destruct c; reflexivity. Qed.

Lemma if_fail_eq (b : bool) m c :
  (if b then fail m c else c) = set_trace (trace c ++ (if b then [Fail m] else [])) c.
Proof.
  destruct b; [ reflexivity | ].
  rewrite app_nil_r. symmetry. apply set_trace_same.
Qed.

Lemma midiPutch3_eq a b d c :
  midiPutch3 a b d c
  = set_trace (trace c ++ [Putch (a mod 256); Putch (b mod 256); Putch (d mod 256)]) c.
Proof.
  unfold midiPutch3, midiPutch, emit. simpl_ctx.
  rewrite <- !app_assoc. reflexivity.
Qed.

Lemma bendRangeRPN_eq semis c k :
  bendRangeRPN semis c k
  = set_trace (trace c ++ map Putch (rpnBytes (channelBase c + k) semis)) c.
Proof.
  unfold bendRangeRPN, bind. rewrite !midiPutch3_eq. simpl_ctx.
  unfold rpnBytes. cbn [map]. rewrite <- !app_assoc. reflexivity.
Qed.

Lemma fold_bendRangeRPN_eq semis l c :
  fold_left (bendRangeRPN semis) l c
  = set_trace
      (trace c ++ map Putch (flat_map (fun k => rpnBytes (channelBase c + k) semis) l)) c.
Proof.
  revert c. induction l as [|k l IH]; intros c; cbn [fold_left flat_map].
  - cbn [map]. rewrite app_nil_r. symmetry. apply set_trace_same.
  - rewrite IH, bendRangeRPN_eq. simpl_ctx.
    rewrite map_app, <- !app_assoc. reflexivity.
Qed.

(** One statement of a body, on a context in explicit form: the head [do]
    is unfolded, a failure check becomes an append to the trace, and the
    field reads on the explicit record are computed. *)
Ltac exec1 := unfold bind at 1; rewrite ?if_fail_eq; simpl_ctx.

Lemma boot_eq c : Fretless_boot c = bootState c.
Proof.
  destruct c. unfold Fretless_boot, bootState, bootFails.
  do 12 exec1.
  unfold Fretless_setMidiHintChannelBendSemis. do 2 exec1.
  rewrite Z.eqb_refl, fold_bendRangeRPN_eq. simpl_ctx.
  rewrite <- !app_assoc. reflexivity.
Qed.

#[global] Instance extends_FrameBoot : FrameBoot extends.
Proof. intros c. rewrite boot_eq. eexists. reflexivity. Qed.
#[global] Instance sameHints_FrameBoot : FrameBoot sameHints.
Proof. intros c. rewrite boot_eq. repeat split. Qed.
#[global] Instance sameRotation_FrameBoot : FrameBoot sameRotation.
Proof. intros c. rewrite boot_eq. split; [ repeat split | right; reflexivity ]. Qed.

(** ** Stepping through a body

    [bind_intro] names the context that a statement leaves; the proofs below
    keep what they need to know about it and forget the rest. *)

Lemma bind_intro {A T : Type} (Q : T -> Prop) (e : A) (b : A -> T) :
  (forall x, x = e -> Q (b x)) -> Q (bind e b).
Proof. intros H. exact (H e eq_refl). Qed.

(** Name the result of the first statement of the goal. *)
Ltac name_step x Hx :=
  lazymatch goal with
  | |- context [bind ?e ?b] =>
      pattern (bind e b); apply bind_intro; intros x Hx; cbv beta
  end.

(** The same, keeping only that the new context is [R]-related to the
    context [c0] of the hypothesis [Hcur]. *)
Ltac track_step R Hcur :=
  let x := fresh "x" in
  let Hx := fresh "Hx" in
  let Hn := fresh "Hn" in
  name_step x Hx;
  lazymatch type of Hcur with
  | R ?c0 ?xc =>
      lazymatch type of x with
      | Fretless_context =>
          assert (Hn : R c0 x)
            by (rewrite Hx; transitivity xc; [ exact Hcur | frame ]);
          clear Hx Hcur; rename Hn into Hcur
      | (_ * Fretless_context)%type =>
          assert (Hn : R c0 (snd x))
            by (rewrite Hx; transitivity xc; [ exact Hcur | frame ]);
          clear Hx Hcur; rename Hn into Hcur; destruct x as [? x]; cbn [snd] in Hcur;
          cbv beta iota
      | (_ * _)%type => clear Hx; destruct x as [? ?]; cbv beta iota
      | _ => clear Hx
      end
  end.

(** ** The channel search ends *)

Lemma upto_cons n : 1 <= n -> exists l, upto n = 0 :: l.
Proof.
  intros Hn. unfold upto.
  destruct (Z.to_nat n) as [|k] eqn:E; [ lia | ].
  exists (map Z.of_nat (seq 1 k)). reflexivity.
Qed.

Lemma allocLoop_returns fuel c f low :
  1 <= channelSpan c ->
  useCount (channels c (allocCandidate c 0)) < 0
  \/ low <= useCount (channels c (allocCandidate c 0)) ->
  Z.max 0 (useCount (channels c (allocCandidate c 0)) - low) < Z.of_nat fuel ->
  exists r, allocLoop fuel c f low = Some r.
Proof.
  intros Hspan. destruct (upto_cons _ Hspan) as [l Hl].
  revert low. induction fuel as [|fuel IH]; intros low Hu Hf; [ lia | ].
  cbn [allocLoop]. rewrite Hl. cbn [allocScan]. unfold bind at 1.
  destruct (useCount (channels c (allocCandidate c 0)) <? 0) eqn:Eneg; [ eauto | ].
  apply Z.ltb_ge in Eneg.
  destruct (useCount (channels c (allocCandidate c 0)) =? low) eqn:Eeq; [ eauto | ].
  apply Z.eqb_neq in Eeq.
  destruct (allocScan c f low l) as [r|]; [ eauto | ].
  apply IH; lia.
Qed.

Lemma allocChannel_returns c f :
  1 <= channelSpan c -> exists r, Fretless_allocChannel c f = Some r.
Proof.
  intros Hspan. unfold Fretless_allocChannel.
  replace (channelSpan c <=? 0) with false by (symmetry; apply Z.leb_gt; lia).
  apply allocLoop_returns; [ exact Hspan | lia | lia ].
Qed.

Lemma beginDown_returns c f :
  1 <= channelSpan c -> exists c', Fretless_beginDown c f = Some c'.
Proof.
  intros Hspan. unfold Fretless_beginDown.
  assert (Hc : sameHints c c) by reflexivity.
  do 4 track_step sameHints Hc.
  lazymatch type of Hc with
  | sameHints _ ?x => destruct (allocChannel_returns x f) as [[ch c1] E]
  end.
  { destruct Hc as (_ & -> & _). exact Hspan. }
  rewrite E. eauto.
Qed.

(** ** What a move returns *)

(** Both branches of a move end in [return fnote]; the branch that voices
    the note again gets there once the channel search has ended. *)
Lemma move_returns (c : Fretless_context) (f : Z) (fnote v : spec_float) (pg : Z) :
  1 <= channelSpan c ->
  exists c', Fretless_move c f fnote v pg = Some (fnote, c').
Proof.
  intros Hspan. unfold Fretless_move.
  assert (Hc : sameHints c c) by reflexivity.
  do 6 track_step sameHints Hc.
  match goal with |- context [if ?b then _ else _] => destruct b end.
  - unfold bind. eexists. reflexivity.
  - do 2 track_step sameHints Hc.
    lazymatch type of Hc with
    | sameHints _ ?x => destruct (beginDown_returns x f) as [c1 E]
    end.
    { destruct Hc as (_ & -> & _). exact Hspan. }
    rewrite E. eexists. reflexivity.
Qed.

(** C9: with a span of at least one channel (without it the channel search
    of a re-voicing move never ends), [Fretless_move] returns, and the float
    it returns is its fnote argument, whether the move only bends the note
    or re-voices it. *)
Theorem move_returns_its_fnote (c : Fretless_context) (f : Z) (fnote v : spec_float) (pg : Z) :
  1 <= channelSpan c ->
  exists c', Fretless_move c f fnote v pg = Some (fnote, c').
Proof. exact (move_returns c f fnote v pg). Qed.

Lemma move_returns_its_fnote_witness :
  1 <= channelSpan S1_context
  /\ exists c', Fretless_move S1_context 0 f_62 f_1 0 = Some (f_62, c').
Proof.
  assert (H : 1 <= channelSpan S1_context) by (vm_compute; discriminate).
  split; [ exact H | exact (move_returns_its_fnote S1_context 0 f_62 f_1 0 H) ].
Defined.

(** ** Calls before boot *)

Lemma STATECHECK_init c :
  ctxState c = CTXSTATE_INIT -> STATECHECK c = fail "context is not booted yet" c.
Proof. intros H. unfold STATECHECK. rewrite H. reflexivity. Qed.

Lemma fingers_FINGERCHECK f c : fingers (FINGERCHECK f c) = fingers c.
Proof. unfold FINGERCHECK. destruct (_ || _); reflexivity. Qed.

Lemma fingers_FNOTECHECK x c : fingers (FNOTECHECK x c) = fingers c.
Proof. unfold FNOTECHECK. destruct (fnoteOutOfRange x); reflexivity. Qed.

Lemma extends_after_fail c0 c1 y c2 m :
  extends c0 c1 -> y = fail m c1 -> extends y c2 ->
  exists l1 l2, trace c2 = trace c0 ++ l1 ++ Fail m :: l2.
Proof.
  intros [l1 H1] Hy [l2 H2]. exists l1, l2.
  rewrite H2, Hy. cbn [fail emit trace set_trace]. rewrite H1, <- !app_assoc. reflexivity.
Qed.

(** C5, as stated, fails: before boot, [Fretless_flush] calls midiFlush and
    not fail; and on a block whose finger slots hold a nonzero isOn,
    [Fretless_express] emits its three bytes without calling fail. *)
Lemma calls_before_boot_without_fail :
  ctxState S_init = CTXSTATE_INIT
  /\ trace (Fretless_flush S_init) = [Flush]
  /\ ctxState (Fretless_init usedMemory) = CTXSTATE_INIT
  /\ trace (Fretless_express (Fretless_init usedMemory) 0 1 f_1)
     = [Putch 0xB1; Putch 1; Putch 0].
Proof. vm_compute. repeat split; reflexivity. Qed.

(** C5, amended: while the context state is INIT, [Fretless_beginDown] and
    [Fretless_endDown] call fail with "context is not booted yet" before
    anything else; [Fretless_up], [Fretless_move] and [Fretless_express]
    have no state check and call fail when the finger slot is not on;
    [Fretless_flush] calls midiFlush and nothing else. *)
Theorem calls_before_boot (c : Fretless_context) (f : Z) :
  ctxState c = CTXSTATE_INIT ->
  (1 <= channelSpan c ->
   exists c' l, Fretless_beginDown c f = Some c'
     /\ trace c' = trace c ++ Fail "context is not booted yet" :: l)
  /\ (forall fnote pg v legato, exists l,
        trace (Fretless_endDown c f fnote pg v legato)
        = trace c ++ Fail "context is not booted yet" :: l)
  /\ (isOn (fingers c f) = FALSE ->
      (forall legato, exists l1 l2,
         trace (Fretless_up c f legato)
         = trace c ++ l1 ++ Fail "finger %d: Fretless_up && fsPtr->isOn == FALSE" :: l2)
      /\ (forall fnote v pg, 1 <= channelSpan c ->
          exists c' l1 l2, Fretless_move c f fnote v pg = Some (fnote, c')
            /\ trace c'
               = trace c ++ l1 ++ Fail "finger %d: Fretless_move && fsPtr->isOn == FALSE" :: l2)
      /\ (forall key val, exists l1 l2,
            trace (Fretless_express c f key val)
            = trace c ++ l1
              ++ Fail "finger %d: Fretless_express && fsPtr->isOn == FALSE" :: l2))
  /\ trace (Fretless_flush c) = trace c ++ [Flush].
Proof.
  intros Hinit. split; [ | split; [ | split ] ].
  - intros Hspan. destruct (beginDown_returns c f Hspan) as [c' E].
    exists c'. revert E. unfold Fretless_beginDown.
    name_step x Hx. rewrite (STATECHECK_init _ Hinit) in Hx.
    intros E.
    lazymatch type of E with
    | ?t = _ => assert (Ha : after outOpt extends x t) by frame
    end.
    destruct (Ha _ E) as [l Hl]. exists l. split; [ exact E | ].
    rewrite Hl, Hx. cbn [fail emit trace set_trace]. rewrite <- app_assoc. reflexivity.
  - intros fnote pg v legato. unfold Fretless_endDown.
    name_step x Hx. rewrite (STATECHECK_init _ Hinit) in Hx.
    lazymatch goal with
    | |- exists l, trace ?t = _ => assert (Ha : extends x t) by frame
    end.
    destruct Ha as [l Hl]. exists l.
    rewrite Hl, Hx. cbn [fail emit trace set_trace]. rewrite <- app_assoc. reflexivity.
  - intros Hoff. split; [ | split ].
    + intros legato. unfold Fretless_up.
      name_step x Hx. name_step y Hy.
      assert (Hy' : y = fail "finger %d: Fretless_up && fsPtr->isOn == FALSE" x).
      { rewrite Hy, Hx, fingers_FINGERCHECK, Hoff. reflexivity. }
      lazymatch goal with
      | |- exists l1 l2, trace ?t = _ => assert (Ha : extends y t) by frame
      end.
      refine (extends_after_fail c x y _ _ _ Hy' Ha).
      rewrite Hx. frame.
    + intros fnote v pg Hspan.
      destruct (move_returns c f fnote v pg Hspan) as [c' E].
      exists c'. revert E. unfold Fretless_move.
      name_step x Hx. name_step y Hy. name_step z Hz.
      assert (Hz' : z = fail "finger %d: Fretless_move && fsPtr->isOn == FALSE" y).
      { rewrite Hz, Hy, Hx, fingers_FNOTECHECK, fingers_FINGERCHECK, Hoff. reflexivity. }
      intros E.
      lazymatch type of E with
      | ?t = _ => assert (Ha : after outOptPair extends z t) by frame
      end.
      specialize (Ha c'). rewrite E in Ha. specialize (Ha eq_refl).
      assert (Hcy : extends c y).
      { rewrite Hy, Hx. transitivity (FINGERCHECK f c); frame. }
      destruct (extends_after_fail c y z c' _ Hcy Hz' Ha) as (l1 & l2 & Hl).
      exists l1, l2. split; [ exact E | exact Hl ].
    + intros key val. unfold Fretless_express.
      name_step x Hx. name_step y Hy.
      assert (Hy' : y = fail "finger %d: Fretless_express && fsPtr->isOn == FALSE" x).
      { rewrite Hy, Hx, fingers_FINGERCHECK, Hoff. reflexivity. }
      lazymatch goal with
      | |- exists l1 l2, trace ?t = _ => assert (Ha : extends y t) by frame
      end.
      refine (extends_after_fail c x y _ _ _ Hy' Ha).
      rewrite Hx. frame.
  - reflexivity.
Qed.

Lemma calls_before_boot_witness :
  ctxState S_init = CTXSTATE_INIT
  /\ (exists c' l, Fretless_beginDown S_init 0 = Some c'
        /\ trace c' = trace S_init ++ Fail "context is not booted yet" :: l)
  /\ (exists l, trace (Fretless_endDown S_init 0 f_60 0 f_1 0)
                = trace S_init ++ Fail "context is not booted yet" :: l)
  /\ (exists l1 l2, trace (Fretless_up S_init 0 0)
        = trace S_init ++ l1 ++ Fail "finger %d: Fretless_up && fsPtr->isOn == FALSE" :: l2).
Proof.
  assert (Hinit : ctxState S_init = CTXSTATE_INIT) by reflexivity.
  destruct (calls_before_boot S_init 0 Hinit) as (Hb & He & Hu & _).
  split; [ exact Hinit | ]. split; [ | split ].
  - refine (Hb _). vm_compute. discriminate.
  - exact (He f_60 0 f_1 0).
  - destruct (Hu eq_refl) as (Hup & _). exact (Hup 0).
Defined.

(** ** Arrays *)

Lemma upd_same {A : Type} (a : Z -> A) i v : upd a i v i = v.
Proof. unfold upd. rewrite Z.eqb_refl. reflexivity. Qed.

Lemma upd_other {A : Type} (a : Z -> A) i j v : j <> i -> upd a i v j = a j.
Proof. intros H. unfold upd. apply Z.eqb_neq in H. rewrite H. reflexivity. Qed.

Lemma fillWith_in {A : Type} n (g : A -> A) a j : 0 <= j < n -> fillWith n g a j = g (a j).
Proof.
  intros H. unfold fillWith.
  replace ((0 <=? j) && (j <? n)) with true; [ reflexivity | ].
  symmetry. apply andb_true_iff. split; [ apply Z.leb_le | apply Z.ltb_lt ]; lia.
Qed.

Lemma in_upto n s : In s (upto n) <-> 0 <= s < n.
Proof.
  unfold upto. rewrite in_map_iff. split.
  - intros (k & <- & Hk). apply in_seq in Hk. lia.
  - intros H. exists (Z.to_nat s). split; [ lia | ]. apply in_seq. lia.
Qed.

(** ** The channel that the search returns is one of the sixteen *)

Lemma allocCandidate_range c s :
  validHints c -> 0 <= lastAllocatedChannel c < CHANNELMAX -> 0 <= s < channelSpan c ->
  0 <= allocCandidate c s < CHANNELMAX.
Proof.
  unfold validHints, CHANNELMAX, allocCandidate. cbv zeta. intros (Hb & Hs & Hbs) Hl Hr.
  set (d := lastAllocatedChannel c + 1 + s - channelBase c).
  destruct (Z.le_gt_cases 0 d) as [Hd|Hd].
  - pose proof (Z.rem_bound_pos d (channelSpan c) Hd ltac:(lia)). lia.
  - assert (H1 : Z.rem d (channelSpan c) <= 0) by (apply Z.rem_nonpos; lia).
    pose proof (Z.quot_rem' d (channelSpan c)) as H2.
    assert (H3 : d ÷ channelSpan c <= 0).
    { rewrite <- (Z.opp_involutive d), Z.quot_opp_l by lia.
      pose proof (Z.quot_pos (- d) (channelSpan c) ltac:(lia) ltac:(lia)). lia. }
    assert (H4 : d <= Z.rem d (channelSpan c)) by nia.
    subst d. lia.
Qed.

Lemma allocScan_channel c f low ss ch c' :
  allocScan c f low ss = Some (ch, c') ->
  ch = 0 \/ exists s, In s ss /\ ch = allocCandidate c s.
Proof.
  induction ss as [|s ss IH]; cbn [allocScan]; [ discriminate | ].
  unfold bind at 1.
  destruct (_ <? 0).
  - intros E. apply some_inj in E. left. congruence.
  - destruct (_ =? low).
    + intros E. apply some_inj in E. right. exists s. split; [ left; reflexivity | congruence ].
    + intros E. destruct (IH E) as [H|(s' & Hs' & H)]; [ left; exact H | ].
      right. exists s'. split; [ right; exact Hs' | exact H ].
Qed.

Lemma allocLoop_channel fuel c f low ch c' :
  allocLoop fuel c f low = Some (ch, c') ->
  ch = 0 \/ exists s, 0 <= s < channelSpan c /\ ch = allocCandidate c s.
Proof.
  revert low. induction fuel as [|fuel IH]; intros low; cbn [allocLoop]; [ discriminate | ].
  destruct (allocScan c f low (upto (channelSpan c))) as [[ch1 c1]|] eqn:E.
  - intros E1. apply some_inj in E1. rewrite E1 in E.
    destruct (allocScan_channel _ _ _ _ _ _ E) as [H|(s & Hs & H)]; [ left; exact H | ].
    right. exists s. split; [ apply in_upto; exact Hs | exact H ].
  - apply IH.
Qed.

Lemma allocChannel_range c f ch c' :
  validHints c -> 0 <= lastAllocatedChannel c < CHANNELMAX ->
  Fretless_allocChannel c f = Some (ch, c') -> 0 <= ch < CHANNELMAX.
Proof.
  intros Hv Hl. unfold Fretless_allocChannel. destruct (channelSpan c <=? 0); [ discriminate | ].
  intros E. destruct (allocLoop_channel _ _ _ _ _ _ E) as [->|(s & Hs & ->)].
  - unfold CHANNELMAX. lia.
  - apply allocCandidate_range; assumption.
Qed.

(** ** Bends: what a move leaves behind *)

Ltac simpl_all :=
  cbn [fingers channels polys ctxState lastAllocatedChannel fingersDownCount
       noteChannelDownCount noteChannelDownRawBalance channelBase channelSpan
       channelBendSemis supressBends trace
       set_fingers set_channels set_polys set_ctxState set_lastAllocatedChannel
       set_fingersDownCount set_noteChannelDownCount set_noteChannelDownRawBalance
       set_channelBase set_channelSpan set_channelBendSemis set_supressBends set_trace
       isOn isSupressed samplePhase channel note bend velocity polyGroup
       nextFingerInPolyGroup prevFingerInPolyGroup nextFingerInChannel prevFingerInChannel
       visitingPolyGroup
       set_isOn set_isSupressed set_channel set_note set_bend set_velocity set_polyGroup
       set_nextFingerInPolyGroup set_prevFingerInPolyGroup set_nextFingerInChannel
       set_prevFingerInChannel set_visitingPolyGroup
       lastBend lastAftertouch currentFingerInChannel useCount
       set_lastBend set_lastAftertouch set_currentFingerInChannel set_useCount
       modFinger modChannel setPoly addDownCount setRawBalance addRawBalance
       emit midiPutch midiFlush fail logger passed fst snd].

(** Field reads through writes at the same index. *)
Ltac simp := repeat (progress (simpl_all; rewrite ?upd_same)).

(** Both sides of an equation between contexts, as explicit records. *)
Ltac unfold_ctx :=
  unfold midiPutch3, midiPutch, midiFlush, fail, logger, passed, emit,
    modFinger, modChannel, setPoly, addDownCount, addRawBalance, setRawBalance,
    set_fingers, set_channels, set_polys, set_ctxState, set_lastAllocatedChannel,
    set_fingersDownCount, set_noteChannelDownCount, set_noteChannelDownRawBalance,
    set_channelBase, set_channelSpan, set_channelBendSemis, set_supressBends, set_trace;
  simpl_all.

#[global] Instance sameData_PreOrder : PreOrder sameData.
Proof.
  split.
  - intros c. repeat split.
  - intros a b c (H1 & H2 & H3) (H4 & H5 & H6).
    split; [ congruence | split; [ congruence | transitivity b; assumption ] ].
Qed.
#[global] Instance sameData_FrameEmit : FrameEmit sameData.
Proof. split; [ exact sameData_PreOrder | .. ]; intros; repeat split. Qed.

#[global] Instance noBytes_PreOrder : PreOrder noBytes.
Proof.
  split.
  - intros c. split; [ reflexivity | ]. exists []. split; [ now rewrite app_nil_r | reflexivity ].
  - intros a b c [H1 (l1 & H2 & H3)] [H4 (l2 & H5 & H6)].
    split; [ transitivity b; assumption | ].
    exists (l1 ++ l2). split; [ now rewrite H5, H2, app_assoc | ].
    unfold bytesOf in *. rewrite flat_map_app, H3, H6. reflexivity.
Qed.

Lemma noBytes_fail m c : noBytes c (fail m c).
Proof.
  split; [ repeat split | ]. exists [Fail m]. split; reflexivity.
Qed.
#[global] Hint Extern 1 (holds noBytes _ (fail _ _)) =>
  unfold holds; simple apply noBytes_fail : frame.

Lemma noBytes_FINGERCHECK f c : noBytes c (FINGERCHECK f c).
Proof. cbv beta delta [FINGERCHECK]. frame. Qed.
Lemma noBytes_FNOTECHECK x c : noBytes c (FNOTECHECK x c).
Proof. cbv beta delta [FNOTECHECK]. frame. Qed.
#[global] Hint Extern 1 (holds noBytes _ (FINGERCHECK _ _)) =>
  unfold holds; simple apply noBytes_FINGERCHECK : frame.
#[global] Hint Extern 1 (holds noBytes _ (FNOTECHECK _ _)) =>
  unfold holds; simple apply noBytes_FNOTECHECK : frame.

#[global] Instance sameVoice_PreOrder f : PreOrder (sameVoice f).
Proof.
  split.
  - intros c. repeat split.
  - intros a b c (H1 & H2 & H3 & H4 & H5) (H6 & H7 & H8 & H9 & H10).
    split; [ transitivity b; assumption | ]. repeat split; congruence.
Qed.
#[global] Instance sameVoice_FrameEmit f : FrameEmit (sameVoice f).
Proof. split; [ exact (sameVoice_PreOrder f) | .. ]; intros; repeat split. Qed.
#[global] Instance sameVoice_FrameLedger f : FrameLedger (sameVoice f).
Proof. split; intros; repeat split. Qed.

(** A write at finger [i] that keeps note, bend, channel and isOn. *)
Lemma sameVoice_modFinger f i g c :
  (forall fs, note (g fs) = note fs /\ bend (g fs) = bend fs
              /\ channel (g fs) = channel fs /\ isOn (g fs) = isOn fs) ->
  sameVoice f c (modFinger i g c).
Proof.
  intros Hg. split; [ repeat split | ].
  simpl_all. unfold upd. destruct (f =? i) eqn:E; [ | repeat split ].
  apply Z.eqb_eq in E. subst i. apply Hg.
Qed.

Lemma sameVoice_setPoly f p v c : sameVoice f c (setPoly p v c).
Proof. repeat split. Qed.
Lemma sameVoice_modChannel f i g c : sameVoice f c (modChannel i g c).
Proof. repeat split. Qed.

#[global] Hint Extern 1 (holds (sameVoice _) _ (modFinger _ _ _)) =>
  unfold holds; simple apply sameVoice_modFinger; intros ?; repeat split : frame.
#[global] Hint Extern 1 (holds (sameVoice _) _ (setPoly _ _ _)) =>
  unfold holds; simple apply sameVoice_setPoly : frame.
#[global] Hint Extern 1 (holds (sameVoice _) _ (modChannel _ _ _)) =>
  unfold holds; simple apply sameVoice_modChannel : frame.

Lemma sameVoice_link f c g : sameVoice f c (snd (Fretless_link c g)).
Proof. cbv beta delta [Fretless_link]. frame. Qed.
#[global] Hint Extern 1 (holds (sameVoice _) _ (snd (Fretless_link _ _))) =>
  unfold holds; simple apply sameVoice_link : frame.

(** The pitch mapping reads the context only for the bend width. *)

Lemma bendFrom_ext c c' fnote n :
  channelBendSemis c' = channelBendSemis c -> bendFrom c' fnote n = bendFrom c fnote n.
Proof. intros H. unfold bendFrom. rewrite H. reflexivity. Qed.

Lemma fnoteBendFromExisting_ext c c' fnote fs fs' :
  channelBendSemis c' = channelBendSemis c -> note fs' = note fs ->
  Fretless_fnoteBendFromExisting c' fnote fs' = Fretless_fnoteBendFromExisting c fnote fs.
Proof.
  intros H1 H2. unfold Fretless_fnoteBendFromExisting, Fretless_fnoteToNoteBendPair.
  rewrite H2, !(bendFrom_ext c c') by exact H1. reflexivity.
Qed.

Lemma fnoteBendFromExisting_nearest c fnote fs :
  note fs = nearestNote fnote ->
  Fretless_fnoteBendFromExisting c fnote fs
  = (nearestNote fnote, bendFrom c fnote (nearestNote fnote)).
Proof.
  intros H. unfold Fretless_fnoteBendFromExisting, Fretless_fnoteToNoteBendPair.
  cbv zeta. rewrite H. destruct (_ || _); reflexivity.
Qed.

(** The bend test reads the bend view only. *)

Lemma bendDue_view c c' f : bendView c' f = bendView c f -> bendDue c' f = bendDue c f.
Proof.
  unfold bendView, bendDue. intros H. injection H as H1 H2 H3 H4 H5 H6.
  rewrite H1, H2, H3, H4, H5. reflexivity.
Qed.

Lemma bendView_sameData c c' f : sameData c c' -> bendView c' f = bendView c f.
Proof.
  intros (H1 & H2 & _ & _ & _ & H3). unfold bendView. rewrite H1, H2, H3. reflexivity.
Qed.

Lemma setCurrentBend_eq c f :
  Fretless_setCurrentBend c f
  = if bendDue c f
    then set_trace
           (trace c ++ [Putch ((MIDI_BEND + channel (fingers c f)) mod 256);
                        Putch (Z.land (bend (fingers c f)) 0x7f mod 256);
                        Putch (Z.land (Z.shiftr (bend (fingers c f)) 7) 0x7f mod 256)])
           (modChannel (channel (fingers c f)) (set_lastBend (bend (fingers c f))) c)
    else c.
Proof.
  unfold Fretless_setCurrentBend, bind, bendDue, Fretless_numTo7BitNums.
  destruct (_ && _); [ | reflexivity ].
  unfold_ctx. rewrite <- !app_assoc. reflexivity.
Qed.

Lemma setCurrentBend_settles c f :
  fingers (Fretless_setCurrentBend c f) = fingers c
  /\ sameHints c (Fretless_setCurrentBend c f)
  /\ bendDue (Fretless_setCurrentBend c f) f = false.
Proof.
  rewrite setCurrentBend_eq. destruct (bendDue c f) eqn:E.
  - split; [ reflexivity | split; [ repeat split | ] ].
    unfold bendDue. simp. rewrite Z.eqb_refl. reflexivity.
  - split; [ reflexivity | split; [ reflexivity | exact E ] ].
Qed.

Lemma setCurrentAftertouch_eq c f v :
  Fretless_setCurrentAftertouch c f v
  = let c1 := modFinger f (set_velocity (aftertouchVelocity v)) c in
    if negb (lastAftertouch (channels c (channel (fingers c f))) =? aftertouchVelocity v)
       && (currentFingerInChannel (channels c (channel (fingers c f))) =? f)
       && negb (isOn (fingers c f) =? 0)
       && (supressBends c =? FALSE)
    then set_trace
           (trace c ++ [Putch ((0xD0 + channel (fingers c f)) mod 256);
                        Putch (aftertouchVelocity v mod 256)])
           (modChannel (channel (fingers c f)) (set_lastAftertouch (aftertouchVelocity v)) c1)
    else c1.
Proof.
  unfold Fretless_setCurrentAftertouch, bind. simp.
  cbv zeta. destruct (_ && _); [ | reflexivity ].
  unfold_ctx. rewrite <- !app_assoc. reflexivity.
Qed.

(** Channel pressure does not touch what the bend test reads. *)
Lemma setCurrentAftertouch_effect c f v :
  let c' := Fretless_setCurrentAftertouch c f v in
  bendView c' f = bendView c f
  /\ note (fingers c' f) = note (fingers c f)
  /\ sameHints c c'
  /\ exists l, trace c' = trace c ++ l
       /\ (l = [] \/ l = [Putch ((0xD0 + channel (fingers c f)) mod 256);
                          Putch (aftertouchVelocity v mod 256)]).
Proof.
  cbv zeta. rewrite setCurrentAftertouch_eq. cbv zeta. destruct (_ && _).
  - unfold bendView. simp. repeat split. eexists. split; [ reflexivity | right; reflexivity ].
  - unfold bendView. simp. repeat split. exists []. split; [ now rewrite app_nil_r | left; reflexivity ].
Qed.

Lemma sameData_sameVoice f c c' : sameData c c' -> sameVoice f c c'.
Proof. intros (H1 & _ & H3). split; [ exact H3 | ]. rewrite H1. repeat split. Qed.

Lemma bendView_set_same_bend c f b :
  bend (fingers c f) = b -> bendView (modFinger f (set_bend b) c) f = bendView c f.
Proof. intros H. unfold bendView. simp. rewrite H. reflexivity. Qed.

Lemma sameRotation_valid c c' :
  sameRotation c c' -> validHints c -> 0 <= lastAllocatedChannel c < CHANNELMAX ->
  validHints c' /\ 0 <= lastAllocatedChannel c' < CHANNELMAX.
Proof.
  intros [(H1 & H2 & _) H3] Hv Hl. unfold validHints. rewrite H1, H2.
  split; [ exact Hv | ]. destruct H3 as [-> | ->]; [ exact Hl | unfold CHANNELMAX; lia ].
Qed.

(** The channel that [Fretless_beginDown] gives a finger is one of the
    sixteen. *)
Lemma beginDown_channel c f c' :
  validHints c -> 0 <= lastAllocatedChannel c < CHANNELMAX ->
  Fretless_beginDown c f = Some c' -> 0 <= channel (fingers c' f) < CHANNELMAX.
Proof.
  intros Hv Hl. unfold Fretless_beginDown.
  assert (Hc : sameRotation c c) by reflexivity.
  do 4 track_step sameRotation Hc.
  lazymatch type of Hc with
  | sameRotation _ ?x =>
      destruct (sameRotation_valid _ _ Hc Hv Hl) as [Hv' Hl'];
      destruct (Fretless_allocChannel x f) as [[ch c2]|] eqn:E; [ | discriminate ]
  end.
  intros H. apply some_inj in H. subst c'. simp.
  eapply allocChannel_range; eassumption.
Qed.

(** After [Fretless_endDown] the finger is settled on the pitch it went
    down on. *)
Lemma endDown_settles c f fnote pg v legato :
  0 <= channel (fingers c f) < CHANNELMAX ->
  settled (Fretless_endDown c f fnote pg v legato) f fnote.
Proof.
  intros Hch. unfold Fretless_endDown.
  assert (Hc : sameData c c) by reflexivity.
  do 5 track_step sameData Hc.
  apply (sameData_sameVoice f) in Hc.
  do 2 track_step (sameVoice f) Hc.
  lazymatch type of Hc with sameVoice _ _ ?x => rename x into x7 end.
  name_step p Hp. unfold Fretless_fnoteToNoteBendPair in Hp. cbv zeta in Hp.
  destruct p as [n b]. apply pair_equal_spec in Hp. destruct Hp as [Hn Hb].
  cbv beta iota.
  name_step x8 Hx8. name_step y Hy.
  assert (Hy1 : note (fingers y f) = n) by (rewrite Hy, Hx8; simp; reflexivity).
  assert (Hy2 : bend (fingers y f) = b) by (rewrite Hy, Hx8; simp; reflexivity).
  assert (Hy3 : channel (fingers y f) = channel (fingers c f)).
  { rewrite Hy, Hx8. simp. apply Hc. }
  assert (Hy4 : channelBendSemis y = channelBendSemis x7) by (rewrite Hy, Hx8; reflexivity).
  clear Hy Hx8 x8 Hc.
  assert (Hc : sameVoice f y y) by reflexivity.
  do 4 track_step (sameVoice f) Hc.
  lazymatch type of Hc with sameVoice _ _ ?x => rename x into x14 end.
  name_step x15 Hx15.
  destruct (setCurrentBend_settles x14 f) as (Hs1 & Hs2 & Hs3). rewrite <- Hx15 in Hs1, Hs2, Hs3.
  clear Hx15.
  lazymatch goal with
  | |- settled ?t _ _ => assert (Ht : sameData x15 t) by frame; set (T := t) in *; clearbody T
  end.
  destruct Hc as (Hh & Hv1 & Hv2 & Hv3 & Hv4).
  destruct Ht as (Ht1 & Ht2 & Ht3).
  assert (Hsemis : channelBendSemis T = channelBendSemis x7).
  { destruct Ht3 as (_ & _ & -> & _). destruct Hs2 as (_ & _ & -> & _).
    destruct Hh as (_ & _ & -> & _). exact Hy4. }
  assert (HnT : note (fingers T f) = nearestNote fnote).
  { rewrite Ht1, Hs1, Hv1, Hy1. exact Hn. }
  assert (HbT : bend (fingers T f) = bendFrom T fnote (nearestNote fnote)).
  { rewrite Ht1, Hs1, Hv2, Hy2, Hb. rewrite <- ?Hn. symmetry. apply bendFrom_ext. exact Hsemis. }
  unfold settled. rewrite (fnoteBendFromExisting_nearest T fnote _ HnT). cbn [fst snd].
  split; [ symmetry; exact HnT | split ].
  - rewrite (bendDue_view _ _ _ (bendView_set_same_bend T f _ HbT)).
    rewrite (bendDue_view _ _ _ (bendView_sameData x15 T f (conj Ht1 (conj Ht2 Ht3)))).
    exact Hs3.
  - rewrite Ht1, Hs1, Hv3, Hy3. exact Hch.
Qed.

Lemma bytesOf_app l l' : bytesOf (l ++ l') = bytesOf l ++ bytesOf l'.
Proof. unfold bytesOf. apply flat_map_app. Qed.

Lemma aftertouchVelocity_range v : 1 <= aftertouchVelocity v <= 127.
Proof.
  unfold aftertouchVelocity, Fretless_limitVal.
  destruct (Z.ltb_spec (int_of_fp (dmul (double_of_float v) (double_of_int 127))) 1);
    [ lia | ].
  rewrite Z.gtb_ltb.
  destruct (Z.ltb_spec 127 (int_of_fp (dmul (double_of_float v) (double_of_int 127)))); lia.
Qed.

Lemma bendView_set_bend c c' f b :
  bendView c' f = bendView c f ->
  bendView (modFinger f (set_bend b) c') f = bendView (modFinger f (set_bend b) c) f.
Proof.
  unfold bendView. simp. intros H. injection H as H1 H2 H3 H4 H5 H6.
  rewrite H1, H3, H4, H5, H6. reflexivity.
Qed.

(** The poly group a move visits is not among what the bend test reads. *)
Lemma move_visiting c f pg :
  let X := if (0 <=? pg) && (pg <? FINGERMAX)
           then modFinger f (set_visitingPolyGroup pg) c else c in
  bendView X f = bendView c f /\ note (fingers X f) = note (fingers c f)
  /\ sameRotation c X /\ trace X = trace c.
Proof.
  cbv zeta. destruct (_ && _); [ unfold bendView; simp | ];
    (split; [ reflexivity | split; [ reflexivity | split; [ | reflexivity ] ] ]);
    (split; [ repeat split | left; reflexivity ]).
Qed.

(** A move of a settled finger to the pitch it is settled on returns, and
    its bytes are at most one channel-pressure message. *)
Lemma settled_move c f fnote v pg :
  settled c f fnote ->
  exists c' l, Fretless_move c f fnote v pg = Some (fnote, c')
    /\ trace c' = trace c ++ l
    /\ (bytesOf l = []
        \/ bytesOf l = [(0xD0 + channel (fingers c f)) mod 256; aftertouchVelocity v mod 256]).
Proof.
  intros (HA & HB & HC). unfold Fretless_move.
  assert (Hc : noBytes c c) by reflexivity.
  do 3 track_step noBytes Hc.
  lazymatch type of Hc with noBytes _ ?x => rename x into x3 end.
  destruct Hc as ((Hf & Hch & Hh) & l0 & Ht & Hl0).
  name_step p Hp.
  assert (Hsemis : channelBendSemis x3 = channelBendSemis c) by apply Hh.
  assert (Hnote : note (fingers x3 f) = note (fingers c f)) by (rewrite Hf; reflexivity).
  rewrite (fnoteBendFromExisting_ext c x3 fnote _ _ Hsemis Hnote) in Hp.
  destruct (Fretless_fnoteBendFromExisting c fnote (fingers c f)) as [nn nb].
  cbn [fst snd] in HA, HB. subst p. cbv beta iota.
  name_step epg He. clear He. name_step X HX.
  destruct (move_visiting x3 f pg) as (V1 & V2 & _ & V4). cbv zeta in V1, V2, V4.
  rewrite <- HX in V1, V2, V4. clear HX.
  assert (En : (nn =? note (fingers X f)) = true)
    by (rewrite V2, Hnote, <- HA; apply Z.eqb_refl).
  rewrite En. unfold bind.
  set (c5 := modFinger f (set_bend nb) X).
  assert (B5 : bendView c5 f = bendView (modFinger f (set_bend nb) c) f).
  { unfold c5. rewrite (bendView_set_bend x3 X f nb V1).
    apply bendView_set_bend, bendView_sameData. split; [ exact Hf | split; assumption ]. }
  destruct (setCurrentAftertouch_effect c5 f v) as (A1 & _ & _ & la & A4 & A5).
  cbv zeta in A1, A4.
  rewrite setCurrentBend_eq, (bendDue_view _ _ _ A1), (bendDue_view _ _ _ B5), HB.
  eexists. exists (l0 ++ la). split; [ reflexivity | split ].
  - rewrite A4. unfold c5. simp. rewrite V4, Ht, app_assoc. reflexivity.
  - rewrite bytesOf_app, Hl0. cbn [app].
    assert (Hch5 : channel (fingers c5 f) = channel (fingers c f)).
    { change (channel (fingers c5 f)) with (snd (bendView c5 f)).
      rewrite B5. unfold bendView. simp. reflexivity. }
    rewrite Hch5 in A5. destruct A5 as [-> | ->]; [ left | right ]; reflexivity.
Qed.

Lemma bendView_voice c c' f :
  bendView c' f = bendView c f ->
  bend (fingers c' f) = bend (fingers c f) /\ channel (fingers c' f) = channel (fingers c f).
Proof. unfold bendView. intros H. injection H as _ H2 _ _ _ H6. split; assumption. Qed.

(** Follow two relations over one step. *)
Ltac track_step2 R Hcur S Hcur2 :=
  let x := fresh "x" in
  let Hx := fresh "Hx" in
  let Hn := fresh "Hn" in
  let Hm := fresh "Hm" in
  name_step x Hx;
  lazymatch type of Hcur with
  | R ?c0 ?xc =>
      assert (Hn : R c0 x) by (rewrite Hx; transitivity xc; [ exact Hcur | frame ]);
      assert (Hm : S c0 x) by (rewrite Hx; transitivity xc; [ exact Hcur2 | frame ]);
      clear Hx Hcur Hcur2; rename Hn into Hcur; rename Hm into Hcur2
  end.

(** Whatever a move does, bending the note or voicing it again, it leaves
    the finger settled on the pitch it moved to. *)
Lemma move_settles c f fnote v pg r c1 :
  validHints c -> 0 <= lastAllocatedChannel c < CHANNELMAX ->
  0 <= channel (fingers c f) < CHANNELMAX ->
  Fretless_move c f fnote v pg = Some (r, c1) -> settled c1 f fnote.
Proof.
  intros Hv Hl Hch. unfold Fretless_move.
  assert (Hc : noBytes c c) by reflexivity.
  assert (Hr : sameRotation c c) by reflexivity.
  do 3 track_step2 noBytes Hc sameRotation Hr.
  lazymatch type of Hc with noBytes _ ?x => rename x into x3 end.
  destruct Hc as ((Hf & _ & Hh) & _).
  name_step p Hp. destruct p as [nn nb]. cbv beta iota.
  name_step epg He. clear He. name_step X HX.
  destruct (move_visiting x3 f pg) as (V1 & V2 & V3 & _). cbv zeta in V1, V2, V3.
  rewrite <- HX in V1, V2, V3. clear HX.
  destruct (nn =? note (fingers X f)) eqn:En.
  - unfold bind. intros H. apply some_inj, pair_equal_spec in H. destruct H as [_ H].
    subst c1. apply Z.eqb_eq in En.
    set (c5 := modFinger f (set_bend nb) X).
    destruct (setCurrentAftertouch_effect c5 f v) as (A1 & A2 & A3 & _).
    cbv zeta in A1, A2, A3.
    set (c6 := Fretless_setCurrentAftertouch c5 f v) in *.
    destruct (setCurrentBend_settles c6 f) as (S1 & S2 & S3).
    set (T := Fretless_setCurrentBend c6 f) in *.
    assert (Hnote : note (fingers T f) = note (fingers x3 f)).
    { rewrite S1, A2. unfold c5. simp. exact V2. }
    assert (Hsemis : channelBendSemis T = channelBendSemis x3).
    { destruct S2 as (_ & _ & -> & _). destruct A3 as (_ & _ & -> & _).
      unfold c5. simp. apply V3. }
    destruct (bendView_voice _ _ _ A1) as [Hb6 Hc6].
    destruct (bendView_voice _ _ _ V1) as [_ HcX].
    assert (HbT : bend (fingers T f) = nb).
    { rewrite S1, Hb6. unfold c5. simp. reflexivity. }
    unfold settled.
    rewrite (fnoteBendFromExisting_ext x3 T fnote _ _ Hsemis Hnote), <- Hp. cbn [fst snd].
    split; [ rewrite Hnote, <- V2; exact En | split ].
    + rewrite (bendDue_view _ _ _ (bendView_set_same_bend T f nb HbT)). exact S3.
    + rewrite S1, Hc6. unfold c5. simp. rewrite HcX, Hf. exact Hch.
  - assert (Hx : sameRotation c X) by (transitivity x3; assumption).
    clear V1 V2 V3 Hr.
    do 2 track_step sameRotation Hx.
    lazymatch type of Hx with
    | sameRotation _ ?x =>
        destruct (sameRotation_valid _ _ Hx Hv Hl) as [Hv' Hl'];
        destruct (Fretless_beginDown x f) as [cb|] eqn:Eb
    end.
    + intros H. apply some_inj, pair_equal_spec in H. destruct H as [_ H]. subst c1.
      apply endDown_settles. eapply beginDown_channel; eassumption.
    + intros H. exfalso. exact (none_not_some _ H).
Qed.

Lemma pressure_bytes_not_bend ch vel b :
  0 <= ch < CHANNELMAX -> 1 <= vel <= 127 ->
  In b [(0xD0 + ch) mod 256; vel mod 256] -> isBendStatus b = false.
Proof.
  unfold CHANNELMAX, isBendStatus, MIDI_BEND. intros Hch Hvel [<- | [<- | []]].
  - rewrite Z.mod_small by lia.
    destruct (Z.leb_spec 0xE0 (0xD0 + ch)); [ lia | reflexivity ].
  - rewrite Z.mod_small by lia.
    destruct (Z.leb_spec 0xE0 vel); [ lia | reflexivity ].
Qed.

(** C8: from a context whose hints are valid and whose indices are those of
    the arrays, two moves of a finger in a row to the same fnote with the
    same velocity both return, and the second one sends no pitch-bend status
    byte: its bytes are at most one channel-pressure message. This holds
    for every finger, so also for one that is on and the current finger of
    its channel. *)
Theorem second_move_sends_no_bend
    (c : Fretless_context) (f : Z) (fnote v : spec_float) (pg pg' : Z) :
  validHints c -> 0 <= lastAllocatedChannel c < CHANNELMAX ->
  0 <= channel (fingers c f) < CHANNELMAX ->
  exists c1 c2 l,
    Fretless_move c f fnote v pg = Some (fnote, c1)
    /\ Fretless_move c1 f fnote v pg' = Some (fnote, c2)
    /\ trace c2 = trace c1 ++ l
    /\ (bytesOf l = []
        \/ bytesOf l = [(0xD0 + channel (fingers c1 f)) mod 256; aftertouchVelocity v mod 256])
    /\ forall b, In b (bytesOf l) -> isBendStatus b = false.
Proof.
  intros Hv Hl Hch.
  destruct (move_returns c f fnote v pg) as [c1 E1]; [ apply Hv | ].
  pose proof (move_settles c f fnote v pg fnote c1 Hv Hl Hch E1) as Hs.
  destruct (settled_move c1 f fnote v pg' Hs) as (c2 & l & E2 & Ht & Hb).
  exists c1, c2, l. repeat (split; [ assumption | ]).
  intros b Hin. destruct Hb as [Hb | Hb]; rewrite Hb in Hin; [ destruct Hin | ].
  eapply pressure_bytes_not_bend; [ apply Hs | apply aftertouchVelocity_range | exact Hin ].
Qed.

Lemma second_move_sends_no_bend_witness :
  exists c1 c2 l,
    Fretless_move S1_context 0 f_62 f_1 0 = Some (f_62, c1)
    /\ Fretless_move c1 0 f_62 f_1 0 = Some (f_62, c2)
    /\ trace c2 = trace c1 ++ l
    /\ (bytesOf l = []
        \/ bytesOf l = [(0xD0 + channel (fingers c1 0)) mod 256; aftertouchVelocity f_1 mod 256])
    /\ forall b, In b (bytesOf l) -> isBendStatus b = false.
Proof.
  apply (second_move_sends_no_bend S1_context 0 f_62 f_1 0 0).
  - repeat split; vm_compute; discriminate.
  - split; vm_compute; first [ reflexivity | discriminate ].
  - split; vm_compute; first [ reflexivity | discriminate ].
Defined.

(** ** Down and up again on a context at rest *)

Lemma fold_left_fixed {A B : Type} (f : A -> B -> A) (l : list B) (a : A) :
  (forall x, In x l -> f a x = a) -> fold_left f l a = a.
Proof.
  induction l as [|x l IH]; intros H; [ reflexivity | ].
  cbn [fold_left]. rewrite (H x) by (left; reflexivity).
  apply IH. intros y Hy. apply H. right. exact Hy.
Qed.

(** On a context that holds what the self test checks, the test finds
    nothing and reports success. *)
Lemma selfTest_tested c : tested c -> Fretless_selfTest c = passed c.
Proof.
  intros [Hn Hch Hl Hp Hf].
  assert (Hnote : forall ch, 0 <= ch < CHANNELMAX ->
            fold_left (selfTestNote ch) (upto NOTEMAX) (c, true) = (c, true)).
  { intros ch Hr. apply fold_left_fixed. intros n Hin. apply in_upto in Hin.
    destruct (Hl n ch Hin Hr) as [H1 H2].
    unfold selfTestNote, bind. cbn [fst snd]. rewrite H1. cbn [Z.eqb negb fst snd].
    rewrite H2. reflexivity. }
  assert (Hchan : fold_left selfTestChannel (upto CHANNELMAX) (c, true) = (c, true)).
  { apply fold_left_fixed. intros ch Hin. apply in_upto in Hin.
    destruct (Hch ch Hin) as [H1 H2].
    unfold selfTestChannel, bind. cbn [fst snd]. rewrite H1. cbn [Z.eqb negb].
    rewrite (Hnote ch Hin). cbn [fst snd]. rewrite H2. reflexivity. }
  assert (Hpoly : fold_left selfTestPoly (upto POLYMAX) (c, true) = (c, true)).
  { apply fold_left_fixed. intros p Hin. apply in_upto in Hin.
    unfold selfTestPoly. cbn [fst snd]. rewrite (Hp p Hin). reflexivity. }
  assert (Hfing : fold_left selfTestFinger (upto FINGERMAX) (c, true) = (c, true)).
  { apply fold_left_fixed. intros f Hin. apply in_upto in Hin.
    destruct (Hf f Hin) as (H1 & H5 & H6).
    unfold selfTestFinger, bind. cbn [fst snd]. rewrite H1.
    cbn [Z.eqb negb fst snd]. rewrite H5. unfold NOBODY. cbn [Z.eqb Pos.eqb negb fst snd].
    rewrite H6. reflexivity. }
  unfold Fretless_selfTest, bind. cbn [fst snd]. rewrite Hn. cbn [Z.eqb].
  rewrite Hchan, Hpoly, Hfing. cbn [fst snd]. rewrite Hn. reflexivity.
Qed.

Lemma clean_tested c : clean c -> tested c.
Proof.
  intros [H1 H2 H3 H4 H5]. split; try assumption.
  intros f Hf. destruct (H5 f Hf) as (F1 & _ & _ & _ & F5 & F6).
  split; [ exact F1 | split; assumption ].
Qed.



Lemma range_checks lo hi x : lo <= x < hi -> (x <? lo) || (x >=? hi) = false.
Proof.
  intros H. destruct (Z.ltb_spec x lo); [ lia | ]. rewrite Z.geb_leb.
  destruct (Z.leb_spec hi x); [ lia | reflexivity ].
Qed.











Lemma since_app c c' l : trace c' = trace c ++ l -> since c c' = l.
Proof.
  intros H. unfold since. rewrite H, skipn_app, skipn_all, Nat.sub_diag. reflexivity.
Qed.

Lemma upd2_read (t : Z -> Z -> Z) n ch v n' ch' :
  upd t n (upd (t n) ch v) n' ch' = if (n' =? n) && (ch' =? ch) then v else t n' ch'.
Proof.
  unfold upd. destruct (n' =? n) eqn:E; [ | reflexivity ].
  apply Z.eqb_eq in E. subst n'. destruct (ch' =? ch); reflexivity.
Qed.

Lemma resting_reset fs : restingFinger (Fretless_reset_FingerState fs).
Proof. repeat split. Qed.











Lemma land_7bit b : 0 <= Z.land b 0x7f < 128.
Proof.
  change 0x7f with (Z.ones 7). rewrite Z.land_ones by lia.
  change (2 ^ 7) with 128. apply Z.mod_pos_bound. lia.
Qed.


(** ** Boot leaves a context at rest *)

Lemma boot_clean c : clean (Fretless_boot c).
Proof.
  rewrite boot_eq. unfold bootState. split; simpl_ctx.
  - reflexivity.
  - intros ch H. rewrite fillWith_in by exact H. split; reflexivity.
  - intros n ch Hn Hc. unfold clearLedger.
    rewrite !(fillWith_in NOTEMAX _ _ n Hn), !(fillWith_in CHANNELMAX _ _ ch Hc).
    split; reflexivity.
  - intros p H. rewrite fillWith_in by exact H. reflexivity.
  - intros f H. rewrite fillWith_in by exact H. apply resting_reset.
Qed.

Lemma boot_idle c : validHints c -> idle (Fretless_boot c).
Proof.
  intros H. split; [ | | | apply boot_clean ]; rewrite boot_eq; unfold bootState.
  - reflexivity.
  - exact H.
  - simpl_ctx. unfold CHANNELMAX. lia.
Qed.




Lemma mod_byte b : 0 <= b < 256 -> b mod 256 = b.
Proof. apply Z.mod_small. Qed.





Lemma validHints_S_booted : validHints (withHints zeroMemory 0 2 2 FALSE).
Proof. repeat split; vm_compute; discriminate. Qed.




(** ** Scenario S1 (base 0, span 2, semis 2, bends not suppressed) *)

(** C2, as stated, fails: on a zero-filled block, booted with the hints of
    the scenarios, [beginDown(0); endDown(0, 60.0, 0, 1.0, 0)] does not emit
    the bytes 0x90 0x3C 0x7F. *)
Lemma S1_bytes_are_not_on_channel_0 :
  option_map (fun c' => bytesOf (since (bootedWith zeroMemory 0 2 2 FALSE) c'))
    (down (bootedWith zeroMemory 0 2 2 FALSE) 0 f_60 0 f_1 0)
  <> Some [0x90; 0x3C; 0x7F].
Proof. vm_compute. discriminate. Qed.

(** C2, amended: whatever the allocated block held, boot emits the
    pitch-bend-range RPN on channels 0 and 1 and nothing else, and then
    [beginDown(0); endDown(0, 60.0, 0, 1.0, 0)] adds exactly the three bytes
    0x91 0x3C 0x7F: the first allocation after boot starts the rotation
    after channel 0 and takes channel 1. *)
Theorem S1_emits_note_on_channel_1 (raw : Fretless_context) :
  let c0 := bootedWith raw 0 2 2 FALSE in
  trace c0 = map Putch
    [0xB0; 101; 0; 0xB0; 100; 0; 0xB0; 6; 2; 0xB0; 38; 0; 0xB0; 101; 127; 0xB0; 100; 127;
     0xB1; 101; 0; 0xB1; 100; 0; 0xB1; 6; 2; 0xB1; 38; 0; 0xB1; 101; 127; 0xB1; 100; 127]
  /\ option_map trace (down c0 0 f_60 0 f_1 0)
     = Some (trace c0 ++ [Putch 0x91; Putch 0x3C; Putch 0x7F]).
Proof. vm_compute. split; reflexivity. Qed.

(** ** Channel allocation right after boot *)

(** C1 fails on the code: with channelBase 5 and channelSpan 3 the setters
    and boot raise no failure, and the first [Fretless_beginDown] is given
    channel 4 by [Fretless_allocChannel], outside the span [5, 8): the
    rotation starts from lastAllocatedChannel = 0, below the base, and the C
    remainder of the negative offset is negative. *)
Theorem allocChannel_below_span_after_boot (raw : Fretless_context) :
  let c0 := bootedWith raw 5 3 2 FALSE in
  failsOf (trace c0) = []
  /\ option_map fst (Fretless_allocChannel (modFinger 0 (set_isOn TRUE) c0) 0) = Some 4
  /\ option_map (fun c' => (channel (fingers c' 0), lastAllocatedChannel c',
                            useCount (channels c' 4), failsOf (trace c')))
       (Fretless_beginDown c0 0) = Some (4, 4, 1, [])
  /\ ~ (channelBase c0 <= 4 < channelBase c0 + channelSpan c0).
Proof.
  vm_compute. repeat split; try reflexivity.
  intros [H1 H2]. apply H1. reflexivity.
Qed.

(** ** Boot with all sixteen channels *)

(** C7 fails on the code: the hints base 0, span 16, semis 2 are accepted
    by the setters without a failure, and [Fretless_boot] then calls fail,
    because it rejects base + span >= 16 where the setters keep
    base + span <= 16. *)
Theorem boot_fails_on_sixteen_channels (raw : Fretless_context) :
  let c := withHints raw 0 16 2 FALSE in
  (channelBase c, channelSpan c, channelBendSemis c) = (0, 16, 2)
  /\ failsOf (trace c) = []
  /\ failsOf (trace (Fretless_boot c))
     = ["Fretless_state.channelSpan:%d + Fretless_state.channelBase:%d >= CHANNELMAX"%string].
Proof. vm_compute. repeat split; reflexivity. Qed.

(** ** Scenario S6 of the decoder *)

(** C6 fails on the code: on the bytes 0x90 0x3C 0x64, 0xE0 0x00 0x50,
    0x80 0x3C 0x00 the engine callback is called twice, for the note-on
    (pitch 60, volume 100/127) and for the bend (pitch 60.5, volume
    100/127), and never for the note-off: after the note byte of a note-off
    the decoder expects a note byte again, so the last byte is stored as the
    note of channel 0 and the volume stays 100. *)
Theorem decoder_S6_makes_no_note_off_call :
  let s := DeMIDI.feed [0x90; 0x3C; 0x64; 0xE0; 0x00; 0x50; 0x80; 0x3C; 0x00] DeMIDI.initial in
  DeMIDI.engineCalls s
  = [DeMIDI.mkCall 0 0 f_60 f_100_127 0 0; DeMIDI.mkCall 0 0 f_60_5 f_100_127 0 0]
  /\ DeMIDI.expectState s = DeMIDI.S_OFF_BYTE_NOTE
  /\ DeMIDI.midiNote s 0 = 0
  /\ DeMIDI.midiVol s 0 = 100.
Proof. vm_compute. repeat split; reflexivity. Qed.

(** ** The channel-base hint *)

(** C10: for a base in [0,15], [Fretless_setMidiHintChannelBase] sets
    channelBase to it, lowers channelSpan to 16 - base when base plus the
    span exceeds 16 and leaves the span alone otherwise; nothing else of the
    context changes and no callback is called. *)
Theorem setMidiHintChannelBase_effect (c : Fretless_context) (base : Z) :
  0 <= base <= 15 ->
  Fretless_setMidiHintChannelBase c base
  = set_channelSpan (if base + channelSpan c >? 16 then 16 - base else channelSpan c)
      (set_channelBase base c).
Proof.
  intros Hb. unfold Fretless_setMidiHintChannelBase, bind.
  replace ((base <? 0) || (base >=? CHANNELMAX)) with false
    by (symmetry; apply orb_false_iff; unfold CHANNELMAX; split; lia).
  cbn [channelBase channelSpan set_channelBase]. unfold FINGERMAX.
  destruct (base + channelSpan c >? 16); destruct c; reflexivity.
Qed.

Lemma setMidiHintChannelBase_effect_witness :
  Fretless_setMidiHintChannelBase (Fretless_init zeroMemory) 12
  = set_channelSpan 4 (set_channelBase 12 (Fretless_init zeroMemory)).
Proof. apply (setMidiHintChannelBase_effect (Fretless_init zeroMemory) 12). lia. Defined.
(** * More of the encoder *)

(** ** Boot *)

Lemma failsOf_app l l' : failsOf (l ++ l') = failsOf l ++ failsOf l'.
Proof. unfold failsOf. apply flat_map_app. Qed.

Lemma failsOf_bytes bs : failsOf (map Putch bs) = [].
Proof. induction bs as [|b bs IH]; [ reflexivity | exact IH ]. Qed.

Lemma bytesOf_bytes bs : bytesOf (map Putch bs) = bs.
Proof. induction bs as [|b bs IH]; [ reflexivity | cbn; f_equal; exact IH ]. Qed.

Lemma bytesOf_bootFails c : bytesOf (bootFails c) = [].
Proof.
  unfold bootFails.
  destruct (channelSpan c =? 0), (channelBase c <? 0), (channelBase c >=? CHANNELMAX),
    (channelSpan c + channelBase c >=? CHANNELMAX),
    ((channelBendSemis c <? 1) || (channelBendSemis c >? 24)); reflexivity.
Qed.

Lemma length_flat_map_const {A B : Type} (n : nat) (f : A -> list B) (l : list A) :
  (forall x, List.length (f x) = n) -> List.length (flat_map f l) = (n * List.length l)%nat.
Proof.
  intros H. induction l as [|x l IH]; cbn [flat_map List.length]; [ lia | ].
  rewrite length_app, H, IH. lia.
Qed.

Lemma boot_since c :
  since c (Fretless_boot c)
  = bootFails c
    ++ map Putch (flat_map (fun k => rpnBytes (channelBase c + k) (channelBendSemis c))
                           (upto (channelSpan c))).
Proof. apply since_app. rewrite boot_eq. reflexivity. Qed.


(** X3: [Fretless_boot] calls fail exactly when the hints it finds are not
    what its checks accept: a span other than 0, a base from 0 to 15, base
    plus span below 16 (16 itself is refused), and a bend range from 1 to
    24 semitones. *)
Theorem boot_fails_exactly_when (c : Fretless_context) :
  failsOf (since c (Fretless_boot c)) = []
  <-> (channelSpan c <> 0 /\ 0 <= channelBase c < CHANNELMAX
       /\ channelSpan c + channelBase c < CHANNELMAX
       /\ 1 <= channelBendSemis c <= 24).
Proof.
  rewrite boot_since, failsOf_app, failsOf_bytes, app_nil_r. unfold bootFails, CHANNELMAX.
  rewrite !Z.geb_leb, Z.gtb_ltb.
  destruct (Z.eqb_spec (channelSpan c) 0), (Z.ltb_spec (channelBase c) 0),
    (Z.leb_spec 16 (channelBase c)), (Z.leb_spec 16 (channelSpan c + channelBase c)),
    (Z.ltb_spec (channelBendSemis c) 1), (Z.ltb_spec 24 (channelBendSemis c));
    cbn; split; intros Hx; try discriminate; try lia; try reflexivity.
Qed.

Lemma boot_bytes c :
  bytesOf (since c (Fretless_boot c))
  = flat_map (fun k => rpnBytes (channelBase c + k) (channelBendSemis c))
             (upto (channelSpan c)).
Proof.
  rewrite boot_since, bytesOf_app, bytesOf_bootFails, bytesOf_bytes. reflexivity.
Qed.

(** X4: the bytes that [Fretless_boot] sends are the pitch-bend-range RPN,
    eighteen bytes for each channel of the span in rising order, and no
    others; with a span of 0 or less it sends none. *)
Theorem boot_sends_bend_range_per_channel (c : Fretless_context) :
  bytesOf (since c (Fretless_boot c))
  = flat_map (fun k => rpnBytes (channelBase c + k) (channelBendSemis c))
             (upto (channelSpan c))
  /\ List.length (bytesOf (since c (Fretless_boot c))) = (18 * Z.to_nat (channelSpan c))%nat.
Proof.
  rewrite boot_bytes. split; [ reflexivity | ].
  rewrite (length_flat_map_const 18) by (intros k; reflexivity).
  unfold upto. rewrite length_map, length_seq. reflexivity.
Qed.

(** ** The hint setters *)

(** X5: both channel setters store their argument even when they call
    fail, and then pull the span back so that base + span is at most 16.
    [Fretless_setMidiHintChannelSpan] calls fail exactly for a span outside
    1..16, and keeps a span that fits above the base as it is. *)
Theorem channel_setters_keep_span_below_16 (c : Fretless_context) (base span : Z) :
  let c1 := Fretless_setMidiHintChannelBase c base in
  let c2 := Fretless_setMidiHintChannelSpan c span in
  channelBase c1 = base
  /\ channelBase c1 + channelSpan c1 <= 16
  /\ channelBase c2 = channelBase c
  /\ channelBase c2 + channelSpan c2 <= 16
  /\ (channelBase c + span <= 16 -> channelSpan c2 = span)
  /\ (failsOf (since c c2) = [] <-> 1 <= span <= 16).
Proof.
  cbv zeta. unfold Fretless_setMidiHintChannelBase, Fretless_setMidiHintChannelSpan, bind.
  rewrite !if_fail_eq. simpl_ctx. unfold FINGERMAX, CHANNELMAX.
  rewrite !Z.gtb_ltb.
  destruct (Z.ltb_spec 16 (base + channelSpan c));
    destruct (Z.ltb_spec 16 (channelBase c + span)); simpl_ctx;
    (split; [ reflexivity | ]); (split; [ lia | ]); (split; [ reflexivity | ]);
    (split; [ lia | ]); (split; [ intros; first [ reflexivity | lia ] | ]);
    (rewrite (since_app c _ (if (span <? 1) || (16 <? span)
                             then [Fail "%d: span < 0 || span > CHANNELMAX"] else []))
       by reflexivity);
    destruct (Z.ltb_spec span 1); destruct (Z.ltb_spec 16 span); cbn;
    split; intros Hx; try discriminate; try lia; try reflexivity.
Qed.

(** X6: a base from 0 to 15 and then a span from 1 to 16, given to the two
    setters in this order, leave valid hints without any call of fail: the
    base as given and the span as given or cut to 16 - base. *)
Theorem valid_arguments_give_valid_hints (c : Fretless_context) (base span : Z) :
  0 <= base <= 15 -> 1 <= span <= 16 ->
  let c' := Fretless_setMidiHintChannelSpan (Fretless_setMidiHintChannelBase c base) span in
  validHints c'
  /\ channelBase c' = base
  /\ channelSpan c' = Z.min span (16 - base)
  /\ trace c' = trace c.
Proof.
  intros Hb Hs. cbv zeta.
  unfold Fretless_setMidiHintChannelBase, Fretless_setMidiHintChannelSpan, bind, validHints.
  rewrite (range_checks 0 CHANNELMAX base) by (unfold CHANNELMAX; lia).
  replace ((span <? 1) || (span >? CHANNELMAX)) with false
    by (symmetry; apply orb_false_iff; unfold CHANNELMAX; rewrite Z.gtb_ltb;
        split; [ apply Z.ltb_ge | apply Z.ltb_ge ]; lia).
  simpl_ctx. unfold FINGERMAX, CHANNELMAX. rewrite !Z.gtb_ltb.
  destruct (Z.ltb_spec 16 (base + channelSpan c)); simpl_ctx;
    destruct (Z.ltb_spec 16 (base + span)); simpl_ctx;
    repeat split; lia.
Qed.

Lemma valid_arguments_give_valid_hints_witness :
  let c' := Fretless_setMidiHintChannelSpan
              (Fretless_setMidiHintChannelBase (Fretless_init zeroMemory) 12) 8 in
  validHints c'
  /\ channelBase c' = 12
  /\ channelSpan c' = Z.min 8 (16 - 12)
  /\ trace c' = trace (Fretless_init zeroMemory).
Proof.
  apply (valid_arguments_give_valid_hints (Fretless_init zeroMemory) 12 8); lia.
Defined.

(** X7: [Fretless_setMidiHintChannelBendSemis] stores the semitones even
    when it calls fail, which it does exactly outside 1..24. Before boot it
    sends nothing; on a booted context it sends the eighteen bytes of the
    pitch-bend-range RPN for each channel of the span. *)
Theorem bend_range_setter_effect (c : Fretless_context) (semitones : Z) :
  let c' := Fretless_setMidiHintChannelBendSemis c semitones in
  channelBendSemis c' = semitones
  /\ (failsOf (since c c') = [] <-> 1 <= semitones <= 24)
  /\ bytesOf (since c c')
     = if ctxState c =? CTXSTATE_BOOTED
       then flat_map (fun k => rpnBytes (channelBase c + k) semitones) (upto (channelSpan c))
       else [].
Proof.
  cbv zeta. unfold Fretless_setMidiHintChannelBendSemis, bind.
  rewrite if_fail_eq. simpl_ctx.
  set (fl := if (semitones <? 1) || (semitones >? 24)
             then [Fail "%d: semitones < 1 || semitones > 24 -- MIDI spec limits to 24"]
             else []).
  assert (Hfl : bytesOf fl = []) by (unfold fl; destruct (_ || _); reflexivity).
  assert (Hff : failsOf fl = [] <-> 1 <= semitones <= 24).
  { unfold fl. rewrite Z.gtb_ltb.
    destruct (Z.ltb_spec semitones 1); destruct (Z.ltb_spec 24 semitones); cbn;
      split; intros Hx; try discriminate; try lia; reflexivity. }
  destruct (ctxState c =? CTXSTATE_BOOTED).
  - rewrite fold_bendRangeRPN_eq. simpl_ctx.
    split; [ reflexivity | ].
    rewrite (since_app c _ (fl ++ map Putch
               (flat_map (fun k => rpnBytes (channelBase c + k) semitones)
                  (upto (channelSpan c)))))
      by (rewrite <- app_assoc; reflexivity).
    rewrite failsOf_app, failsOf_bytes, app_nil_r, bytesOf_app, Hfl, bytesOf_bytes.
    split; [ exact Hff | reflexivity ].
  - simpl_ctx. split; [ reflexivity | ].
    rewrite (since_app c _ fl) by reflexivity.
    split; [ exact Hff | exact Hfl ].
Qed.

(** ** Small helpers of the encoder *)

Lemma numTo7BitNums_sum n :
  0 <= n < 16384 ->
  fst (Fretless_numTo7BitNums n) + 128 * snd (Fretless_numTo7BitNums n) = n.
Proof.
  intros H. unfold Fretless_numTo7BitNums. cbn [fst snd].
  change 0x7f with (Z.ones 7). rewrite !Z.land_ones by lia.
  rewrite Z.shiftr_div_pow2 by lia. change (2 ^ 7) with 128.
  rewrite (Z.mod_small (n / 128) 128)
    by (split; [ apply Z.div_pos; lia | apply Z.div_lt_upper_bound; lia ]).
  pose proof (Z.div_mod n 128). lia.
Qed.

Lemma numTo7BitNums_range n :
  0 <= fst (Fretless_numTo7BitNums n) < 128 /\ 0 <= snd (Fretless_numTo7BitNums n) < 128.
Proof. unfold Fretless_numTo7BitNums. cbn [fst snd]. split; apply land_7bit. Qed.

(** X8: for a 14-bit number [Fretless_numTo7BitNums] gives two 7-bit
    halves that put together give the number back; for any int both halves
    are 7-bit. *)
Theorem numTo7BitNums_splits (n : Z) :
  0 <= fst (Fretless_numTo7BitNums n) < 128
  /\ 0 <= snd (Fretless_numTo7BitNums n) < 128
  /\ (0 <= n < 16384 ->
      fst (Fretless_numTo7BitNums n) + 128 * snd (Fretless_numTo7BitNums n) = n).
Proof.
  destruct (numTo7BitNums_range n) as [H1 H2].
  split; [ exact H1 | ]. split; [ exact H2 | apply numTo7BitNums_sum ].
Qed.

(** X9: [Fretless_limitVal] clamps: with low <= high the result lies
    between them, and a value already between them is returned as it is. *)
Theorem limitVal_clamps (low val high : Z) :
  low <= high ->
  low <= Fretless_limitVal low val high <= high
  /\ (low <= val <= high -> Fretless_limitVal low val high = val).
Proof.
  intros H. unfold Fretless_limitVal. rewrite Z.gtb_ltb.
  destruct (Z.ltb_spec val low); destruct (Z.ltb_spec high val); split; lia.
Qed.

Lemma limitVal_clamps_witness :
  1 <= Fretless_limitVal 1 300 127 <= 127
  /\ (1 <= 300 <= 127 -> Fretless_limitVal 1 300 127 = 300).
Proof. apply (limitVal_clamps 1 300 127). lia. Defined.


(** ** Channel allocation *)

(** The inner loop finds nothing exactly when no channel of the steps has a
    negative count or the count looked for. *)
Lemma allocScan_none c f low ss :
  allocScan c f low ss = None
  <-> forall s, In s ss ->
        0 <= useCount (channels c (allocCandidate c s))
        /\ useCount (channels c (allocCandidate c s)) <> low.
Proof.
  induction ss as [|s ss IH]; cbn [allocScan].
  - split; [ intros _ s [] | reflexivity ].
  - unfold bind at 1.
    destruct (Z.ltb_spec (useCount (channels c (allocCandidate c s))) 0) as [Hneg|Hneg].
    + split; [ discriminate | ]. intros H. destruct (H s (or_introl eq_refl)). lia.
    + destruct (Z.eqb_spec (useCount (channels c (allocCandidate c s))) low) as [Heq|Hne].
      * split; [ discriminate | ]. intros H. destruct (H s (or_introl eq_refl)). contradiction.
      * rewrite IH. split.
        -- intros H s' [<- | Hin]; [ split; assumption | apply H; exact Hin ].
        -- intros H s' Hin. apply H. right. exact Hin.
Qed.

(** What the inner loop returns, when the counts are not negative: the
    first step whose channel has the count looked for, taken. *)
Lemma allocScan_some c f low ss ch c' :
  (forall s, In s ss -> 0 <= useCount (channels c (allocCandidate c s))) ->
  allocScan c f low ss = Some (ch, c') ->
  exists ss1 s ss2,
    ss = ss1 ++ s :: ss2
    /\ (forall s', In s' ss1 -> useCount (channels c (allocCandidate c s')) <> low)
    /\ useCount (channels c (allocCandidate c s)) = low
    /\ ch = allocCandidate c s /\ c' = allocTake c f ch.
Proof.
  induction ss as [|s ss IH]; cbn [allocScan]; intros Hpos; [ discriminate | ].
  unfold bind at 1.
  destruct (Z.ltb_spec (useCount (channels c (allocCandidate c s))) 0) as [Hneg|Hneg].
  { specialize (Hpos s (or_introl eq_refl)). lia. }
  destruct (Z.eqb_spec (useCount (channels c (allocCandidate c s))) low) as [Heq|Hne].
  - intros E. apply some_inj in E. apply pair_equal_spec in E. destruct E as [E1 E2].
    exists [], s, ss. split; [ reflexivity | ]. split; [ intros s' [] | ].
    split; [ exact Heq | ]. split; [ symmetry; exact E1 | ]. rewrite <- E1. symmetry. exact E2.
  - intros E. destruct (IH (fun s' Hs' => Hpos s' (or_intror Hs')) E)
      as (ss1 & s0 & ss2 & H1 & H2 & H3 & H4 & H5).
    exists (s :: ss1), s0, ss2. split; [ rewrite H1; reflexivity | ].
    split; [ intros s' [<- | Hin]; [ exact Hne | apply H2; exact Hin ] | ].
    split; [ exact H3 | split; assumption ].
Qed.

(** The steps of a counting loop, split at one of them. *)
Lemma upto_split n ss1 s ss2 :
  upto n = ss1 ++ s :: ss2 ->
  0 <= s < n /\ forall s', 0 <= s' < s -> In s' ss1.
Proof.
  intros H. assert (Hs : 0 <= s < n).
  { apply in_upto. rewrite H. apply in_or_app. right. left. reflexivity. }
  split; [ exact Hs | ]. intros s' Hs'.
  assert (Hin : In s' (upto n)) by (apply in_upto; lia).
  rewrite H in Hin. apply in_app_or in Hin. destruct Hin as [Hin | [Heq | Hin]].
  - exact Hin.
  - lia.
  - exfalso. unfold upto in H.
    assert (Hsorted : forall l1 a l2, map Z.of_nat (seq 0 (Z.to_nat n)) = l1 ++ a :: l2 ->
                      forall b, In b l2 -> a < b).
    { generalize 0%nat as k. generalize (Z.to_nat n) as m.
      induction m as [|m IHm]; intros k l1 a l2 E b Hb.
      - destruct l1; discriminate.
      - cbn [seq map] in E. destruct l1 as [|x l1].
        + cbn [app] in E. injection E as <- <-.
          apply in_map_iff in Hb. destruct Hb as (j & <- & Hj). apply in_seq in Hj. lia.
        + cbn [app] in E. injection E as _ E. exact (IHm (S k) l1 a l2 E b Hb). }
    pose proof (Hsorted ss1 s ss2 H s' Hin). lia.
Qed.

(** The outer loop, from a round that no channel is below: the channel it
    takes is in the span's rotation, least used, and the first such one
    after the rotation point. *)
Lemma allocLoop_least fuel c f low ch c' :
  (forall s, 0 <= s < channelSpan c -> 0 <= useCount (channels c (allocCandidate c s))) ->
  (forall s, 0 <= s < channelSpan c -> low <= useCount (channels c (allocCandidate c s))) ->
  allocLoop fuel c f low = Some (ch, c') ->
  exists s,
    0 <= s < channelSpan c /\ ch = allocCandidate c s /\ c' = allocTake c f ch
    /\ (forall s', 0 <= s' < channelSpan c ->
          useCount (channels c ch) <= useCount (channels c (allocCandidate c s')))
    /\ (forall s', 0 <= s' < s ->
          useCount (channels c ch) < useCount (channels c (allocCandidate c s'))).
Proof.
  intros Hpos. revert low. induction fuel as [|fuel IH]; intros low Hlow; cbn [allocLoop];
    [ discriminate | ].
  destruct (allocScan c f low (upto (channelSpan c))) as [[ch1 c1]|] eqn:E.
  - intros E1. apply some_inj in E1. apply pair_equal_spec in E1. destruct E1 as [-> ->].
    destruct (allocScan_some c f low (upto (channelSpan c)) ch c')
      as (ss1 & s & ss2 & H1 & H2 & H3 & H4 & H5);
      [ intros s Hs; apply Hpos, in_upto; exact Hs | exact E | ].
    destruct (upto_split (channelSpan c) ss1 s ss2 H1) as [Hs Hbefore].
    exists s. split; [ exact Hs | ]. split; [ exact H4 | ]. split; [ exact H5 | ].
    rewrite H4, H3. split.
    + exact Hlow.
    + intros s' Hs'. specialize (H2 s' (Hbefore s' Hs')).
      specialize (Hlow s' ltac:(lia)). lia.
  - apply IH. intros s Hs.
    destruct (proj1 (allocScan_none c f low (upto (channelSpan c))) E s
                (proj2 (in_upto (channelSpan c) s) Hs)) as [_ Hne].
    specialize (Hlow s Hs). lia.
Qed.

Lemma allocTake_reads c f ch :
  useCount (channels (allocTake c f ch) ch) = useCount (channels c ch) + 1
  /\ currentFingerInChannel (channels (allocTake c f ch) ch) = f
  /\ lastAllocatedChannel (allocTake c f ch) = ch
  /\ (forall j, j <> ch -> channels (allocTake c f ch) j = channels c j)
  /\ sameHints c (allocTake c f ch).
Proof.
  unfold allocTake, bind. simp.
  destruct (negb _); [ destruct (negb _) | ]; simp;
    (split; [ reflexivity | ]); (split; [ reflexivity | ]); (split; [ reflexivity | ]);
    (split; [ intros j H; rewrite !(upd_other _ _ _ _ H); reflexivity | repeat split ]).
Qed.

Lemma upd_isOn (a : Z -> Fretless_fingerState) i v j :
  isOn v = isOn (a i) -> isOn (upd a i v j) = isOn (a j).
Proof.
  intros H. unfold upd. destruct (Z.eqb_spec j i) as [->|_]; [ exact H | reflexivity ].
Qed.

Lemma allocTake_isOn c f ch g : isOn (fingers (allocTake c f ch) g) = isOn (fingers c g).
Proof.
  unfold allocTake, bind.
  destruct (negb _); [ destruct (negb _) | ]; unfold modFinger, modChannel, fail, emit; simpl_ctx;
    repeat (rewrite upd_isOn; [ | destruct (fingers c _); reflexivity ]);
    reflexivity.
Qed.

Lemma allocScan_isOn c f low ss ch c' g :
  allocScan c f low ss = Some (ch, c') -> isOn (fingers c' g) = isOn (fingers c g).
Proof.
  induction ss as [|s ss IH]; cbn [allocScan]; [ discriminate | ].
  unfold bind. destruct (_ <? 0).
  - intros E. injection E as _ <-. reflexivity.
  - destruct (_ =? low).
    + intros E. injection E as _ <-. apply allocTake_isOn.
    + exact IH.
Qed.

Lemma allocLoop_isOn fuel c f low ch c' g :
  allocLoop fuel c f low = Some (ch, c') -> isOn (fingers c' g) = isOn (fingers c g).
Proof.
  revert low. induction fuel as [|fuel IH]; intros low; cbn [allocLoop]; [ discriminate | ].
  destruct (allocScan c f low (upto (channelSpan c))) as [[ch1 c1]|] eqn:E.
  - intros E'. injection E' as <- <-. exact (allocScan_isOn _ _ _ _ _ _ g E).
  - apply IH.
Qed.

Lemma beginDown_isOn c f c' : Fretless_beginDown c f = Some c' -> isOn (fingers c' f) = TRUE.
Proof.
  unfold Fretless_beginDown, bind.
  match goal with
  | |- match Fretless_allocChannel ?x f with _ => _ end = _ -> _ =>
      assert (H : isOn (fingers x f) = TRUE) by (unfold modFinger; simp; reflexivity);
      remember x as c4 eqn:E4; clear E4
  end.
  destruct (Fretless_allocChannel c4 f) as [[ch c5]|] eqn:E; [ | discriminate ].
  intros E'. injection E' as <-. unfold modFinger. simp.
  unfold Fretless_allocChannel in E. destruct (channelSpan c4 <=? 0); [ discriminate | ].
  rewrite (allocLoop_isOn _ _ _ _ _ _ f E). exact H.
Qed.


Lemma validHints_booted : validHints S_booted.
Proof. repeat split; vm_compute; discriminate. Qed.

Lemma last_S_booted : 0 <= lastAllocatedChannel S_booted < CHANNELMAX.
Proof. split; vm_compute; first [ reflexivity | discriminate ]. Qed.

Lemma span_S_booted : channelSpan S_booted = 2.
Proof. vm_compute. reflexivity. Qed.

Lemma counts_S_booted s :
  0 <= s < channelSpan S_booted -> 0 <= useCount (channels S_booted (allocCandidate S_booted s)).
Proof.
  rewrite span_S_booted. intros H.
  assert (Hs : s = 0 \/ s = 1) by lia.
  destruct Hs as [-> | ->]; vm_compute; discriminate.
Qed.


Lemma allocCandidate_in_span c s :
  1 <= channelSpan c -> channelBase c <= lastAllocatedChannel c + 1 -> 0 <= s ->
  channelBase c <= allocCandidate c s < channelBase c + channelSpan c.
Proof.
  intros Hs Hl H0. unfold allocCandidate. cbv zeta.
  pose proof (Z.rem_bound_pos (lastAllocatedChannel c + 1 + s - channelBase c) (channelSpan c)
                ltac:(lia) ltac:(lia)).
  lia.
Qed.

(** X12: with valid hints and no negative use count in the span, when the
    rotation point is not more than one below the base (and below 16), the
    channel that [Fretless_allocChannel] returns lies in the span
    [channelBase, channelBase + channelSpan); the hints stay and the new
    rotation point is that channel, so the same holds for the next
    allocation. *)
Theorem allocChannel_stays_in_span (c : Fretless_context) (f : Z) :
  validHints c -> 0 <= f < FINGERMAX ->
  channelBase c <= lastAllocatedChannel c + 1 -> lastAllocatedChannel c < CHANNELMAX ->
  (forall s, 0 <= s < channelSpan c -> 0 <= useCount (channels c (allocCandidate c s))) ->
  exists ch c',
    Fretless_allocChannel c f = Some (ch, c')
    /\ channelBase c <= ch < channelBase c + channelSpan c
    /\ sameHints c c'
    /\ channelBase c' <= lastAllocatedChannel c' + 1
    /\ lastAllocatedChannel c' < CHANNELMAX.
Proof.
  intros Hv Hf Hl Hl' Hpos.
  destruct (allocChannel_returns c f) as [[ch c'] E]; [ apply Hv | ].
  exists ch, c'. split; [ exact E | ].
  unfold Fretless_allocChannel in E.
  destruct (Z.leb_spec (channelSpan c) 0) as [|Hs]; [ discriminate | ].
  destruct (allocLoop_least _ c f 0 ch c' Hpos Hpos E) as (s & H1 & H2 & H3 & _).
  destruct (allocTake_reads c f ch) as (_ & _ & T3 & _ & T5).
  assert (Hch : channelBase c <= ch < channelBase c + channelSpan c)
    by (rewrite H2; apply allocCandidate_in_span; lia).
  rewrite H3. split; [ exact Hch | ]. split; [ exact T5 | ].
  rewrite T3. destruct T5 as (-> & _). destruct Hv as (_ & _ & Hv). lia.
Qed.

Lemma allocChannel_stays_in_span_witness :
  exists ch c',
    Fretless_allocChannel S_booted 0 = Some (ch, c')
    /\ channelBase S_booted <= ch < channelBase S_booted + channelSpan S_booted
    /\ sameHints S_booted c'
    /\ channelBase c' <= lastAllocatedChannel c' + 1
    /\ lastAllocatedChannel c' < CHANNELMAX.
Proof.
  apply (allocChannel_stays_in_span S_booted 0).
  - exact validHints_booted.
  - unfold FINGERMAX. lia.
  - vm_compute. discriminate.
  - vm_compute. reflexivity.
  - exact counts_S_booted.
Defined.

Lemma beginDown_never_returns c f : channelSpan c <= 0 -> Fretless_beginDown c f = None.
Proof.
  intros Hspan. unfold Fretless_beginDown.
  assert (Hc : sameHints c c) by reflexivity.
  do 4 track_step sameHints Hc.
  lazymatch type of Hc with
  | sameHints _ ?x => assert (E : Fretless_allocChannel x f = None)
  end.
  { unfold Fretless_allocChannel. destruct Hc as (_ & -> & _).
    destruct (Z.leb_spec (channelSpan c) 0); [ reflexivity | lia ]. }
  rewrite E. reflexivity.
Qed.

(** X13: for a finger slot of the context and a span that ends inside the
    sixteen channels, [Fretless_allocChannel], and with it
    [Fretless_beginDown], fails to return exactly when the span is 0 or
    less: its inner loop then has no step and the outer one counts up for
    ever. With a span of at least 1 both return. *)
Theorem allocChannel_returns_exactly_when (c : Fretless_context) (f : Z) :
  0 <= f < FINGERMAX ->
  0 <= channelBase c -> channelBase c + channelSpan c <= CHANNELMAX ->
  0 <= lastAllocatedChannel c < CHANNELMAX ->
  (Fretless_allocChannel c f = None <-> channelSpan c <= 0)
  /\ (Fretless_beginDown c f = None <-> channelSpan c <= 0).
Proof.
  intros _ _ _ _. split; split.
  - intros E. destruct (Z.le_gt_cases (channelSpan c) 0) as [H|H]; [ exact H | ].
    destruct (allocChannel_returns c f) as [r Hr]; [ lia | ]. congruence.
  - intros H. unfold Fretless_allocChannel.
    destruct (Z.leb_spec (channelSpan c) 0); [ reflexivity | lia ].
  - intros E. destruct (Z.le_gt_cases (channelSpan c) 0) as [H|H]; [ exact H | ].
    destruct (beginDown_returns c f) as [r Hr]; [ lia | ]. congruence.
  - apply beginDown_never_returns.
Qed.

Lemma allocChannel_returns_exactly_when_witness :
  (Fretless_allocChannel (set_channelSpan 0 S_booted) 0 = None
   <-> channelSpan (set_channelSpan 0 S_booted) <= 0)
  /\ (Fretless_beginDown (set_channelSpan 0 S_booted) 0 = None
      <-> channelSpan (set_channelSpan 0 S_booted) <= 0).
Proof.
  apply (allocChannel_returns_exactly_when (set_channelSpan 0 S_booted) 0).
  - unfold FINGERMAX. lia.
  - vm_compute. discriminate.
  - vm_compute. discriminate.
  - split; vm_compute; first [ reflexivity | discriminate ].
Defined.

(** X14: when the first channel the search looks at has a negative use
    count, [Fretless_allocChannel] calls fail and returns channel 0 without
    allocating anything: no use count, no current finger and no rotation
    point changes. *)
Theorem allocChannel_on_negative_count (c : Fretless_context) (f : Z) :
  validHints c -> 0 <= lastAllocatedChannel c < CHANNELMAX -> 0 <= f < FINGERMAX ->
  useCount (channels c (allocCandidate c 0)) < 0 ->
  Fretless_allocChannel c f
  = Some (0, fail "Fretless_state.channels[channel].useCount < 0 on alloc" c).
Proof.
  intros (_ & Hs & _) _ _ Hneg. unfold Fretless_allocChannel.
  destruct (Z.leb_spec (channelSpan c) 0); [ lia | ].
  cbn [allocLoop]. destruct (upto_cons (channelSpan c) Hs) as [l ->].
  cbn [allocScan]. unfold bind at 1.
  destruct (Z.ltb_spec (useCount (channels c (allocCandidate c 0))) 0); [ reflexivity | lia ].
Qed.

Lemma allocChannel_on_negative_count_witness :
  Fretless_allocChannel (modChannel 1 (set_useCount (-1)) S_booted) 0
  = Some (0, fail "Fretless_state.channels[channel].useCount < 0 on alloc"
               (modChannel 1 (set_useCount (-1)) S_booted)).
Proof.
  apply (allocChannel_on_negative_count (modChannel 1 (set_useCount (-1)) S_booted) 0).
  - repeat split; vm_compute; discriminate.
  - split; vm_compute; first [ reflexivity | discriminate ].
  - unfold FINGERMAX. lia.
  - vm_compute. reflexivity.
Defined.

(** X15: with valid hints and a rotation point among the sixteen
    channels, [Fretless_beginDown] on a finger slot of the context returns;
    the finger is then on, the channel it was given is one of the sixteen,
    and the hints are as before. *)
Theorem beginDown_gives_a_channel (c : Fretless_context) (f : Z) :
  validHints c -> 0 <= lastAllocatedChannel c < CHANNELMAX -> 0 <= f < FINGERMAX ->
  exists c', Fretless_beginDown c f = Some c'
    /\ isOn (fingers c' f) = TRUE
    /\ 0 <= channel (fingers c' f) < CHANNELMAX
    /\ sameHints c c'.
Proof.
  intros Hv Hl _. destruct (beginDown_returns c f) as [c' E]; [ apply Hv | ].
  exists c'. split; [ exact E | ].
  split; [ exact (beginDown_isOn c f c' E) | ].
  split; [ exact (beginDown_channel c f c' Hv Hl E) | ].
  assert (H : after outOpt sameHints c (Fretless_beginDown c f)) by apply frame_beginDown.
  rewrite E in H. exact (after_opt_inv sameHints c c' H).
Qed.

Lemma beginDown_gives_a_channel_witness :
  exists c', Fretless_beginDown S_booted 0 = Some c'
    /\ isOn (fingers c' 0) = TRUE
    /\ 0 <= channel (fingers c' 0) < CHANNELMAX
    /\ sameHints S_booted c'.
Proof.
  apply (beginDown_gives_a_channel S_booted 0).
  - exact validHints_booted.
  - exact last_S_booted.
  - unfold FINGERMAX. lia.
Defined.

(** * More of the decoder *)

Module DeMIDIFacts.
Import DeMIDI.

(** A check that holds on every number below a bound, by running it. *)
Lemma checked_below (P : Z -> bool) (n : Z) :
  forallb P (upto n) = true -> forall x, 0 <= x < n -> P x = true.
Proof.
  intros H x Hx. rewrite forallb_forall in H. apply H, in_upto. exact Hx.
Qed.

Lemma data_bits n : 0 <= n < 128 -> (Z.land n 0x80 =? 0) = true /\ data7 n = n.
Proof.
  intros H.
  pose proof (checked_below (fun n => (Z.land n 0x80 =? 0) && (data7 n =? n)) 128
                ltac:(vm_compute; reflexivity) n H) as E.
  cbv beta in E. apply andb_true_iff in E. destruct E as [E1 E2].
  split; [ exact E1 | apply Z.eqb_eq; exact E2 ].
Qed.

Lemma status_bits k ch :
  8 <= k < 16 -> 0 <= ch < 16 ->
  (Z.land (16 * k + ch) 0x80 =? 0) = false
  /\ Z.shiftr (Z.land (16 * k + ch) 0x00F0) 4 = k
  /\ Z.land (16 * k + ch) 0x000F = ch.
Proof.
  intros Hk Hch.
  pose proof (checked_below
                (fun c => (c <? 128)
                          || (negb (Z.land c 0x80 =? 0)
                              && (Z.shiftr (Z.land c 0x00F0) 4 =? c / 16)
                              && (Z.land c 0x000F =? c mod 16))) 256
                ltac:(vm_compute; reflexivity) (16 * k + ch) ltac:(lia)) as E.
  cbv beta in E.
  replace ((16 * k + ch) / 16) with k in E
    by (apply (Z.div_unique _ 16 k ch); lia).
  replace ((16 * k + ch) mod 16) with ch in E
    by (apply (Z.mod_unique _ 16 k ch); lia).
  destruct (Z.ltb_spec (16 * k + ch) 128); [ lia | ]. cbn [orb] in E.
  apply andb_true_iff in E. destruct E as [E E3].
  apply andb_true_iff in E. destruct E as [E1 E2].
  apply negb_true_iff in E1. apply Z.eqb_eq in E2, E3.
  split; [ exact E1 | split; assumption ].
Qed.

Lemma putch_status_byte k ch s :
  8 <= k < 16 -> 0 <= ch < 16 ->
  DeMIDI_putch (16 * k + ch) s
  = let s := set_midiChannel ch (set_midiStatus k (rested s)) in
    if k =? 0x08 then set_expectState S_OFF_BYTE_NOTE s
    else if k =? 0x09 then set_expectState S_ON_BYTE_NOTE s
    else if k =? 0x0B then set_expectState S_RPN_LO s
    else if k =? 0x0D then set_expectState S_CH_PRESS s
    else if k =? 0x0E then set_expectState S_BEND_LO s
    else printf "we don't recognize status byte %d yet." s.
Proof.
  intros Hk Hch. destruct (status_bits k ch Hk Hch) as (E1 & E2 & E3).
  unfold DeMIDI_putch. cbv zeta. fold (rested s). rewrite E1. cbn [negb].
  unfold putchStatus. cbv zeta. rewrite E2, E3. reflexivity.
Qed.

Lemma putch_data_byte n s :
  0 <= n < 128 -> expectState s <> S_EXPECT_STATUS ->
  DeMIDI_putch n s = putchData n s.
Proof.
  intros Hn Hs. destruct (data_bits n Hn) as [E1 _].
  unfold DeMIDI_putch. cbv zeta. rewrite E1. cbn [negb].
  apply Z.eqb_neq in Hs. rewrite Hs. reflexivity.
Qed.


(** One byte never leads to the state [S_OFF_BYTE_VOL]. *)
Lemma putch_expectState c s :
  expectState (DeMIDI_putch c s) = expectState s
  \/ In (expectState (DeMIDI_putch c s))
        [S_ON_BYTE_NOTE; S_ON_BYTE_VOL; S_OFF_BYTE_NOTE; S_BEND_LO; S_BEND_HI; S_RPN_LO;
         S_NRPN_LO_KEY; S_NRPN_HI_KEY; S_RPN_VAL; S_RPN_LO_KEY; S_RPN_HI_KEY; S_CH_PRESS;
         S_RPN_11].
Proof.
  unfold DeMIDI_putch. cbv zeta.
  assert (E : expectState (if expectState s =? S_EXPECT_STATUS
                           then set_midiBend (fillWith FINGERMAX (fun _ => 8192) (midiBend s)) s
                           else s) = expectState s)
    by (destruct (expectState s =? S_EXPECT_STATUS); reflexivity).
  revert E. generalize (if expectState s =? S_EXPECT_STATUS
                        then set_midiBend (fillWith FINGERMAX (fun _ => 8192) (midiBend s)) s
                        else s).
  intros s' <-. clear s.
  destruct (negb (Z.land c 128 =? 0)).
  - unfold putchStatus. cbv zeta.
    repeat match goal with
           | |- context [if ?b then _ else _] => destruct b
           end; cbn; tauto.
  - unfold putchData, putchController. cbv zeta.
    repeat match goal with
           | |- context [if ?b then _ else _] => destruct b
           end; cbn; tauto.
Qed.


(** Field reads through the setters of the decoder state. *)
Ltac dsimp :=
  cbn [expectState midiStatus midiChannel expectDataBytes midiNote midiVol doNoteAttack
       midiExprParm midiExpr midiPitchBendSemis midiBend nrpnKeyLo nrpnKeyHi rpnKeyLo
       rpnKeyHi rpnVal expectNoteTie isRegistered engineCalls printed
       set_expectState set_midiStatus set_midiChannel set_midiNote set_midiVol
       set_midiExprParm set_midiExpr set_midiPitchBendSemis set_midiBend set_nrpnKeyLo
       set_nrpnKeyHi set_rpnKeyLo set_rpnKeyHi set_rpnVal set_isRegistered set_engineCalls
       set_printed rawEngine printf].

Lemma rested_reads s :
  expectState (rested s) = expectState s
  /\ engineCalls (rested s) = engineCalls s
  /\ printed (rested s) = printed s
  /\ midiVol (rested s) = midiVol s
  /\ midiNote (rested s) = midiNote s
  /\ doNoteAttack (rested s) = doNoteAttack s
  /\ midiExprParm (rested s) = midiExprParm s
  /\ midiExpr (rested s) = midiExpr s
  /\ midiPitchBendSemis (rested s) = midiPitchBendSemis s.
Proof. unfold rested. destruct (expectState s =? S_EXPECT_STATUS); repeat split. Qed.

Lemma feed_app l l' s : feed (l ++ l') s = feed l' (feed l s).
Proof. unfold feed. apply fold_left_app. Qed.

Lemma feed_cons c l s : feed (c :: l) s = feed l (DeMIDI_putch c s).
Proof. reflexivity. Qed.

Lemma not_off_vol_feed bs s :
  expectState s <> S_OFF_BYTE_VOL -> expectState (feed bs s) <> S_OFF_BYTE_VOL.
Proof.
  revert s. induction bs as [|c bs IH]; intros s H; [ exact H | ].
  rewrite feed_cons. apply IH.
  destruct (putch_expectState c s) as [E | E]; [ rewrite E; exact H | ].
  cbn [In] in E. intros E4. rewrite E4 in E.
  repeat (destruct E as [E | E]; [ discriminate E | ]). exact E.
Qed.

(** X16: whatever bytes the decoder is fed from its initial state, it is
    never in the state [S_OFF_BYTE_VOL]: the only code that calls the engine
    for a Note-Off, with volume 0, is never reached. *)
Theorem decoder_never_expects_off_volume (bs : list Z) :
  expectState (feed bs initial) <> S_OFF_BYTE_VOL.
Proof. apply not_off_vol_feed. discriminate. Qed.

Lemma off_data_bytes ds s :
  expectState s = S_OFF_BYTE_NOTE -> (forall d, In d ds -> 0 <= d < 128) ->
  expectState (feed ds s) = S_OFF_BYTE_NOTE
  /\ engineCalls (feed ds s) = engineCalls s
  /\ midiVol (feed ds s) = midiVol s.
Proof.
  revert s. induction ds as [|d ds IH]; intros s Hs Hd; [ repeat split; exact Hs | ].
  rewrite feed_cons, putch_data_byte
    by (first [ apply Hd; left; reflexivity | rewrite Hs; discriminate ]).
  unfold putchData. cbv zeta. rewrite Hs. cbn [Z.eqb Pos.eqb S_OFF_BYTE_NOTE S_ON_BYTE_NOTE
    S_ON_BYTE_VOL].
  destruct (IH (set_expectState 3
                  (set_midiNote (upd (midiNote s) (midiChannel s) (data7 d)) s)))
    as (H1 & H2 & H3); [ reflexivity | intros d' Hd'; apply Hd; right; exact Hd' | ].
  split; [ exact H1 | split; [ exact H2 | exact H3 ] ].
Qed.

(** X17: a Note-Off status byte, with whatever data bytes follow it, makes
    no call of the engine and leaves every stored volume as it was: the
    decoder stays in [S_OFF_BYTE_NOTE] and takes each data byte as a note
    number. *)
Theorem note_off_makes_no_call (s : state) (ch : Z) (ds : list Z) :
  0 <= ch < 16 -> (forall d, In d ds -> 0 <= d < 128) ->
  engineCalls (feed (0x80 + ch :: ds) s) = engineCalls s
  /\ midiVol (feed (0x80 + ch :: ds) s) = midiVol s
  /\ expectState (feed (0x80 + ch :: ds) s) = S_OFF_BYTE_NOTE.
Proof.
  intros Hch Hd. rewrite feed_cons. change (0x80 + ch) with (16 * 8 + ch).
  rewrite putch_status_byte by lia. cbv zeta. cbn [Z.eqb Pos.eqb].
  destruct (rested_reads s) as (R1 & R2 & R3 & R4 & _).
  destruct (off_data_bytes ds
              (set_expectState S_OFF_BYTE_NOTE (set_midiChannel ch (set_midiStatus 8 (rested s)))))
    as (H1 & H2 & H3); [ reflexivity | exact Hd | ].
  rewrite H1, H2, H3. dsimp. rewrite R2, R4. repeat split.
Qed.

Lemma note_off_makes_no_call_witness :
  engineCalls (feed (0x80 + 0 :: [0x3C; 0x00]) initial) = engineCalls initial
  /\ midiVol (feed (0x80 + 0 :: [0x3C; 0x00]) initial) = midiVol initial
  /\ expectState (feed (0x80 + 0 :: [0x3C; 0x00]) initial) = S_OFF_BYTE_NOTE.
Proof.
  apply (note_off_makes_no_call initial 0 [0x3C; 0x00]).
  - lia.
  - intros d [<- | [<- | []]]; lia.
Defined.


Lemma note_on_state s ch n v :
  0 <= ch < 16 -> 0 <= n < 128 -> 0 <= v < 128 ->
  feed [0x90 + ch; n; v] s
  = let s1 := set_midiNote (upd (midiNote (rested s)) ch n)
                (set_midiChannel ch (set_midiStatus 9 (rested s))) in
    let s2 := set_expectState S_ON_BYTE_NOTE (set_midiVol (upd (midiVol s1) ch v) s1) in
    rawEngine ch (doNoteAttack s2) (computePitch s2 ch) (computeVol s2 ch)
      (midiExprParm s2) (midiExpr s2) s2.
Proof.
  intros Hch Hn Hv. rewrite !feed_cons. change (0x90 + ch) with (16 * 9 + ch).
  rewrite putch_status_byte by lia. cbv zeta. cbn [Z.eqb Pos.eqb].
  destruct (data_bits n Hn) as [_ Dn]. destruct (data_bits v Hv) as [_ Dv].
  rewrite (putch_data_byte n) by (first [ exact Hn | dsimp; discriminate ]).
  unfold putchData at 1. cbv zeta. dsimp. cbn [Z.eqb Pos.eqb S_ON_BYTE_NOTE].
  rewrite (putch_data_byte v) by (first [ exact Hv | dsimp; discriminate ]).
  unfold putchData. cbv zeta. dsimp. cbn [Z.eqb Pos.eqb S_ON_BYTE_NOTE S_ON_BYTE_VOL feed
    fold_left].
  rewrite Dn, Dv. reflexivity.
Qed.

(** X18: a Note-On message on channel [ch], in whatever state it arrives,
    stores note and velocity for the channel and calls the engine once, with
    the channel, the pitch and the volume computed from what is then stored;
    a velocity of 0 gives the volume +0. The decoder then expects a note
    again (running status). *)
Theorem note_on_makes_one_call (s : state) (ch n v : Z) :
  0 <= ch < 16 -> 0 <= n < 128 -> 0 <= v < 128 ->
  let s' := feed [0x90 + ch; n; v] s in
  engineCalls s'
  = engineCalls s ++ [mkCall ch (doNoteAttack s) (computePitch s' ch) (computeVol s' ch)
                        (midiExprParm s) (midiExpr s)]
  /\ midiNote s' ch = n /\ midiVol s' ch = v
  /\ expectState s' = S_ON_BYTE_NOTE
  /\ (v = 0 -> computeVol s' ch = S754_zero false).
Proof.
  intros Hch Hn Hv. cbv zeta. rewrite (note_on_state s ch n v Hch Hn Hv). cbv zeta.
  destruct (rested_reads s) as (R1 & R2 & R3 & R4 & R5 & R6 & R7 & R8 & R9).
  unfold computePitch, computeVol. dsimp. rewrite R2, R6, R7, R8, !upd_same.
  repeat (split; [ reflexivity | ]).
  intros ->. vm_compute. reflexivity.
Qed.

Lemma note_on_makes_one_call_witness :
  let s' := feed [0x90 + 1; 60; 0] initial in
  engineCalls s'
  = engineCalls initial
    ++ [mkCall 1 (doNoteAttack initial) (computePitch s' 1) (computeVol s' 1)
          (midiExprParm initial) (midiExpr initial)]
  /\ midiNote s' 1 = 60 /\ midiVol s' 1 = 0
  /\ expectState s' = S_ON_BYTE_NOTE
  /\ (0 = 0 -> computeVol s' 1 = S754_zero false).
Proof. apply (note_on_makes_one_call initial 1 60 0); lia. Defined.


(** One byte of a fed sequence at a time. *)
Ltac const_simp :=
  cbn [Z.eqb Pos.eqb negb andb orb
       S_EXPECT_STATUS S_ON_BYTE_NOTE S_ON_BYTE_VOL S_OFF_BYTE_NOTE S_OFF_BYTE_VOL S_BEND_LO
       S_BEND_HI S_RPN_LO S_RPN_HI S_NRPN_LO_KEY S_NRPN_HI_KEY S_RPN_VAL S_RPN_LO_KEY
       S_RPN_HI_KEY S_CH_PRESS S_RPN_11].

Ltac status_step k :=
  rewrite feed_cons;
  lazymatch goal with
  | |- context [DeMIDI_putch (?b + ?ch) ?s] =>
      change (DeMIDI_putch (b + ch) s) with (DeMIDI_putch (16 * k + ch) s);
      rewrite (putch_status_byte k ch s) by lia
  end;
  cbv zeta; const_simp.

Ltac data_step :=
  rewrite feed_cons;
  lazymatch goal with
  | |- context [DeMIDI_putch ?d ?s] =>
      rewrite (putch_data_byte d s) by (first [ lia | dsimp; const_simp; discriminate ])
  end;
  unfold putchData, putchController; cbv zeta; dsimp;
  repeat match goal with
         | |- context [data7 ?x] => rewrite (proj2 (data_bits x ltac:(lia)))
         end;
  const_simp; dsimp.

Lemma bend_state s ch lo hi :
  0 <= ch < 16 -> 0 <= lo < 128 -> 0 <= hi < 128 ->
  feed [0xE0 + ch; lo; hi] s
  = let s1 := set_midiChannel ch (set_midiStatus 14 (rested s)) in
    let s2 := set_expectState S_BEND_LO
                (set_midiBend (upd (upd (midiBend s1) ch lo) ch (Z.shiftl hi 7 + lo))
                   (set_expectState S_BEND_HI
                      (set_midiBend (upd (midiBend s1) ch lo)
                         (set_expectState S_BEND_LO s1)))) in
    rawEngine ch (doNoteAttack s2) (computePitch s2 ch) (computeVol s2 ch)
      (midiExprParm s2) (midiExpr s2) s2.
Proof.
  intros Hch Hlo Hhi. status_step 14. data_step. data_step.
  rewrite !upd_same. reflexivity.
Qed.


(** X19: a pitch-bend message whose two data bytes are the halves that the
    encoder's [Fretless_numTo7BitNums] makes of a 14-bit bend gives the
    decoder that bend back for the channel, and makes one call of the
    engine with the pitch computed from it. *)
Theorem bend_message_round_trip (s : state) (ch b : Z) :
  0 <= ch < 16 -> 0 <= b < 16384 ->
  let s' := feed [0xE0 + ch; fst (Fretless_numTo7BitNums b); snd (Fretless_numTo7BitNums b)]
              s in
  midiBend s' ch = b
  /\ engineCalls s'
     = engineCalls s ++ [mkCall ch (doNoteAttack s) (computePitch s' ch) (computeVol s' ch)
                           (midiExprParm s) (midiExpr s)]
  /\ expectState s' = S_BEND_LO.
Proof.
  intros Hch Hb. cbv zeta.
  destruct (numTo7BitNums_range b) as [Hlo Hhi].
  pose proof (numTo7BitNums_sum b Hb) as Hsum.
  rewrite (bend_state s ch _ _ Hch Hlo Hhi). cbv zeta.
  destruct (rested_reads s) as (R1 & R2 & R3 & R4 & R5 & R6 & R7 & R8 & R9).
  unfold computePitch, computeVol. dsimp. rewrite R2, R6, R7, R8, !upd_same.
  rewrite Z.shiftl_mul_pow2 by lia. change (2 ^ 7) with 128.
  replace (snd (Fretless_numTo7BitNums b) * 128 + fst (Fretless_numTo7BitNums b)) with b
    by lia.
  repeat split.
Qed.

Lemma bend_message_round_trip_witness :
  let s' := feed [0xE0 + 3; fst (Fretless_numTo7BitNums 10240);
                  snd (Fretless_numTo7BitNums 10240)] initial in
  midiBend s' 3 = 10240
  /\ engineCalls s'
     = engineCalls initial
       ++ [mkCall 3 (doNoteAttack initial) (computePitch s' 3) (computeVol s' 3)
             (midiExprParm initial) (midiExpr initial)]
  /\ expectState s' = S_BEND_LO.
Proof. apply (bend_message_round_trip initial 3 10240); lia. Defined.


Lemma rested_id s : expectState s <> S_EXPECT_STATUS -> rested s = s.
Proof. intros H. unfold rested. apply Z.eqb_neq in H. rewrite H. reflexivity. Qed.

Ltac status_next k :=
  status_step k; rewrite ?rested_id by (dsimp; const_simp; discriminate).

Lemma noteTie_bytes c fs :
  bytesOf (since c (Fretless_noteTie c fs))
  = [(0xB0 + channel fs) mod 256; 0x63; 9; (0xB0 + channel fs) mod 256; 0x62; 71;
     (0xB0 + channel fs) mod 256; 6; note fs mod 256].
Proof.
  rewrite (since_app c _ (map Putch
             [(0xB0 + channel fs) mod 256; 0x63; 9; (0xB0 + channel fs) mod 256; 0x62; 71;
              (0xB0 + channel fs) mod 256; 6; note fs mod 256])).
  - apply bytesOf_bytes.
  - unfold Fretless_noteTie. change (Fretless_numTo7BitNums 1223) with (71, 9).
    unfold bind. rewrite !midiPutch3_eq. simpl_ctx. rewrite <- !app_assoc. reflexivity.
Qed.

Lemma note_tie_state s ch n :
  0 <= ch < 16 -> 0 <= n < 128 ->
  exists s',
    feed [0xB0 + ch; 0x63; 9; 0xB0 + ch; 0x62; 71; 0xB0 + ch; 6; n] s = s'
    /\ engineCalls s'
       = engineCalls s ++ [mkCall ch 1 (float_of_int 0) (float_of_int 0) 0 0]
    /\ midiPitchBendSemis s' = midiPitchBendSemis s
    /\ (nrpnKeyLo s', nrpnKeyHi s', isRegistered s') = (9, 71, 0).
Proof.
  intros Hch Hn. eexists. split.
  - status_next 11. data_step. data_step.
    status_next 11. data_step. data_step.
    status_next 11. data_step. data_step.
    reflexivity.
  - destruct (rested_reads s) as (R1 & R2 & R3 & R4 & R5 & R6 & R7 & R8 & R9).
    unfold feed. cbn [fold_left]. dsimp. rewrite R2, R9. repeat split.
Qed.

(** X20: the nine bytes that the encoder's [Fretless_noteTie] sends for a
    finger slot (NRPN 1223, as coarse 9 and fine 71, with the note as value)
    make the decoder call the engine once with the note-tie call: the
    channel, attack 1 and zeros. The bend range of the decoder is not
    touched. *)
Theorem note_tie_round_trip (c : Fretless_context) (fs : Fretless_fingerState) (s : state) :
  0 <= channel fs < 16 -> 0 <= note fs < 128 ->
  let s' := feed (bytesOf (since c (Fretless_noteTie c fs))) s in
  engineCalls s'
  = engineCalls s ++ [mkCall (channel fs) 1 (float_of_int 0) (float_of_int 0) 0 0]
  /\ midiPitchBendSemis s' = midiPitchBendSemis s.
Proof.
  intros Hch Hn. cbv zeta. rewrite noteTie_bytes, !mod_byte by lia.
  destruct (note_tie_state s (channel fs) (note fs) Hch Hn) as (s' & -> & H1 & H2 & _).
  split; assumption.
Qed.

Lemma note_tie_round_trip_witness :
  let fs := mkFinger 1 0 (S754_zero false) 2 60 8192 100 0 (-1) (-1) (-1) (-1) (-1) in
  let s' := feed (bytesOf (since S_booted (Fretless_noteTie S_booted fs))) initial in
  engineCalls s'
  = engineCalls initial ++ [mkCall (channel fs) 1 (float_of_int 0) (float_of_int 0) 0 0]
  /\ midiPitchBendSemis s' = midiPitchBendSemis initial.
Proof.
  apply (note_tie_round_trip S_booted
           (mkFinger 1 0 (S754_zero false) 2 60 8192 100 0 (-1) (-1) (-1) (-1) (-1)) initial);
    cbn [channel note]; lia.
Defined.


Lemma rpn_state s ch semis :
  0 <= ch < 16 -> 0 <= semis < 128 ->
  exists s',
    feed (rpnBytes ch semis) s = s'
    /\ midiPitchBendSemis s' = semis
    /\ engineCalls s' = engineCalls s.
Proof.
  intros Hch Hs. unfold rpnBytes. rewrite !mod_byte by lia. eexists. split.
  - status_next 11. data_step. data_step.
    status_next 11. data_step. data_step.
    status_next 11. data_step. data_step.
    status_next 11. data_step. data_step.
    status_next 11. data_step. data_step.
    status_next 11. data_step. data_step.
    reflexivity.
  - destruct (rested_reads s) as (R1 & R2 & R3 & R4 & R5 & R6 & R7 & R8 & R9).
    unfold feed. cbn [fold_left]. dsimp. rewrite R2. split; reflexivity.
Qed.

Lemma rpn_states s base semis l :
  (forall k, In k l -> 0 <= base + k < 16) -> 0 <= semis < 128 -> l <> [] ->
  let s' := feed (flat_map (fun k => rpnBytes (base + k) semis) l) s in
  midiPitchBendSemis s' = semis /\ engineCalls s' = engineCalls s.
Proof.
  cbv zeta. revert s. induction l as [|k l IH]; intros s Hl Hs Hne; [ contradiction | ].
  cbn [flat_map]. rewrite feed_app.
  destruct (rpn_state s (base + k) semis (Hl k (or_introl eq_refl)) Hs) as (s1 & -> & H1 & H2).
  destruct l as [|k' l].
  - cbn [flat_map feed fold_left]. split; assumption.
  - destruct (IH s1 (fun j Hj => Hl j (or_intror Hj)) Hs ltac:(discriminate)) as [H3 H4].
    split; [ exact H3 | rewrite H4; exact H2 ].
Qed.

(** X21: with valid hints and a bend range below 128, the bytes that the
    encoder's [Fretless_boot] sends, fed to the decoder in whatever state it
    is, set the decoder's bend range to the encoder's and make no call of
    the engine. *)
Theorem boot_bend_range_reaches_decoder (c : Fretless_context) (s : state) :
  validHints c -> 0 <= channelBendSemis c < 128 ->
  let s' := feed (bytesOf (since c (Fretless_boot c))) s in
  midiPitchBendSemis s' = channelBendSemis c /\ engineCalls s' = engineCalls s.
Proof.
  intros (Hb & Hs & Hbs) Hsemis. cbv zeta. rewrite boot_bytes.
  apply rpn_states.
  - intros k Hk. apply in_upto in Hk. unfold CHANNELMAX in Hbs. lia.
  - exact Hsemis.
  - destruct (upto_cons (channelSpan c) Hs) as [l ->]. discriminate.
Qed.

Lemma boot_bend_range_reaches_decoder_witness :
  let s' := feed (bytesOf (since (withHints zeroMemory 0 2 2 FALSE)
                             (Fretless_boot (withHints zeroMemory 0 2 2 FALSE)))) initial in
  midiPitchBendSemis s' = channelBendSemis (withHints zeroMemory 0 2 2 FALSE)
  /\ engineCalls s' = engineCalls initial.
Proof.
  apply (boot_bend_range_reaches_decoder (withHints zeroMemory 0 2 2 FALSE) initial).
  - exact validHints_S_booted.
  - split; vm_compute; first [ reflexivity | discriminate ].
Defined.


(** X22: a status byte that the decoder does not know (0xA0 to 0xAF, 0xC0
    to 0xCF, 0xF0 to 0xFF) prints a line and makes no call, but it does
    switch the current channel while the expected state stays: a data pair
    that follows while a note is expected is taken as a Note-On on the new
    channel. *)
Theorem unrecognised_status_switches_channel (s : state) (k ch n v : Z) :
  k = 10 \/ k = 12 \/ k = 15 -> 0 <= ch < 16 -> 0 <= n < 128 -> 0 <= v < 128 ->
  let s1 := DeMIDI_putch (16 * k + ch) s in
  expectState s1 = expectState s
  /\ midiChannel s1 = ch
  /\ engineCalls s1 = engineCalls s
  /\ printed s1 = printed s ++ ["we don't recognize status byte %d yet."%string]
  /\ (expectState s = S_ON_BYTE_NOTE ->
      let s' := feed [16 * k + ch; n; v] s in
      engineCalls s'
      = engineCalls s ++ [mkCall ch (doNoteAttack s) (computePitch s' ch) (computeVol s' ch)
                            (midiExprParm s) (midiExpr s)]
      /\ midiNote s' ch = n /\ midiVol s' ch = v).
Proof.
  intros Hk Hch Hn Hv. cbv zeta.
  destruct (rested_reads s) as (R1 & R2 & R3 & R4 & R5 & R6 & R7 & R8 & R9).
  assert (E : DeMIDI_putch (16 * k + ch) s
              = printf "we don't recognize status byte %d yet."
                  (set_midiChannel ch (set_midiStatus k (rested s)))).
  { rewrite putch_status_byte by lia. cbv zeta.
    destruct Hk as [-> | [-> | ->]]; reflexivity. }
  rewrite feed_cons, E. dsimp. rewrite R1, R2, R3.
  do 4 (split; [ reflexivity | ]). intros Hs.
  rewrite rested_id by (rewrite Hs; discriminate).
  assert (E2 : exists s',
             feed [n; v] (printf "we don't recognize status byte %d yet."
                            (set_midiChannel ch (set_midiStatus k s))) = s'
             /\ engineCalls s'
                = engineCalls s ++ [mkCall ch (doNoteAttack s) (computePitch s' ch)
                                      (computeVol s' ch) (midiExprParm s) (midiExpr s)]
             /\ midiNote s' ch = n /\ midiVol s' ch = v).
  { eexists. split.
    - rewrite feed_cons, putch_data_byte by (first [ lia | dsimp; rewrite Hs; discriminate ]).
      unfold putchData at 1. cbv zeta. dsimp. rewrite Hs. const_simp.
      rewrite (proj2 (data_bits n Hn)). data_step. reflexivity.
    - unfold feed. cbn [fold_left]. unfold computePitch, computeVol. dsimp.
      rewrite !upd_same. repeat split. }
  destruct E2 as (s' & -> & H1 & H2 & H3). repeat split; assumption.
Qed.

Lemma unrecognised_status_switches_channel_witness :
  let s := DeMIDI_putch 0x90 initial in
  let s1 := DeMIDI_putch (16 * 12 + 5) s in
  expectState s1 = expectState s
  /\ midiChannel s1 = 5
  /\ engineCalls s1 = engineCalls s
  /\ printed s1 = printed s ++ ["we don't recognize status byte %d yet."%string]
  /\ (expectState s = S_ON_BYTE_NOTE ->
      let s' := feed [16 * 12 + 5; 7; 9] s in
      engineCalls s'
      = engineCalls s ++ [mkCall 5 (doNoteAttack s) (computePitch s' 5) (computeVol s' 5)
                            (midiExprParm s) (midiExpr s)]
      /\ midiNote s' 5 = 7 /\ midiVol s' 5 = 9).
Proof.
  apply (unrecognised_status_switches_channel (DeMIDI_putch 0x90 initial) 12 5 7 9);
    [ right; left; reflexivity | lia | lia | lia ].
Defined.



(** X24: data bytes that arrive before any status byte are dropped: each
    prints a line, none calls the engine or changes a stored note or
    volume, and the decoder keeps expecting a status byte. *)
Theorem data_before_status_is_dropped (s : state) (ds : list Z) :
  expectState s = S_EXPECT_STATUS -> (forall d, In d ds -> 0 <= d < 128) ->
  expectState (feed ds s) = S_EXPECT_STATUS
  /\ engineCalls (feed ds s) = engineCalls s
  /\ midiNote (feed ds s) = midiNote s /\ midiVol (feed ds s) = midiVol s
  /\ List.length (printed (feed ds s)) = (List.length (printed s) + List.length ds)%nat.
Proof.
  revert s. induction ds as [|d ds IH]; intros s Hs Hd.
  - cbn [feed fold_left List.length]. repeat split; [ exact Hs | lia ].
  - rewrite feed_cons.
    assert (E : DeMIDI_putch d s
                = printf "illegal state. we didn't start with status byte!" (rested s)).
    { destruct (data_bits d (Hd d (or_introl eq_refl))) as [E1 _].
      unfold DeMIDI_putch. cbv zeta. fold (rested s). rewrite E1. cbn [negb].
      destruct (rested_reads s) as (R1 & _).
      unfold putchData. cbv zeta. rewrite R1, Hs. reflexivity. }
    rewrite E. destruct (rested_reads s) as (R1 & R2 & R3 & R4 & R5 & _).
    destruct (IH (printf "illegal state. we didn't start with status byte!" (rested s)))
      as (H1 & H2 & H3 & H4 & H5);
      [ dsimp; rewrite R1; exact Hs | intros d' Hd'; apply Hd; right; exact Hd' | ].
    rewrite H1, H2, H3, H4, H5. dsimp. rewrite R2, R3, R4, R5, length_app.
    cbn [List.length]. repeat split. lia.
Qed.

Lemma data_before_status_is_dropped_witness :
  expectState (feed [60; 100] initial) = S_EXPECT_STATUS
  /\ engineCalls (feed [60; 100] initial) = engineCalls initial
  /\ midiNote (feed [60; 100] initial) = midiNote initial
  /\ midiVol (feed [60; 100] initial) = midiVol initial
  /\ List.length (printed (feed [60; 100] initial))
     = (List.length (printed initial) + List.length [60; 100])%nat.
Proof.
  apply (data_before_status_is_dropped initial [60; 100]).
  - reflexivity.
  - intros d [<- | [<- | []]]; lia.
Defined.

End DeMIDIFacts.

(** * The self test *)

#[global] Instance sameButBalance_PreOrder : PreOrder sameButBalance.
Proof.
  split.
  - intros c. repeat split. intros n ch H. exact H.
  - intros a b c (A1 & A2 & A3 & A4 & A5 & A6 & A7 & A8 & A9)
                 (B1 & B2 & B3 & B4 & B5 & B6 & B7 & B8 & B9).
    split; [ congruence | ]. split; [ congruence | ]. split; [ congruence | ].
    split; [ congruence | ]. split; [ congruence | ].
    split; [ transitivity b; assumption | ].
    split; [ congruence | ]. split; [ congruence | ].
    intros n ch H. apply B9, A9, H.
Qed.

Lemma sameButBalance_emit e c : sameButBalance c (emit e c).
Proof. repeat split. intros n ch H. exact H. Qed.

Lemma sameButBalance_zero n ch c : sameButBalance c (setRawBalance n ch 0 c).
Proof.
  repeat split. intros n' ch' H. unfold setRawBalance. simpl_ctx. rewrite upd2_read.
  destruct ((n' =? n) && (ch' =? ch)); [ reflexivity | exact H ].
Qed.

Lemma sameButBalance_failTest m st : sameButBalance (fst st) (fst (failTest m st)).
Proof. apply sameButBalance_emit. Qed.

(** A loop of checks: the context is kept, and when the flag is still up
    afterwards, it was up before and every check of the loop held. *)
Lemma fold_checks {X : Type} (F : testState -> X -> testState)
    (Q : X -> Fretless_context -> Prop) (l : list X) :
  (forall st x, sameButBalance (fst st) (fst (F st x))
                /\ (snd (F st x) = true -> snd st = true /\ Q x (fst (F st x)))) ->
  (forall x c c', sameButBalance c c' -> Q x c -> Q x c') ->
  forall st,
    sameButBalance (fst st) (fst (fold_left F l st))
    /\ (snd (fold_left F l st) = true ->
        snd st = true /\ forall x, In x l -> Q x (fst (fold_left F l st))).
Proof.
  intros Hstep Hstable. induction l as [|x l IH]; intros st; cbn [fold_left].
  - split; [ reflexivity | ]. intros H. split; [ exact H | intros x [] ].
  - destruct (IH (F st x)) as [K1 K2]. destruct (Hstep st x) as [S1 S2].
    split; [ transitivity (fst (F st x)); assumption | ].
    intros H. destruct (K2 H) as [H1 H2]. destruct (S2 H1) as [H3 H4].
    split; [ exact H3 | ]. intros y [<- | Hy]; [ | apply H2; exact Hy ].
    exact (Hstable x _ _ K1 H4).
Qed.

Lemma selfTestNote_step ch st n :
  sameButBalance (fst st) (fst (selfTestNote ch st n))
  /\ (snd (selfTestNote ch st n) = true ->
      snd st = true
      /\ noteChannelDownCount (fst (selfTestNote ch st n)) n ch = 0
      /\ noteChannelDownRawBalance (fst (selfTestNote ch st n)) n ch = 0).
Proof.
  unfold selfTestNote, bind. destruct st as [c b]. cbn [fst snd].
  destruct (Z.eqb_spec (noteChannelDownCount c n ch) 0) as [E1|E1]; cbn [negb fst snd failTest].
  - destruct (Z.eqb_spec (noteChannelDownRawBalance c n ch) 0) as [E2|E2]; cbn [negb fst snd].
    + split; [ reflexivity | ]. intros H. split; [ exact H | split; assumption ].
    + destruct (noteChannelDownRawBalance c n ch <? 0); cbn [fst snd failTest].
      * split; [ transitivity (setRawBalance n ch 0 c);
                 [ apply sameButBalance_zero | apply sameButBalance_emit ] | ].
        intros H. split; [ exact H | ]. split; [ exact E1 | ].
        unfold logger, emit, setRawBalance. simpl_ctx. rewrite !upd_same. reflexivity.
      * split; [ apply sameButBalance_emit | discriminate ].
  - change (noteChannelDownRawBalance (fail "Fretless_state.noteChannelDownCount[0x%d][0x%d] == %d" c))
      with (noteChannelDownRawBalance c).
    destruct (negb (noteChannelDownRawBalance c n ch =? 0));
      [ destruct (noteChannelDownRawBalance c n ch <? 0) | ]; cbn [fst snd failTest].
    + split; [ | discriminate ].
      transitivity (fail "Fretless_state.noteChannelDownCount[0x%d][0x%d] == %d" c);
        [ apply sameButBalance_emit | ].
      transitivity (setRawBalance n ch 0
                      (fail "Fretless_state.noteChannelDownCount[0x%d][0x%d] == %d" c));
        [ apply sameButBalance_zero | apply sameButBalance_emit ].
    + split; [ | discriminate ].
      transitivity (fail "Fretless_state.noteChannelDownCount[0x%d][0x%d] == %d" c);
        apply sameButBalance_emit.
    + split; [ apply sameButBalance_emit | discriminate ].
Qed.


Lemma channelTested_stable ch c c' :
  sameButBalance c c' -> channelTested ch c -> channelTested ch c'.
Proof.
  intros (_ & K2 & _ & K4 & _ & _ & _ & _ & K9) (H1 & H2 & H3).
  unfold channelTested. rewrite K2, K4. split; [ exact H1 | ]. split; [ exact H2 | ].
  intros n Hn. destruct (H3 n Hn) as [H4 H5]. split; [ exact H4 | apply K9; exact H5 ].
Qed.

Lemma selfTestChannel_step st ch :
  sameButBalance (fst st) (fst (selfTestChannel st ch))
  /\ (snd (selfTestChannel st ch) = true ->
      snd st = true /\ channelTested ch (fst (selfTestChannel st ch))).
Proof.
  unfold selfTestChannel. name_step st1 Hst1.
  assert (H1 : sameButBalance (fst st) (fst st1)
               /\ (snd st1 = true -> snd st = true /\ useCount (channels (fst st) ch) = 0)).
  { rewrite Hst1. destruct (Z.eqb_spec (useCount (channels (fst st) ch)) 0) as [E|E];
      cbn [negb].
    - split; [ reflexivity | ]. intros H. split; [ exact H | exact E ].
    - split; [ apply sameButBalance_failTest | discriminate ]. }
  clear Hst1. destruct H1 as [K1 C1]. name_step st2 Hst2.
  destruct (fold_checks (selfTestNote ch)
              (fun n c => noteChannelDownCount c n ch = 0
                          /\ noteChannelDownRawBalance c n ch = 0)
              (upto NOTEMAX) (selfTestNote_step ch)) with (st := st1) as [K2 C2].
  { intros n c c' (_ & _ & _ & K4 & _ & _ & _ & _ & K9) [H H']. rewrite K4.
    split; [ exact H | apply K9; exact H' ]. }
  rewrite <- Hst2 in K2, C2. clear Hst2.
  assert (K : sameButBalance (fst st) (fst st2)) by (transitivity (fst st1); assumption).
  destruct (Z.eqb_spec (currentFingerInChannel (channels (fst st2) ch)) NOBODY) as [E|E];
    cbn [negb].
  - split; [ exact K | ]. intros H. destruct (C2 H) as [H2 H3]. destruct (C1 H2) as [H4 H5].
    split; [ exact H4 | ]. destruct K as (_ & K2' & _). unfold channelTested.
    rewrite K2'. split; [ exact H5 | ]. rewrite <- K2'. split; [ exact E | ].
    intros n Hn. apply H3, in_upto. exact Hn.
  - split; [ | discriminate ]. transitivity (fst st2); [ exact K | ].
    apply sameButBalance_failTest.
Qed.

Lemma selfTestPoly_step st p :
  sameButBalance (fst st) (fst (selfTestPoly st p))
  /\ (snd (selfTestPoly st p) = true ->
      snd st = true /\ polys (fst (selfTestPoly st p)) p = NOBODY).
Proof.
  unfold selfTestPoly. destruct (Z.eqb_spec (polys (fst st) p) NOBODY) as [E|E]; cbn [negb].
  - split; [ reflexivity | ]. intros H. split; [ exact H | exact E ].
  - split; [ apply sameButBalance_failTest | discriminate ].
Qed.

(** One check of the self test. *)
Lemma check_step (b : bool) m (st : testState) :
  sameButBalance (fst st) (fst (if negb b then failTest m st else st))
  /\ (snd (if negb b then failTest m st else st) = true -> snd st = true /\ b = true).
Proof.
  destruct b; cbn [negb].
  - split; [ reflexivity | ]. intros H. split; [ exact H | reflexivity ].
  - split; [ apply sameButBalance_failTest | discriminate ].
Qed.

Lemma selfTestFinger_step st f :
  sameButBalance (fst st) (fst (selfTestFinger st f))
  /\ (snd (selfTestFinger st f) = true ->
      snd st = true
      /\ isOn (fingers (fst (selfTestFinger st f)) f) = 0
      /\ nextFingerInChannel (fingers (fst (selfTestFinger st f)) f) = NOBODY
      /\ prevFingerInChannel (fingers (fst (selfTestFinger st f)) f) = NOBODY).
Proof.
  unfold selfTestFinger. name_step st1 H1. name_step st2 H2.
  lazymatch goal with |- sameButBalance _ (fst ?e) /\ _ => remember e as st3 eqn:H3 end.
  assert (S1 : sameButBalance (fst st) (fst st1)
               /\ (snd st1 = true -> snd st = true /\ (isOn (fingers (fst st) f) =? 0) = true))
    by (rewrite H1; apply check_step).
  assert (S2 : sameButBalance (fst st1) (fst st2)
               /\ (snd st2 = true ->
                   snd st1 = true
                   /\ (nextFingerInChannel (fingers (fst st1) f) =? NOBODY) = true))
    by (rewrite H2; apply check_step).
  assert (S3 : sameButBalance (fst st2) (fst st3)
               /\ (snd st3 = true ->
                   snd st2 = true
                   /\ (prevFingerInChannel (fingers (fst st2) f) =? NOBODY) = true))
    by (rewrite H3; apply check_step).
  clear H1 H2 H3. destruct S1 as [K1 C1]. destruct S2 as [K2 C2]. destruct S3 as [K3 C3].
  split; [ transitivity (fst st1); [ exact K1 | transitivity (fst st2); assumption ] | ].
  intros H. destruct (C3 H) as [H3 E3]. destruct (C2 H3) as [H2 E2].
  destruct (C1 H2) as [H1 E1]. apply Z.eqb_eq in E1, E2, E3.
  destruct K1 as (F1 & _). destruct K2 as (F2 & _). destruct K3 as (F3 & _).
  split; [ exact H1 | ]. rewrite F3, F2, F1. rewrite F2, F1 in E3. rewrite F1 in E2.
  split; [ exact E1 | split; assumption ].
Qed.

Lemma tested_stable c c' :
  sameButBalance c c' -> fingersDownCount c = 0 ->
  (forall ch, 0 <= ch < CHANNELMAX -> channelTested ch c) ->
  (forall p, 0 <= p < POLYMAX -> polys c p = NOBODY) ->
  (forall f, 0 <= f < FINGERMAX ->
     isOn (fingers c f) = 0 /\ nextFingerInChannel (fingers c f) = NOBODY
     /\ prevFingerInChannel (fingers c f) = NOBODY) ->
  tested c'.
Proof.
  intros K H0 Hch Hp Hf.
  assert (Hch' : forall ch, 0 <= ch < CHANNELMAX -> channelTested ch c')
    by (intros ch H; exact (channelTested_stable ch c c' K (Hch ch H))).
  destruct K as (K1 & K2 & K3 & K4 & K5 & _). split.
  - rewrite K5. exact H0.
  - intros ch H. destruct (Hch' ch H) as (H1 & H2 & _). split; assumption.
  - intros n ch Hn H. destruct (Hch' ch H) as (_ & _ & H3). exact (H3 n Hn).
  - intros p H. rewrite K3. exact (Hp p H).
  - intros f H. rewrite K1. exact (Hf f H).
Qed.

(** X25: on a context that holds what the self test checks (no finger
    down, every channel unused and without a current finger, both ledgers
    zero, every poly group empty, every finger slot off and out of the
    channel lists), [Fretless_selfTest] only calls the passed callback:
    nothing else of the context changes, and fail is not called. *)
Theorem selfTest_on_tested_context (c : Fretless_context) :
  tested c -> Fretless_selfTest c = passed c.
Proof. exact (selfTest_tested c). Qed.

Lemma selfTest_on_tested_context_witness : Fretless_selfTest S_booted = passed S_booted.
Proof.
  apply (selfTest_on_tested_context S_booted).
  unfold S_booted, bootedWith. apply clean_tested, boot_clean.
Defined.

Lemma selfTest_scan (c : Fretless_context) :
  fingersDownCount c = 0 ->
  let st := fold_left selfTestFinger (upto FINGERMAX)
              (fold_left selfTestPoly (upto POLYMAX)
                 (fold_left selfTestChannel (upto CHANNELMAX) (c, true))) in
  fingersDownCount (fst st) = 0 /\ (snd st = true -> tested (fst st)).
Proof.
  intros E0.
  destruct (fold_checks selfTestChannel channelTested (upto CHANNELMAX)
              selfTestChannel_step channelTested_stable (c, true)) as [K1 C1].
  remember (fold_left selfTestChannel (upto CHANNELMAX) (c, true)) as st1 eqn:X1. clear X1.
  destruct (fold_checks selfTestPoly (fun p c => polys c p = NOBODY) (upto POLYMAX)
              selfTestPoly_step) with (st := st1) as [K2 C2].
  { intros p c0 c' (_ & _ & K3 & _) H. rewrite K3. exact H. }
  remember (fold_left selfTestPoly (upto POLYMAX) st1) as st2 eqn:X2. clear X2.
  destruct (fold_checks selfTestFinger
              (fun f c => isOn (fingers c f) = 0
                          /\ nextFingerInChannel (fingers c f) = NOBODY
                          /\ prevFingerInChannel (fingers c f) = NOBODY)
              (upto FINGERMAX)) with (st := st2) as [K3 C3].
  { intros st f. destruct (selfTestFinger_step st f) as [K C]. split; [ exact K | ].
    intros H. destruct (C H) as (H1 & H2). split; [ exact H1 | exact H2 ]. }
  { intros f c0 c' (K1' & _) H. rewrite K1'. exact H. }
  remember (fold_left selfTestFinger (upto FINGERMAX) st2) as st3 eqn:X3. clear X3.
  cbv zeta. cbn [fst] in K1.
  assert (K13 : sameButBalance c (fst st3))
    by (transitivity (fst st1); [ exact K1 | transitivity (fst st2); assumption ]).
  assert (E3 : fingersDownCount (fst st3) = 0)
    by (destruct K13 as (_ & _ & _ & _ & -> & _); exact E0).
  split; [ exact E3 | ]. intros Eflag.
  destruct (C3 Eflag) as [F2 Q3]. destruct (C2 F2) as [F1 Q2].
  destruct (C1 F1) as [_ Q1].
  apply (tested_stable (fst st3)); [ reflexivity | exact E3 | | | ].
  - intros ch H. apply (channelTested_stable ch (fst st1)).
    + transitivity (fst st2); assumption.
    + apply Q1, in_upto. exact H.
  - intros p H. destruct K3 as (_ & _ & -> & _). apply Q2, in_upto. exact H.
  - intros f H. apply Q3, in_upto. exact H.
Qed.

Lemma tested_passed c : tested c -> tested (passed c).
Proof. intros [H1 H2 H3 H4 H5]. split; assumption. Qed.

Lemma selfTest_end (st : testState) :
  fingersDownCount (fst st) <= 0 ->
  (fingersDownCount (fst st) = 0 -> snd st = true -> tested (fst st)) ->
  tested
    (if snd (if fingersDownCount (fst st) <? 0
             then failTest "less than zero fingers count!" st else st)
     then passed (fst (if fingersDownCount (fst st) <? 0
                       then failTest "less than zero fingers count!" st else st))
     else Fretless_boot
            (fold_left silenceNote (upto NOTEMAX)
               (fst (if fingersDownCount (fst st) <? 0
                     then failTest "less than zero fingers count!" st else st)))).
Proof.
  intros Hle Ht. destruct (Z.ltb_spec (fingersDownCount (fst st)) 0) as [Hn|Hn].
  - cbn [failTest snd]. apply clean_tested, boot_clean.
  - destruct (snd st) eqn:Eflag.
    + apply tested_passed, Ht; [ lia | reflexivity ].
    + apply clean_tested, boot_clean.
Qed.

(** X26: when the count of fingers down is 0 or less, the context that
    [Fretless_selfTest] leaves holds everything the test checks: either the
    test passed, and then the checks held (a negative raw balance it found
    has been set to 0), or it failed, and then the context was rebooted.
    The hints are the same either way. *)
Theorem selfTest_leaves_tested_context (c : Fretless_context) :
  fingersDownCount c <= 0 ->
  tested (Fretless_selfTest c) /\ sameHints c (Fretless_selfTest c).
Proof.
  intros Hfdc. split; [ | apply frame_selfTest ].
  unfold Fretless_selfTest, bind. apply selfTest_end.
  - destruct (Z.eqb_spec (fingersDownCount (fst (c, true))) 0) as [E0|E0].
    + destruct (selfTest_scan c E0) as [H _]. rewrite H. lia.
    + exact Hfdc.
  - destruct (Z.eqb_spec (fingersDownCount (fst (c, true))) 0) as [E0|E0].
    + intros _. exact (proj2 (selfTest_scan c E0)).
    + intros H. exact (False_ind _ (E0 H)).
Qed.

Lemma selfTest_leaves_tested_context_witness :
  tested (Fretless_selfTest (set_fingersDownCount 0 usedMemory))
  /\ sameHints (set_fingersDownCount 0 usedMemory)
       (Fretless_selfTest (set_fingersDownCount 0 usedMemory)).
Proof.
  apply (selfTest_leaves_tested_context (set_fingersDownCount 0 usedMemory)).
  cbn [fingersDownCount set_fingersDownCount]. lia.
Defined.

(** * Start-up, bends and controllers *)

(** X27: [Fretless_init] followed by [Fretless_boot], whatever the
    allocated block held: the context is at rest with the default hints
    (base 0, span 8, bend range 2, bends not suppressed), fail has not been
    called, and the bytes sent are the pitch-bend-range RPN with range 2 on
    the channels 0 to 7, 144 bytes. *)
Theorem init_then_boot_is_idle (raw : Fretless_context) :
  let c := Fretless_boot (Fretless_init raw) in
  idle c
  /\ channelBase c = 0 /\ channelSpan c = 8 /\ channelBendSemis c = 2
  /\ supressBends c = FALSE
  /\ failsOf (trace c) = []
  /\ bytesOf (trace c) = flat_map (fun k => rpnBytes k 2) (upto 8)
  /\ List.length (bytesOf (trace c)) = 144%nat.
Proof.
  cbv zeta.
  assert (Hv : validHints (Fretless_init raw))
    by (unfold validHints, Fretless_init, bind, CHANNELMAX; simpl_ctx; lia).
  split; [ apply boot_idle, Hv | ].
  rewrite boot_eq. unfold bootState, Fretless_init, bind. simpl_ctx.
  repeat (split; [ reflexivity | ]).
  vm_compute. reflexivity.
Qed.






(** ** Taking a channel and giving it back *)









